(** * doomscroll: the extraction, ranking and review pipeline

    A shallow embedding of the TypeScript sources
    ([lib/extract.ts], [lib/generate.ts], [lib/repetition.ts],
    [lib/store.ts], [lib/ingest.ts], [lib/github.ts]) and the properties
    the specification states about them; then further properties of the
    same code and of [lib/syntax.tsx], [lib/recent.ts] and the counts of
    [app/feed.tsx].

    Conventions of the embedding:
    - a JS string is a [string]; the code only ever inspects ASCII
      characters, except that [trim] also strips white space beyond ASCII,
      which is not represented here;
    - a JS integer-valued number (a count, a score, [Date.now()]) is a [Z];
    - [Record<string, CardProgress>] is a [gmap string CardProgress.t]
      (card ids have the shape [gen-<i>-<name>] or are decimal numerals, so
      they never name a property of [Object.prototype]);
    - [Array.prototype.sort] is the stable sort that ECMAScript 2019
      prescribes; [Date.now()] is an explicit argument. *)

From Stdlib Require Import ZArith List Ascii String Lia.
From Stdlib Require Import Sorting.Sorted Sorting.Permutation.
From Equations Require Import Equations.
From stdpp Require Import gmap strings list sorting pretty.

Open Scope string_scope.
Open Scope list_scope.
Open Scope Z_scope.

(* ================================================================== *)
(** * Part I: the program *)
(* ================================================================== *)

(** ** JavaScript library functions used by the sources *)

Section JsSort.
Context {A : Type} (cmp : A → A → Z).

(** [x] goes in front of the first element it does not come after, so
    it stays ahead of the elements it compares equal to. *)
Fixpoint sort_insert (x : A) (l : list A) : list A :=
  match l with
  | [] => [x]
  | y :: l' => if cmp x y <=? 0 then x :: l else y :: sort_insert x l'
  end.

(** [Array.prototype.sort(cmp)]: a stable sort by the comparator. *)
Definition js_sort (l : list A) : list A := foldr sort_insert [] l.
End JsSort.

(** The code units of a string, and back. *)
Definition chars (s : string) : list ascii := list_ascii_of_string s.
Definition ofChars (l : list ascii) : string := string_of_list_ascii l.

(** [s.slice(a, b)] for [0 <= a]. *)
Definition slice (a b : nat) (l : list ascii) : list ascii :=
  take (b - a) (drop a l).

(** [s[i]] where the caller has checked [i < s.length]. *)
Definition charAt (l : list ascii) (i : nat) : ascii := nth i l "000"%char.

Definition quoteDouble : ascii := "034"%char.
Definition quoteSingle : ascii := "039"%char.
Definition backtick : ascii := "096"%char.
Definition backslash : ascii := "092"%char.
Definition braceOpen : ascii := "123"%char.
Definition braceClose : ascii := "125"%char.
Definition newline : ascii := "010"%char.

(** [s.includes(sub)] *)
Fixpoint includes (s sub : string) : bool :=
  String.prefix sub s ||
  match s with
  | EmptyString => false
  | String _ rest => includes rest sub
  end.

(** [s.split(sep)] for a one-character separator. *)
Fixpoint split (sep : ascii) (s : string) : list string :=
  match s with
  | EmptyString => [EmptyString]
  | String c rest =>
      if bool_decide (c = sep) then EmptyString :: split sep rest
      else match split sep rest with
           | seg :: segs => String c seg :: segs
           | [] => [String c EmptyString]
           end
  end.

(** [s.split(sep).pop()]; the array [split] returns is never empty. *)
Definition lastSegment (sep : ascii) (s : string) : string :=
  default EmptyString (last (split sep s)).

(** [s.split("\n").length] *)
Definition lineCountOf (s : string) : Z := Z.of_nat (length (split newline s)).

(** The white space of the ASCII range: tab, line feed, vertical tab, form
    feed, carriage return and space. *)
Definition isSpace (c : ascii) : bool :=
  let n := nat_of_ascii c in
  ((9 <=? n) && (n <=? 13))%nat || (n =? 32)%nat.

Fixpoint trimStart (s : string) : string :=
  match s with
  | EmptyString => EmptyString
  | String c rest => if isSpace c then trimStart rest else s
  end.

Fixpoint trimEnd (s : string) : string :=
  match s with
  | EmptyString => EmptyString
  | String c rest =>
      match trimEnd rest with
      | EmptyString => if isSpace c then EmptyString else String c EmptyString
      | kept => String c kept
      end
  end.

(** [s.trim()] *)
Definition trim (s : string) : string := trimEnd (trimStart s).

(** The regular-expression class [\w]. *)
Definition isWordChar (c : ascii) : bool :=
  let n := nat_of_ascii c in
  ((48 <=? n) && (n <=? 57) || (65 <=? n) && (n <=? 90)
   || (97 <=? n) && (n <=? 122) || (n =? 95))%nat.

(** Truthiness of a [string | null]: neither [null] nor empty. *)
Definition truthy (s : option string) : bool :=
  match s with
  | Some EmptyString | None => false
  | Some _ => true
  end.

(** A comparator that subtracts sort keys, [(a, b) => key(a) - key(b)]. *)
Definition byKey {A : Type} (key : A → Z) : A → A → Z := λ a b, key a - key b.

(** ** Data model ([types/index.ts]) *)

Inductive CardType := TFunction | TType | TConcept | TPattern | TFile.

Global Instance CardType_eq_dec : EqDecision CardType.
Proof. solve_decision. Defined.

(** The value of a [language] field. The declared type is [string], and a
    string it is whenever the file's extension is a key of the table of
    [detectLanguage] or names nothing at all; but the table is a plain
    object, and indexed by the name of a member every object inherits
    from [Object.prototype] it hands out that member, which is no string
    and in particular differs from every language name. *)
Inductive Language :=
| LangName (name : string)
| InheritedMember (key : string).

Coercion LangName : string >-> Language.

Global Instance Language_eq_dec : EqDecision Language.
Proof. solve_decision. Defined.

Module CodeCard.
Record t := mk {
  id : string;
  type : CardType;
  title : string;
  filePath : string;
  code : string;
  language : Language;
  explanation : string;
  difficulty : Z
}.
End CodeCard.

Module CardProgress.
Record t := mk {
  cardId : string;
  seen : Z;
  mastered : bool;
  lastSeen : Z
}.
End CardProgress.

Global Instance CodeCard_eq_dec : EqDecision CodeCard.t.
Proof. solve_decision. Defined.

Global Instance CardProgress_eq_dec : EqDecision CardProgress.t.
Proof. solve_decision. Defined.

(** ** Spaced repetition ([lib/repetition.ts]) *)

(** [progress[c.id].lastSeen]. Both comparators only ever see cards that
    passed a filter requiring an entry; the default stands for the
    [TypeError] JS would raise otherwise. *)
Definition lastSeenOf (progress : gmap string CardProgress.t)
    (c : CodeCard.t) : Z :=
  match progress !! CodeCard.id c with
  | Some p => CardProgress.lastSeen p
  | None => 0
  end.

(** [c.id !== justSwipedId] *)
Definition notJustSwiped (justSwipedId : option string) (c : CodeCard.t) : bool :=
  negb (bool_decide (Some (CodeCard.id c) = justSwipedId)).

(** [!progress[c.id]] *)
Definition isUnseen (progress : gmap string CardProgress.t)
    (c : CodeCard.t) : bool :=
  match progress !! CodeCard.id c with
  | Some _ => false
  | None => true
  end.

(** [p && !p.mastered && c.id !== justSwipedId] *)
Definition needsWorkFilter (progress : gmap string CardProgress.t)
    (justSwipedId : option string) (c : CodeCard.t) : bool :=
  match progress !! CodeCard.id c with
  | Some p => negb (CardProgress.mastered p) && notJustSwiped justSwipedId c
  | None => false
  end.

(** [p?.mastered && c.id !== justSwipedId] *)
Definition masteredFilter (progress : gmap string CardProgress.t)
    (justSwipedId : option string) (c : CodeCard.t) : bool :=
  match progress !! CodeCard.id c with
  | Some p => CardProgress.mastered p && notJustSwiped justSwipedId c
  | None => false
  end.

(** [(a, b) => progress[a.id].lastSeen - progress[b.id].lastSeen] *)
Definition byLastSeen (progress : gmap string CardProgress.t)
    (a b : CodeCard.t) : Z :=
  lastSeenOf progress a - lastSeenOf progress b.

Definition buildQueue (cards : list CodeCard.t)
    (progress : gmap string CardProgress.t)
    (justSwipedId : option string) : list CodeCard.t :=
  let unseen := List.filter (isUnseen progress) cards in
  let needsWork :=
    js_sort (byLastSeen progress)
      (List.filter (needsWorkFilter progress justSwipedId) cards) in
  let mastered :=
    js_sort (byLastSeen progress)
      (List.filter (masteredFilter progress justSwipedId) cards) in
  unseen ++ needsWork ++ mastered.

(** ** Card deck state ([lib/store.ts], the per-repository variant) *)

Record DeckState := mkDeck {
  progress : gmap string CardProgress.t;
  lastSwipedId : option string;
  justMasteredCard : option CodeCard.t
}.

Definition initialDeck : DeckState := mkDeck ∅ None None.

(** [prev[id]?.seen ?? 0] *)
Definition seenOr0 (prev : gmap string CardProgress.t) (id : string) : Z :=
  match prev !! id with
  | Some p => CardProgress.seen p
  | None => 0
  end.

(** [prev[id]?.mastered ?? false] *)
Definition wasMasteredOf (prev : gmap string CardProgress.t) (id : string) : bool :=
  match prev !! id with
  | Some p => CardProgress.mastered p
  | None => false
  end.

(** The updater [swipeRight] hands to [setProgress]. The second component
    tells whether it called [setJustMasteredCard(card)]. *)
Definition swipeRightUpdater (id : string) (now : Z)
    (prev : gmap string CardProgress.t)
    : gmap string CardProgress.t * bool :=
  let seen := seenOr0 prev id + 1 in
  let wasMastered := wasMasteredOf prev id in
  let isMastered := 3 <=? seen in
  (<[id := CardProgress.mk id seen isMastered now]> prev,
   isMastered && negb wasMastered).

(** The updater [swipeLeft] hands to [setProgress]. *)
Definition swipeLeftUpdater (id : string) (now : Z)
    (prev : gmap string CardProgress.t) : gmap string CardProgress.t :=
  <[id := CardProgress.mk id 0 false now]> prev.

(** The updater of [swipeLeft] in the older, single-store variant of
    [lib/store.ts]: it counts the reject instead of resetting. *)
Definition swipeLeftUpdaterLegacy (id : string) (now : Z)
    (prev : gmap string CardProgress.t) : gmap string CardProgress.t :=
  <[id := CardProgress.mk id (seenOr0 prev id + 1) false now]> prev.

(** [queue[0] ?? null] of the memoised queue. *)
Definition currentCard (cards : list CodeCard.t) (st : DeckState)
    : option CodeCard.t :=
  head (buildQueue cards (progress st) (lastSwipedId st)).

Definition swipeRight (cards : list CodeCard.t) (now : Z) (st : DeckState)
    : DeckState :=
  match currentCard cards st with
  | None => st
  | Some card =>
      let id := CodeCard.id card in
      let '(next, celebrate) := swipeRightUpdater id now (progress st) in
      mkDeck next (Some id)
        (if celebrate then Some card else justMasteredCard st)
  end.

Definition swipeLeft (cards : list CodeCard.t) (now : Z) (st : DeckState)
    : DeckState :=
  match currentCard cards st with
  | None => st
  | Some card =>
      let id := CodeCard.id card in
      mkDeck (swipeLeftUpdater id now (progress st)) (Some id)
        (justMasteredCard st)
  end.

Definition swipeUp (cards : list CodeCard.t) (st : DeckState) : DeckState :=
  match currentCard cards st with
  | None => st
  | Some card =>
      mkDeck (progress st) (Some (CodeCard.id card)) (justMasteredCard st)
  end.

(** A review action together with the clock reading it observes. *)
Inductive Action :=
| Confirm (now : Z)
| Reject (now : Z)
| Skip.

Definition deckStep (cards : list CodeCard.t) (st : DeckState) (a : Action)
    : DeckState :=
  match a with
  | Confirm now => swipeRight cards now st
  | Reject now => swipeLeft cards now st
  | Skip => swipeUp cards st
  end.

(** ** Specification-level notions for the reducer *)

(** The reducer of the specification, for one card: what an action does to
    the mapping, and whether it emits the mastery signal. It is no function
    of the source; [deckLog_reviewTrace] shows that the hook does this to
    every card it acts on. *)
Definition applyReview (id : string) (a : Action)
    (prev : gmap string CardProgress.t)
    : gmap string CardProgress.t * bool :=
  match a with
  | Confirm now => swipeRightUpdater id now prev
  | Reject now => (swipeLeftUpdater id now prev, false)
  | Skip => (prev, false)
  end.

(** The reducer of the specification run over a list of actions on one
    card, collecting the mastery signals. *)
Fixpoint reviewTrace (id : string) (acts : list Action)
    (prev : gmap string CardProgress.t)
    : gmap string CardProgress.t * list bool :=
  match acts with
  | [] => (prev, [])
  | a :: rest =>
      let '(next, sig) := applyReview id a prev in
      let '(final, sigs) := reviewTrace id rest next in
      (final, sig :: sigs)
  end.

(** The data-model invariant of a review state. *)
Definition masteryInvariant (p : CardProgress.t) : Prop :=
  CardProgress.mastered p = true ↔ 3 ≤ CardProgress.seen p.

(** The deck after a list of actions, starting without any review state. *)
Definition runDeck (cards : list CodeCard.t) (acts : list Action) : DeckState :=
  foldl (deckStep cards) initialDeck acts.

(** Actions aimed at arbitrary cards, in any interleaving. *)
Definition applyReviews (steps : list (string * Action))
    (m : gmap string CardProgress.t) : gmap string CardProgress.t :=
  foldl (λ m step, (applyReview step.1 step.2 m).1) m steps.

(** Number of mastery signals in a trace. *)
Definition signalCount (sigs : list bool) : nat :=
  length (List.filter (λ b : bool, b) sigs).

(** Every stored review state satisfies the invariant. *)
Definition progressInvariant (m : gmap string CardProgress.t) : Prop :=
  ∀ id p, m !! id = Some p → masteryInvariant p.

(** ** Specification-level notions for the queue *)

Inductive Tier := Unseen | NeedsWork | Mastered.

Global Instance Tier_eq_dec : EqDecision Tier.
Proof. solve_decision. Defined.

(** The tier the specification assigns to a card. *)
Definition tierOf (progress : gmap string CardProgress.t) (c : CodeCard.t) : Tier :=
  match progress !! CodeCard.id c with
  | None => Unseen
  | Some p => if CardProgress.mastered p then Mastered else NeedsWork
  end.

Definition tierRank (t : Tier) : Z :=
  match t with Unseen => 0 | NeedsWork => 1 | Mastered => 2 end.

Definition inTier (progress : gmap string CardProgress.t) (t : Tier)
    (c : CodeCard.t) : bool :=
  bool_decide (tierOf progress c = t).

(** The card that was just acted upon, once it has a review state. *)
Definition excluded (progress : gmap string CardProgress.t)
    (justSwipedId : option string) (c : CodeCard.t) : bool :=
  bool_decide (tierOf progress c ≠ Unseen) &&
  bool_decide (Some (CodeCard.id c) = justSwipedId).

(** A card of an earlier tier is never behind a card of a later one. *)
Definition tierLe (progress : gmap string CardProgress.t) (a b : CodeCard.t) : Prop :=
  tierRank (tierOf progress a) ≤ tierRank (tierOf progress b).

(** Least recently reviewed first. *)
Definition lastSeenLe (progress : gmap string CardProgress.t) (a b : CodeCard.t) : Prop :=
  lastSeenOf progress a ≤ lastSeenOf progress b.

(** ** Code extraction ([lib/extract.ts]) *)

(** [ch] is a double quote, a single quote or a backtick. *)
Definition isQuote (ch : ascii) : bool :=
  bool_decide (ch = quoteDouble) || bool_decide (ch = quoteSingle)
  || bool_decide (ch = backtick).

(** The inner loop of [extractBraceBlock], entered with [i] just past the
    opening quote:
    [while (i < source.length && source[i] !== quote)
       { if (source[i] === "\\") i++; i++; }]
    The result is the value of [i] when the loop exits. *)
Equations? skipString (source : list ascii) (quote : ascii) (i : nat) : nat
    by wf (length source - i)%nat lt :=
  skipString source quote i with lt_dec i (length source) := {
    | right _ => i
    | left _ =>
        if bool_decide (charAt source i = quote) then i
        else skipString source quote
               (if bool_decide (charAt source i = backslash)
                then i + 2 else i + 1)%nat }.
Proof. all: destruct (bool_decide _); lia. Qed.

Lemma skipString_step source quote i :
  skipString source quote i =
  if bool_decide (i < length source)%nat then
    if bool_decide (charAt source i = quote) then i
    else skipString source quote
           (if bool_decide (charAt source i = backslash)
            then i + 2 else i + 1)%nat
  else i.
Proof.
  rewrite skipString_equation_1. unfold skipString_unfold_clause_1.
  destruct (lt_dec i (length source)) as [Hlt|Hge].
  - by rewrite (bool_decide_eq_true_2 (i < length source)%nat).
  - by rewrite (bool_decide_eq_false_2 (i < length source)%nat).
Qed.

Lemma skipString_ge source quote i : (i ≤ skipString source quote i)%nat.
Proof.
  remember (length source - i)%nat as m eqn:Hm.
  revert i Hm; induction (lt_wf m) as [m _ IH]; intros i ->.
  rewrite skipString_step.
  destruct (bool_decide_reflect (i < length source)%nat) as [Hlt|]; [|lia].
  destruct (bool_decide (charAt source i = quote)); [lia|].
  destruct (bool_decide (charAt source i = backslash)).
  - specialize (IH (length source - (i + 2))%nat ltac:(lia) (i + 2)%nat eq_refl).
    lia.
  - specialize (IH (length source - (i + 1))%nat ltac:(lia) (i + 1)%nat eq_refl).
    lia.
Qed.

(** The outer loop of [extractBraceBlock], at index [i] with the current
    [depth] and [foundOpen]; [None] is [null]. *)
Equations? braceLoop (source : list ascii) (startIdx : nat) (depth : Z)
    (foundOpen : bool) (i : nat) : option (list ascii)
    by wf (length source - i)%nat lt :=
  braceLoop source startIdx depth foundOpen i with lt_dec i (length source) := {
    | right _ => None
    | left _ =>
        let ch := charAt source i in
        let depth' :=
          if bool_decide (ch = braceOpen) then depth + 1
          else if bool_decide (ch = braceClose) then depth - 1
          else depth in
        let foundOpen' :=
          if bool_decide (ch = braceOpen) then true else foundOpen in
        if bool_decide (ch = braceClose) && foundOpen' && (depth' =? 0)
        then Some (slice startIdx (i + 1) source)
        else
          braceLoop source startIdx depth' foundOpen'
            (S (if isQuote ch then skipString source ch (i + 1) else i)) }.
Proof.
  destruct (isQuote ch); [|lia].
  pose proof (skipString_ge source ch (i + 1)). lia.
Qed.

Lemma braceLoop_step source startIdx depth foundOpen i :
  braceLoop source startIdx depth foundOpen i =
  if bool_decide (i < length source)%nat then
    let ch := charAt source i in
    let depth' :=
      if bool_decide (ch = braceOpen) then depth + 1
      else if bool_decide (ch = braceClose) then depth - 1
      else depth in
    let foundOpen' :=
      if bool_decide (ch = braceOpen) then true else foundOpen in
    if bool_decide (ch = braceClose) && foundOpen' && (depth' =? 0)
    then Some (slice startIdx (i + 1) source)
    else
      braceLoop source startIdx depth' foundOpen'
        (S (if isQuote ch then skipString source ch (i + 1) else i))
  else None.
Proof.
  rewrite braceLoop_equation_1. unfold braceLoop_unfold_clause_1.
  destruct (lt_dec i (length source)) as [Hlt|Hge].
  - by rewrite (bool_decide_eq_true_2 (i < length source)%nat).
  - by rewrite (bool_decide_eq_false_2 (i < length source)%nat).
Qed.

Definition extractBraceBlock (source : string) (startIdx : nat) : option string :=
  ofChars <$> braceLoop (chars source) startIdx 0 false startIdx.

(** ** Specification-level notions for the brace matcher *)

(** Where a left-to-right reading of the text stands: in code, inside a
    literal opened by quote [q], or right after a backslash in one. *)
Inductive LexMode := InCode | InLiteral (q : ascii) | Escaped (q : ascii).

Global Instance LexMode_eq_dec : EqDecision LexMode.
Proof. solve_decision. Defined.

Record Scan := mkScan {
  mode : LexMode;
  braceDepth : Z;   (* opening minus closing braces read in code *)
  opened : bool     (* an opening brace was read in code *)
}.

Definition scanStep (s : Scan) (c : ascii) : Scan :=
  match mode s with
  | InCode =>
      if bool_decide (c = braceOpen) then mkScan InCode (braceDepth s + 1) true
      else if bool_decide (c = braceClose)
           then mkScan InCode (braceDepth s - 1) (opened s)
      else if isQuote c then mkScan (InLiteral c) (braceDepth s) (opened s)
      else s
  | InLiteral q =>
      if bool_decide (c = q) then mkScan InCode (braceDepth s) (opened s)
      else if bool_decide (c = backslash)
           then mkScan (Escaped q) (braceDepth s) (opened s)
      else s
  | Escaped q => mkScan (InLiteral q) (braceDepth s) (opened s)
  end.

Definition scanFrom (s : Scan) (text : list ascii) : Scan := foldl scanStep s text.

Definition scanStart : Scan := mkScan InCode 0 false.

(** [text] ends with a closing brace read in code, contains an opening
    brace read in code, and its braces read in code balance. *)
Definition closesFrom (s : Scan) (text : list ascii) : Prop :=
  ∃ body, text = body ++ [braceClose] ∧
    mode (scanFrom s body) = InCode ∧
    opened (scanFrom s text) = true ∧
    braceDepth (scanFrom s text) = 0.

Definition closes (text : list ascii) : Prop := closesFrom scanStart text.

(** Reading [c] in state [s] completes a balanced block. *)
Definition closesAt (s : Scan) (c : ascii) : bool :=
  bool_decide (mode s = InCode) && bool_decide (c = braceClose)
  && opened s && (braceDepth s - 1 =? 0).

(** Length of the shortest closing prefix, by one pass over the text. *)
Fixpoint findClose (s : Scan) (n : nat) (text : list ascii) : option nat :=
  match text with
  | [] => None
  | c :: rest =>
      if closesAt s c then Some (S n) else findClose (scanStep s c) (S n) rest
  end.


(** The block begins with an opening brace. *)
Definition startsWithOpenBrace (block : string) : Prop :=
  ∃ rest, block = String braceOpen rest.

(** ** Extracted blocks and their ranking ([lib/extract.ts]) *)

(** [BlockType] and [CardType] are the same union of string literals. *)
Abbreviation BlockType := CardType.

(** The string a [BlockType] value is. *)
Definition typeString (t : BlockType) : string :=
  match t with
  | TFunction => "function"
  | TType => "type"
  | TConcept => "concept"
  | TPattern => "pattern"
  | TFile => "file"
  end.

Module ExtractedBlock.
Record t := mk {
  name : string;
  type : BlockType;
  code : string;
  filePath : string;
  language : Language;
  jsDoc : option string;
  lineCount : Z
}.
End ExtractedBlock.

Module FileContent.
Record t := mk { path : string; content : string }.
End FileContent.

(** The names of the members a plain object inherits from
    [Object.prototype]: those of the language specification, its legacy
    accessors included. *)
Definition OBJECT_PROTOTYPE_MEMBERS : list string :=
  ["constructor"; "hasOwnProperty"; "isPrototypeOf"; "propertyIsEnumerable";
   "toLocaleString"; "toString"; "valueOf"; "__proto__";
   "__defineGetter__"; "__defineSetter__"; "__lookupGetter__";
   "__lookupSetter__"].

(** [detectLanguage]: the extension is what follows the last dot, and
    [map[ext] ?? "text"] looks it up in an object literal: an own key gives
    its language, the name of an inherited member gives that member, which
    is neither [null] nor [undefined], and anything else gives "text". *)
Definition detectLanguage (path : string) : Language :=
  let ext := lastSegment "." path in
  if String.eqb ext "ts" then LangName "typescript"
  else if String.eqb ext "tsx" then LangName "typescript"
  else if String.eqb ext "js" then LangName "javascript"
  else if String.eqb ext "jsx" then LangName "javascript"
  else if String.eqb ext "py" then LangName "python"
  else if String.eqb ext "rs" then LangName "rust"
  else if String.eqb ext "go" then LangName "go"
  else if String.eqb ext "swift" then LangName "swift"
  else if String.eqb ext "kt" then LangName "kotlin"
  else if bool_decide (ext ∈ OBJECT_PROTOTYPE_MEMBERS) then InheritedMember ext
  else LangName "text".

(** [lang === name], the test of a [case] of the [switch] in
    [extractBlocks]. *)
Definition isLanguage (lang : Language) (name : string) : bool :=
  match lang with
  | LangName s => String.eqb s name
  | InheritedMember _ => false
  end.

Section Extractors.
(** The per-language extractors are regular-expression scans of the file
    text; [extractBlocks] only dispatches to them. *)
Variable extractTS : string → FileContent.t → Language → list ExtractedBlock.t.
Variable extractPython : string → FileContent.t → list ExtractedBlock.t.
Variable extractRust : string → FileContent.t → list ExtractedBlock.t.
Variable extractGo : string → FileContent.t → list ExtractedBlock.t.
Variable extractSwift : string → FileContent.t → list ExtractedBlock.t.

(** The [switch (lang)] of [extractBlocks]. *)
Definition languageBlocks (file : FileContent.t) : list ExtractedBlock.t :=
  let lang := detectLanguage (FileContent.path file) in
  let src := FileContent.content file in
  if isLanguage lang "python" then extractPython src file
  else if isLanguage lang "rust" then extractRust src file
  else if isLanguage lang "go" then extractGo src file
  else if isLanguage lang "swift" then extractSwift src file
  else extractTS src file lang.

Definition extractBlocks (file : FileContent.t) : list ExtractedBlock.t :=
  let lang := detectLanguage (FileContent.path file) in
  let src := FileContent.content file in
  let blocks := languageBlocks file in
  if bool_decide (length blocks = 0%nat) && (lineCountOf src <=? 40) then
    let fileName := lastSegment "/" (FileContent.path file) in
    blocks ++
    [ExtractedBlock.mk fileName TFile (trim src) (FileContent.path file) lang
       None (lineCountOf src)]
  else blocks.
End Extractors.

(** [`${b.name}:${b.type}`] *)
Definition blockKey (b : ExtractedBlock.t) : string :=
  ExtractedBlock.name b +:+ ":" +:+ typeString (ExtractedBlock.type b).

(** The [filter] of [rankBlocks], with the [Set] it fills as it goes. *)
Fixpoint dedupe (seen : gset string) (blocks : list ExtractedBlock.t)
    : list ExtractedBlock.t :=
  match blocks with
  | [] => []
  | b :: rest =>
      let key := blockKey b in
      if bool_decide (key ∈ seen) then dedupe seen rest
      else b :: dedupe ({[key]} ∪ seen) rest
  end.

(** The score the [map] callback of [rankBlocks] computes. *)
Definition blockScore (b : ExtractedBlock.t) : Z :=
  let score := 0 in
  let lineCount := ExtractedBlock.lineCount b in
  let score :=
    if (8 <=? lineCount) && (lineCount <=? 25) then score + 10
    else if (4 <=? lineCount) && (lineCount <=? 35) then score + 5
    else score in
  let score := if truthy (ExtractedBlock.jsDoc b) then score + 5 else score in
  let score :=
    if bool_decide (ExtractedBlock.type b = TFunction) then score + 3 else score in
  let score :=
    if bool_decide (ExtractedBlock.type b = TType) then score + 2 else score in
  score.

Definition rankBlocks (blocks : list ExtractedBlock.t) : list ExtractedBlock.t :=
  let unique := dedupe ∅ blocks in
  let scored := map (λ b, (b, blockScore b)) unique in
  map fst (js_sort (λ a b, snd b - snd a) scored).

(** ** Specification-level notions for the ranker *)

(** The identity the specification deduplicates by. *)
Definition blockPair (b : ExtractedBlock.t) : string * BlockType :=
  (ExtractedBlock.name b, ExtractedBlock.type b).

Definition samePair (b b' : ExtractedBlock.t) : bool :=
  bool_decide (blockPair b' = blockPair b).

(** Doc text is there: not [null], not empty. *)
Definition docPresent (b : ExtractedBlock.t) : Prop :=
  ∃ doc, ExtractedBlock.jsDoc b = Some doc ∧ doc ≠ EmptyString.

Global Instance docPresent_dec b : Decision (docPresent b).
Proof.
  unfold docPresent. destruct (ExtractedBlock.jsDoc b) as [doc|].
  - destruct (decide (doc = EmptyString)) as [->|Hne].
    + right. intros (d & [= <-] & Hd). done.
    + left. by exists doc.
  - right. intros (d & Hd & _). done.
Defined.

(** The additive score of the specification. *)
Definition specScore (b : ExtractedBlock.t) : Z :=
  let n := ExtractedBlock.lineCount b in
  (if decide (8 ≤ n ∧ n ≤ 25) then 10
   else if decide (4 ≤ n ∧ n ≤ 35) then 5 else 0)
  + (if decide (docPresent b) then 5 else 0)
  + (if decide (ExtractedBlock.type b = TFunction) then 3 else 0)
  + (if decide (ExtractedBlock.type b = TType) then 2 else 0).

(** Highest score first. *)
Definition scoreGe (a b : ExtractedBlock.t) : Prop := specScore b ≤ specScore a.

(** The blocks of [l] that score [k], in the order [l] has them. *)
Definition withScore (k : Z) (l : list ExtractedBlock.t) : list ExtractedBlock.t :=
  List.filter (λ b, specScore b =? k) l.

(** Number of newline characters in a text. *)
Fixpoint newlines (s : string) : nat :=
  match s with
  | EmptyString => 0
  | String c rest => (if bool_decide (c = newline) then 1 else 0) + newlines rest
  end.

(** ** Card generation ([lib/generate.ts]) *)

Definition blockTypeToCardType (t : BlockType) : CardType := t.

(** The nesting loop of [estimateDifficulty]: [for (const ch of code)] with
    the running [depth] and [maxDepth]; the result is the final [maxDepth]. *)
Fixpoint nestingLoop (code : string) (depth maxDepth : Z) : Z :=
  match code with
  | EmptyString => maxDepth
  | String ch rest =>
      let depth := if bool_decide (ch = braceOpen) then depth + 1 else depth in
      let depth := if bool_decide (ch = braceClose) then depth - 1 else depth in
      nestingLoop rest depth (Z.max maxDepth depth)
  end.

(** [\b] between two neighbouring characters ([None] at either end). *)
Definition wordBoundary (prev next : option ascii) : bool :=
  xorb (from_option isWordChar false prev) (from_option isWordChar false next).

(** The first character of a string, if any. *)
Definition headChar (s : string) : option ascii :=
  match s with
  | EmptyString => None
  | String c _ => Some c
  end.

(** [code.match(new RegExp(`\\b${name}\\(`, "g"))], as the number of matches
    (0 for [null]). Every block of kind [function] is named by a [\w+]
    capture, so the pattern is the literal text [pattern], the name
    followed by an opening parenthesis, after a word boundary. A global
    match resumes after the text it matched: [skip] counts the characters
    of the last match still to pass. *)
Fixpoint matchCount (pattern : string) (prev : option ascii) (skip : nat)
    (code : string) : nat :=
  match code with
  | EmptyString => 0
  | String c rest =>
      match skip with
      | S k => matchCount pattern (Some c) k rest
      | O =>
          if wordBoundary prev (Some c) && String.prefix pattern code
          then S (matchCount pattern (Some c) (String.length pattern - 1) rest)
          else matchCount pattern (Some c) 0 rest
      end
  end.

Definition complexityOf (block : ExtractedBlock.t) : Z :=
  let code := ExtractedBlock.code block in
  let lineCount := ExtractedBlock.lineCount block in
  let complexity := 0 in
  let complexity :=
    if 20 <? lineCount then complexity + 2
    else if 10 <? lineCount then complexity + 1
    else complexity in
  let maxDepth := nestingLoop code 0 0 in
  let complexity :=
    if 4 <? maxDepth then complexity + 2
    else if 2 <? maxDepth then complexity + 1
    else complexity in
  let complexity :=
    if includes code "<" && includes code ">" then complexity + 1
    else complexity in
  let complexity :=
    if includes code "async" || includes code "await" then complexity + 1
    else complexity in
  let complexity :=
    if bool_decide (ExtractedBlock.type block = TFunction) then
      let calls := matchCount (ExtractedBlock.name block +:+ "(") None 0 code in
      if (1 <? calls)%nat then complexity + 2 else complexity
    else complexity in
  complexity.

Definition estimateDifficulty (block : ExtractedBlock.t) : Z :=
  let complexity := complexityOf block in
  if 4 <=? complexity then 3
  else if 2 <=? complexity then 2
  else 1.

Definition generateExplanation (block : ExtractedBlock.t) : string :=
  match ExtractedBlock.jsDoc block with
  | Some (String _ _ as doc) => doc
  | _ =>
      let dir :=
        String.concat "/" (removelast (split "/" (ExtractedBlock.filePath block))) in
      let dirHint :=
        match dir with EmptyString => "" | _ => " in " +:+ dir end in
      match ExtractedBlock.type block with
      | TFunction =>
          "Exported function" +:+ dirHint
          +:+ ". Read the code to understand what "
          +:+ ExtractedBlock.name block +:+ " does and when you'd use it."
      | TType =>
          "Type definition" +:+ dirHint +:+ ". Defines the shape of "
          +:+ ExtractedBlock.name block
          +:+ " — study the fields and their constraints."
      | TConcept =>
          "Class" +:+ dirHint +:+ ". Encapsulates "
          +:+ ExtractedBlock.name block
          +:+ " — look at the methods and how state is managed."
      | TPattern =>
          "Pattern" +:+ dirHint
          +:+ ". A reusable approach to a recurring problem."
      | TFile =>
          "Key file" +:+ dirHint
          +:+ ". Read through to understand the module's responsibilities."
      end
  end.

Definition MAX_CARDS : nat := 50.

(** [blocks.slice(0, maxCards).map((block, i) => ...)] *)
Definition generateCards (blocks : list ExtractedBlock.t) (maxCards : nat)
    : list CodeCard.t :=
  imap (λ i block,
          CodeCard.mk
            ("gen-" +:+ pretty i +:+ "-" +:+ ExtractedBlock.name block)
            (blockTypeToCardType (ExtractedBlock.type block))
            (ExtractedBlock.name block)
            (ExtractedBlock.filePath block)
            (ExtractedBlock.code block)
            (ExtractedBlock.language block)
            (generateExplanation block)
            (estimateDifficulty block))
       (take maxCards blocks).

(** ** Specification-level notions for the difficulty estimate *)

(** Opening minus closing braces of a text, strings not skipped. *)
Fixpoint netDepth (text : string) : Z :=
  match text with
  | EmptyString => 0
  | String c rest =>
      (if bool_decide (c = braceOpen) then 1 else 0)
      - (if bool_decide (c = braceClose) then 1 else 0) + netDepth rest
  end.

(** All prefixes of a text, the empty one first. *)
Fixpoint prefixesOf (text : string) : list string :=
  EmptyString ::
  match text with
  | EmptyString => []
  | String c rest => map (String c) (prefixesOf rest)
  end.

(** The deepest nesting any prefix of the code reaches. *)
Definition maxRunningDepth (code : string) : Z :=
  foldr Z.max 0 (map netDepth (prefixesOf code)).

(** A non-empty run of word characters. *)
Fixpoint allWordChars (s : string) : bool :=
  match s with
  | EmptyString => true
  | String c rest => isWordChar c && allWordChars rest
  end.

Definition isIdentifier (s : string) : bool :=
  match s with
  | EmptyString => false
  | _ => allWordChars s
  end.

(** Number of places in [code] where [name] starts at an identifier
    boundary and is directly followed by an opening parenthesis: the
    matches of the source's [\bname\(], which it looks for in the whole
    code of the block, the declaration header included. *)
Fixpoint callSitesFrom (pattern : string) (prev : option ascii) (code : string)
    : nat :=
  (if wordBoundary prev (headChar code) && String.prefix pattern code
   then 1 else 0)
  + match code with
    | EmptyString => 0
    | String c rest => callSitesFrom pattern (Some c) rest
    end.

Definition callSites (name code : string) : nat :=
  callSitesFrom (name +:+ "(") None code.

Definition asyncMarker (code : string) : Prop :=
  includes code "async" = true ∨ includes code "await" = true.

(** The complexity score in closed form, term by term. As in the source,
    the last term counts the call sites over the whole code of the
    block. *)
Definition specComplexity (b : ExtractedBlock.t) : Z :=
  let code := ExtractedBlock.code b in
  let n := ExtractedBlock.lineCount b in
  (if decide (20 < n) then 2 else if decide (10 < n) then 1 else 0)
  + (if decide (4 < maxRunningDepth code) then 2
     else if decide (2 < maxRunningDepth code) then 1 else 0)
  + (if decide (includes code "<" = true ∧ includes code ">" = true) then 1 else 0)
  + (if decide (asyncMarker code) then 1 else 0)
  + (if decide (ExtractedBlock.type b = TFunction
                ∧ (1 < callSites (ExtractedBlock.name b) code)%nat)
     then 2 else 0).

Definition specTier (complexity : Z) : Z :=
  if decide (4 ≤ complexity) then 3
  else if decide (2 ≤ complexity) then 2
  else 1.

(** The body of a declaration: its text from the first opening brace on,
    without the header that names it. *)
Fixpoint bodyOf (code : string) : string :=
  match code with
  | EmptyString => EmptyString
  | String c rest => if bool_decide (c = braceOpen) then code else bodyOf rest
  end.

(** The complexity score as the specification words its last term: the
    call sites of the function's own name are counted inside its body. It
    follows the specification, not the source, with which it is compared
    on [factBlock]. *)
Definition claimedComplexity (b : ExtractedBlock.t) : Z :=
  let code := ExtractedBlock.code b in
  let n := ExtractedBlock.lineCount b in
  (if decide (20 < n) then 2 else if decide (10 < n) then 1 else 0)
  + (if decide (4 < maxRunningDepth code) then 2
     else if decide (2 < maxRunningDepth code) then 1 else 0)
  + (if decide (includes code "<" = true ∧ includes code ">" = true) then 1 else 0)
  + (if decide (asyncMarker code) then 1 else 0)
  + (if decide (ExtractedBlock.type b = TFunction
                ∧ (1 < callSites (ExtractedBlock.name b) (bodyOf code))%nat)
     then 2 else 0).

(** ** Repository listing ([lib/github.ts]) *)

Module RepoMeta.
Record t := mk {
  name : string;
  fullName : string;
  description : option string;
  stars : Z;
  language : option string;
  defaultBranch : string
}.
End RepoMeta.

Inductive EntryType := Blob | Tree.

Module TreeEntry.
Record t := mk { path : string; type : EntryType; size : option Z }.
End TreeEntry.

Definition CODE_EXTENSIONS : list string :=
  [".ts"; ".tsx"; ".js"; ".jsx"; ".py"; ".rs"; ".go"; ".swift"; ".kt"].

(** The predicate [filterCodeFiles] filters by. *)
Definition isCodeFile (entry : TreeEntry.t) : bool :=
  let path := TreeEntry.path entry in
  let ext := "." +:+ lastSegment "." path in
  if negb (bool_decide (ext ∈ CODE_EXTENSIONS)) then false
  else if includes path "__tests__" then false
  else if includes path ".test." then false
  else if includes path ".spec." then false
  else if includes path "node_modules" then false
  else if includes path ".d.ts" then false
  else if includes path "dist/" then false
  else if includes path "build/" then false
  else if match TreeEntry.size entry with
          | Some size => negb (size =? 0) && (50000 <? size)
          | None => false
          end then false
  else true.

Definition filterCodeFiles (tree : list TreeEntry.t) : list TreeEntry.t :=
  List.filter isCodeFile tree.

(** ** The ingestion pipeline ([lib/ingest.ts]) *)

Module IngestResult.
Record t := mk { meta : RepoMeta.t; cards : list CodeCard.t }.
End IngestResult.

Inductive IngestStatus :=
| PhaseParsing
| PhaseFetching (message : string)
| PhaseExtracting (message : string)
| PhaseGenerating (message : string)
| PhaseDone (result : IngestResult.t)
| PhaseError (message : string).

(** An [async] computation that reports statuses through [onStatus] and
    either throws an [Error] with a message or returns a value. *)
Definition Ingest (A : Type) : Type := list IngestStatus * (string + A).

Global Instance Ingest_ret : MRet Ingest := λ A a, ([], inr a).

Global Instance Ingest_bind : MBind Ingest := λ A B f m,
  match m with
  | (log, inl e) => (log, inl e)
  | (log, inr a) => let '(log', r) := f a in (log ++ log', r)
  end.

Definition onStatus (s : IngestStatus) : Ingest unit := ([s], inr tt).
Definition throwError {A : Type} (message : string) : Ingest A := ([], inl message).
(** [await] of a promise that rejects with a message or resolves. *)
Definition await {A : Type} (outcome : string + A) : Ingest A := ([], outcome).

Section Ingest.
(** The collaborators: the input parser and the network. *)
Variable parseRepoInput : string → option (string * string).
Variable fetchRepo : string → string → string + RepoMeta.t.
Variable fetchTree : string → string → string → string + list TreeEntry.t.
Variable fetchFiles : string → string → list string → list FileContent.t.
Variable extractTS : string → FileContent.t → Language → list ExtractedBlock.t.
Variable extractPython : string → FileContent.t → list ExtractedBlock.t.
Variable extractRust : string → FileContent.t → list ExtractedBlock.t.
Variable extractGo : string → FileContent.t → list ExtractedBlock.t.
Variable extractSwift : string → FileContent.t → list ExtractedBlock.t.

Definition ingestRepo (input : string) : Ingest IngestResult.t :=
  onStatus PhaseParsing;;
  match parseRepoInput input with
  | None => throwError "Invalid repo format. Use owner/repo or a GitHub URL."
  | Some (owner, repo) =>
      onStatus (PhaseFetching ("Loading " +:+ owner +:+ "/" +:+ repo +:+ "..."));;
      meta ← await (fetchRepo owner repo);
      onStatus (PhaseFetching "Scanning file tree...");;
      tree ← await (fetchTree owner repo (RepoMeta.defaultBranch meta));
      let codeFiles := filterCodeFiles tree in
      if bool_decide (length codeFiles = 0%nat)
      then throwError "No supported code files found in this repo."
      else
        onStatus (PhaseFetching
          ("Reading " +:+ pretty (length codeFiles `min` 40)%nat +:+ " files..."));;
        let files := fetchFiles owner repo (map TreeEntry.path codeFiles) in
        onStatus (PhaseExtracting "Finding interesting code...");;
        let allBlocks :=
          flat_map
            (extractBlocks extractTS extractPython extractRust extractGo extractSwift)
            files in
        let ranked := rankBlocks allBlocks in
        if bool_decide (length ranked = 0%nat)
        then throwError "Couldn't extract any learnable code blocks."
        else
          onStatus (PhaseGenerating
            ("Creating " +:+ pretty (length ranked `min` 50)%nat +:+ " cards..."));;
          let cards := generateCards ranked MAX_CARDS in
          let result := IngestResult.mk meta cards in
          onStatus (PhaseDone result);;
          mret result
  end.

(** The ranked blocks [ingestRepo] computes from a file tree: step 5 of the
    pipeline on its own. *)
Definition rankedBlocksOf (owner repo : string) (tree : list TreeEntry.t)
    : list ExtractedBlock.t :=
  rankBlocks
    (flat_map
       (extractBlocks extractTS extractPython extractRust extractGo extractSwift)
       (fetchFiles owner repo (map TreeEntry.path (filterCodeFiles tree)))).
End Ingest.

(** ** Sample values for concrete runs *)

(** A card with the given id, for concrete runs. *)
Definition demoCard (id : string) : CodeCard.t :=
  CodeCard.mk id TFunction id "src/a.ts" "" "typescript" "" 1.

(** A small review-state mapping for concrete runs: card [b] seen once. *)
Definition demoProgress : gmap string CardProgress.t :=
  <["b" := CardProgress.mk "b" 1 false 5]> ∅.

(** Extractors that find no declaration, and sample files, for concrete runs. *)
Definition noTS (_ : string) (_ : FileContent.t) (_ : Language)
    : list ExtractedBlock.t := [].
Definition noBlocks (_ : string) (_ : FileContent.t) : list ExtractedBlock.t := [].

Definition demoNotes : FileContent.t :=
  FileContent.mk "src/util/notes.ts" (String newline "const x = 1;" +:+ String newline "").

(** A text of [n] empty lines followed by [last]. *)
Fixpoint linesThen (n : nat) (last : string) : string :=
  match n with
  | O => last
  | S k => String newline (linesThen k last)
  end.

Definition demoLong : FileContent.t :=
  FileContent.mk "docs/long.ts" (linesThen 40 "const x = 1;").

(** The function block of a recursive factorial, for concrete runs. *)
Definition factBlock : ExtractedBlock.t :=
  ExtractedBlock.mk "fact" TFunction
    "export function fact(n) { return n <= 1 ? 1 : n * fact(n - 1) }"
    "src/math.ts" "typescript" None 1.

(** Collaborators for concrete runs: one repository with one source file. *)
Definition demoParse (input : string) : option (string * string) :=
  if String.eqb input "demo/math" then Some ("demo", "math") else None.
Definition demoMeta : RepoMeta.t :=
  RepoMeta.mk "math" "demo/math" None 0 None "main".
Definition demoFetchRepo (_ _ : string) : string + RepoMeta.t := inr demoMeta.
Definition demoFetchTree (_ _ _ : string) : string + list TreeEntry.t :=
  inr [TreeEntry.mk "src/math.ts" Blob (Some 64); TreeEntry.mk "README.md" Blob None].
Definition demoFetchDocsTree (_ _ _ : string) : string + list TreeEntry.t :=
  inr [TreeEntry.mk "README.md" Blob None].
Definition demoFetchFiles (_ _ : string) (paths : list string) : list FileContent.t :=
  map (λ p, FileContent.mk p "export function fact(n) { return n <= 1 ? 1 : n * fact(n - 1) }") paths.
Definition demoTS (_ : string) (_ : FileContent.t) (_ : Language)
    : list ExtractedBlock.t := [factBlock].

(** ** The rest of the deck hook and of [lib/repetition.ts] *)

(** [getSeenDots]: the three progress dots of a card. *)
Definition getSeenDots (progress : option CardProgress.t) : bool * bool * bool :=
  match progress with
  | None => (false, false, false)
  | Some p =>
      let s := CardProgress.seen p in
      (1 <=? s, 2 <=? s, 3 <=? s)
  end.

(** [Object.values(progress).filter((p) => p.mastered).length]; the order
    in which the values are listed has no bearing on the count. *)
Definition masteredCount (progress : gmap string CardProgress.t) : nat :=
  length (List.filter CardProgress.mastered (map snd (map_to_list progress))).

(** [mastered >= total && total > 0] *)
Definition allMastered (cards : list CodeCard.t) (st : DeckState) : bool :=
  (length cards <=? masteredCount (progress st))%nat && (0 <? length cards)%nat.

(** [queue[1] ?? null] *)
Definition nextCard (cards : list CodeCard.t) (st : DeckState)
    : option CodeCard.t :=
  buildQueue cards (progress st) (lastSwipedId st) !! 1%nat.

(** [restart]: clears the mapping and the last swiped id; the celebration
    state is left alone. *)
Definition restart (st : DeckState) : DeckState :=
  mkDeck ∅ None (justMasteredCard st).

Definition clearJustMastered (st : DeckState) : DeckState :=
  mkDeck (progress st) (lastSwipedId st) None.

(** Everything the hook's callbacks let a user do. *)
Inductive DeckEvent :=
| Act (a : Action)
| Restart
| ClearJustMastered.

Definition deckEvent (cards : list CodeCard.t) (st : DeckState) (e : DeckEvent)
    : DeckState :=
  match e with
  | Act a => deckStep cards st a
  | Restart => restart st
  | ClearJustMastered => clearJustMastered st
  end.

(** The deck after a list of events, starting without any review state. *)
Definition runEvents (cards : list CodeCard.t) (events : list DeckEvent)
    : DeckState :=
  foldl (deckEvent cards) initialDeck events.

(** What holds of every deck state the hook can reach: entries are filed
    under the id they carry, belong to a card of the deck, count from zero
    and satisfy the mastery invariant; the last swiped id and the
    celebrated card belong to the deck. *)
Record DeckWf (cards : list CodeCard.t) (st : DeckState) : Prop := mkDeckWf {
  wf_entries : ∀ id p, progress st !! id = Some p →
    CardProgress.cardId p = id ∧ 0 ≤ CardProgress.seen p ∧
    masteryInvariant p ∧ ∃ c, In c cards ∧ CodeCard.id c = id;
  wf_lastSwiped : ∀ id, lastSwipedId st = Some id →
    ∃ c, In c cards ∧ CodeCard.id c = id;
  wf_justMastered : ∀ c, justMasteredCard st = Some c → In c cards
}.

(** The card has an entry and the entry says mastered. *)
Definition isMasteredIn (progress : gmap string CardProgress.t)
    (c : CodeCard.t) : Prop :=
  ∃ p, progress !! CodeCard.id c = Some p ∧ CardProgress.mastered p = true.

(** The ids whose entry says mastered. *)
Definition masteredIds (progress : gmap string CardProgress.t) : gset string :=
  dom (filter (λ kv, CardProgress.mastered kv.2 = true) progress).

(** ** The indentation matcher ([lib/extract.ts]) *)

(** [s.slice(n)] *)
Fixpoint dropStr (n : nat) (s : string) : string :=
  match n, s with
  | O, _ => s
  | S k, String _ rest => dropStr k rest
  | S _, EmptyString => EmptyString
  end.

(** The length of what the regular expression for leading white space
    captures in [line]: the width of the line's indentation. *)
Fixpoint leadingSpaces (line : string) : nat :=
  match line with
  | String c rest => if isSpace c then S (leadingSpaces rest) else 0
  | EmptyString => 0
  end.

(** The [for] loop of [extractIndentBlock] over the lines after the first:
    the lines it pushes before it breaks or runs out. *)
Fixpoint indentLoop (baseIndent : nat) (lines : list string) : list string :=
  match lines with
  | [] => []
  | line :: rest =>
      if String.eqb (trim line) EmptyString then line :: indentLoop baseIndent rest
      else if (leadingSpaces line <? baseIndent)%nat then []
      else line :: indentLoop baseIndent rest
  end.

Definition extractIndentBlock (source : string) (startIdx : nat) : option string :=
  let lines := split newline (dropStr startIdx source) in
  match lines with
  | first :: second :: others =>
      let baseIndent := leadingSpaces second in
      if (baseIndent =? 0)%nat then Some first
      else
        Some (trimEnd
                (String.concat (String newline EmptyString)
                   (first :: indentLoop baseIndent (second :: others))))
  | _ => None
  end.

(** [text] begins with [block]. *)
Definition startsWith (text block : string) : Prop :=
  ∃ rest, text = block +:+ rest.

(** A Python text for concrete runs: a two-line function, then a top-level
    statement. *)
Definition demoPy : string :=
  "def f():" +:+ String newline "  return 1" +:+ String newline "x = 2".

(** ** Specification-level notions for card identifiers *)

Definition isDigit (c : ascii) : bool :=
  let n := nat_of_ascii c in ((48 <=? n) && (n <=? 57))%nat.

(** A run of decimal digits. *)
Fixpoint allDigits (s : string) : bool :=
  match s with
  | EmptyString => true
  | String c rest => isDigit c && allDigits rest
  end.

(** ** Fetching file contents ([lib/github.ts]) *)

Section FetchFiles.
(** The outcome of the request for one path of the repository: the decoded
    text, or [None] where the callback returns [null] (the response is not
    ok, the encoding is not base64, or something throws). *)
Variable fetchContent : string → option string.

(** The callback [fetchFiles] maps over a batch. *)
Definition fetchOne (path : string) : option FileContent.t :=
  FileContent.mk path <$> fetchContent path.

(** The [for] loop of [fetchFiles]: [i] advances by 8, each batch is
    [selected.slice(i, i + 8)], and the files of the batch that are not
    [null] are pushed onto [results] in the order of the batch. *)
Equations? fetchLoop (selected : list string) (i : nat)
    (results : list FileContent.t) : list FileContent.t
    by wf (length selected - i)%nat lt :=
fetchLoop selected i results with decide (i < length selected)%nat := {
  | left _ =>
      let batch := take 8 (drop i selected) in
      let fetched := map fetchOne batch in
      fetchLoop selected (i + 8) (results ++ omap id fetched);
  | right _ => results }.
Proof. lia. Qed.

Definition fetchFiles (paths : list string) (maxFiles : nat)
    : list FileContent.t :=
  let selected := take maxFiles paths in
  fetchLoop selected 0 [].
End FetchFiles.

(** The default of [maxFiles]. *)
Definition MAX_FILES : nat := 40.

(** ** The counts the feed screen shows ([app/feed.tsx]) *)

(** [Object.keys(deck.progress).length], the [seen] count of the header. *)
Definition seenCount (progress : gmap string CardProgress.t) : nat :=
  size progress.

(** ** Parsing the repository input ([lib/github.ts]) *)

Definition slash : ascii := "/"%char.

(** [s.replace(/\/+$/, "")]: the text without the slashes it ends with. *)
Fixpoint dropTrailingSlashes (s : string) : string :=
  match s with
  | EmptyString => EmptyString
  | String c rest =>
      match dropTrailingSlashes rest with
      | EmptyString =>
          if bool_decide (c = slash) then EmptyString else String c EmptyString
      | kept => String c kept
      end
  end.

(** The longest prefix without a slash, which is what a greedy [[^/]+]
    captures when it matches at the start of [s], and the text after it. *)
Fixpoint spanSegment (s : string) : string * string :=
  match s with
  | EmptyString => (EmptyString, EmptyString)
  | String c rest =>
      if bool_decide (c = slash) then (EmptyString, s)
      else let '(seg, tail) := spanSegment rest in (String c seg, tail)
  end.

(** [([^/]+)\/([^/]+)] matched at the start of [s]: a segment that is not
    empty, a slash, and a second segment that is not empty. *)
Definition ownerRepoAt (s : string) : option (string * string) :=
  match spanSegment s with
  | (String _ _ as owner, String _ afterSlash) =>
      match spanSegment afterSlash with
      | (String _ _ as repo, _) => Some (owner, repo)
      | _ => None
      end
  | _ => None
  end.

(** The captures of the URL pattern, an optional scheme, the host
    [github.com], a slash and [([^/]+)\/([^/]+)], matched anywhere in [s].
    The scheme captures nothing and no two occurrences of the host text
    overlap, so the leftmost match takes its captures at the first
    occurrence of the host text that an owner and a repository segment
    follow. *)
Fixpoint urlMatch (s : string) : option (string * string) :=
  let here :=
    if String.prefix "github.com/" s then ownerRepoAt (dropStr 11 s) else None in
  match here with
  | Some captures => Some captures
  | None =>
      match s with
      | EmptyString => None
      | String _ rest => urlMatch rest
      end
  end.

(** A text [[^/\s]+] matches as a whole. *)
Fixpoint noSlashOrSpace (s : string) : bool :=
  match s with
  | EmptyString => true
  | String c rest =>
      negb (bool_decide (c = slash)) && negb (isSpace c) && noSlashOrSpace rest
  end.

Definition isShortSegment (s : string) : bool :=
  match s with
  | EmptyString => false
  | _ => noSlashOrSpace s
  end.

(** The captures of the short pattern, anchored at both ends: the whole
    text is two segments free of slashes and white space, with one slash
    between them. *)
Definition shortMatch (s : string) : option (string * string) :=
  match split slash s with
  | [owner; repo] =>
      if isShortSegment owner && isShortSegment repo then Some (owner, repo)
      else None
  | _ => None
  end.

Definition parseRepoInput (input : string) : option (string * string) :=
  let trimmed := dropTrailingSlashes (trim input) in
  match urlMatch trimmed with
  | Some captures => Some captures
  | None => shortMatch trimmed
  end.

(** ** Specification-level notions for the input parser *)

(** How often the character occurs in the text. *)
Fixpoint occurrences (c : ascii) (s : string) : nat :=
  match s with
  | EmptyString => 0
  | String x rest => (if bool_decide (x = c) then 1 else 0) + occurrences c rest
  end.

(** A path segment: not empty, no slash. *)
Definition isSegment (s : string) : Prop :=
  s ≠ EmptyString ∧ occurrences slash s = 0%nat.

(** ** Syntax highlighting ([lib/syntax.tsx]) *)

Inductive TokenType :=
| TkKeyword | TkString | TkComment | TkNumber | TkType | TkBoolean
| TkPunctuation | TkPlain.

Record Token := mkToken { tokenType : TokenType; tokenValue : string }.

(** [s.slice(0, n)] *)
Fixpoint takeStr (n : nat) (s : string) : string :=
  match n, s with
  | S k, String c rest => String c (takeStr k rest)
  | _, _ => EmptyString
  end.

Section Tokenize.
(** The rule table. A rule is a token type and a regular expression, which
    [tokenize] anchors at the start of the remaining text: what matters of
    it is the length of [match[0]] there, or [None] when it does not
    match. *)
Variable RULES : list (TokenType * (string → option nat)).

(** The [for] loop over the rules: the first rule that matches wins. *)
Fixpoint firstMatch (rules : list (TokenType * (string → option nat)))
    (remaining : string) : option (TokenType * nat) :=
  match rules with
  | [] => None
  | (type, regex) :: rest =>
      match regex remaining with
      | Some n => Some (type, n)
      | None => firstMatch rest remaining
      end
  end.

(** The branch for a character no rule matches: it is added to the last
    token when that one is plain, and is a new plain token otherwise. *)
Definition pushPlain (tokens : list Token) (ch : ascii) : list Token :=
  match last tokens with
  | Some (mkToken TkPlain value) =>
      removelast tokens ++ [mkToken TkPlain (value +:+ String ch EmptyString)]
  | _ => tokens ++ [mkToken TkPlain (String ch EmptyString)]
  end.

(** The [while] loop of [tokenize]. Every round takes one unit of [fuel];
    [None] stands for a loop that has not come to its end within the fuel
    given, which is what a rule matching the empty text would cause. *)
Fixpoint tokenizeLoop (fuel : nat) (remaining : string) (tokens : list Token)
    : option (list Token) :=
  match remaining with
  | EmptyString => Some tokens
  | String ch rest =>
      match fuel with
      | O => None
      | S fuel' =>
          match firstMatch RULES remaining with
          | Some (type, n) =>
              tokenizeLoop fuel' (dropStr n remaining)
                (tokens ++ [mkToken type (takeStr n remaining)])
          | None => tokenizeLoop fuel' rest (pushPlain tokens ch)
          end
      end
  end.

(** One round per character is enough when no rule matches the empty
    text. *)
Definition tokenize (code : string) : option (list Token) :=
  tokenizeLoop (String.length code) code [].
End Tokenize.

(** The text [SyntaxHighlight] shows: the token values one after the
    other. *)
Fixpoint rendered (tokens : list Token) : string :=
  match tokens with
  | [] => EmptyString
  | token :: rest => tokenValue token +:+ rendered rest
  end.

(** A rule for concrete runs: a run of digits is a number. *)
Fixpoint digitRun (s : string) : nat :=
  match s with
  | String c rest => if isDigit c then S (digitRun rest) else 0
  | EmptyString => 0
  end.

Definition demoRules : list (TokenType * (string → option nat)) :=
  [(TkNumber, λ s, match digitRun s with O => None | n => Some n end)].

(** ** Recent repositories ([lib/recent.ts]) *)

Module RecentRepo.
Record t := mk {
  owner : string;
  repo : string;
  fullName : string;
  description : string;
  stars : Z;
  cardCount : Z;
  lastVisited : Z
}.
End RecentRepo.

(** [const MAX = 8] *)
Definition MAX_RECENT : nat := 8.

(** What the storage holds under the key of the list, as the list the
    stored text parses to: [None] when there is no item, or when reading
    or parsing it throws. *)
Definition RecentStore : Type := option (list RecentRepo.t).

Definition getRecent (stored : RecentStore) : list RecentRepo.t :=
  match stored with
  | Some list => list
  | None => []
  end.

(** [{ ...entry, lastVisited: Date.now() }] *)
Definition visitedAt (entry : RecentRepo.t) (now : Z) : RecentRepo.t :=
  RecentRepo.mk (RecentRepo.owner entry) (RecentRepo.repo entry)
    (RecentRepo.fullName entry) (RecentRepo.description entry)
    (RecentRepo.stars entry) (RecentRepo.cardCount entry) now.

(** [addRecent], with the clock reading it observes; the result is what
    the storage holds once the write has gone through. *)
Definition addRecent (entry : RecentRepo.t) (now : Z) (stored : RecentStore)
    : RecentStore :=
  let list := getRecent stored in
  let filtered :=
    List.filter
      (λ r, negb (String.eqb (RecentRepo.fullName r) (RecentRepo.fullName entry)))
      list in
  let updated := take MAX_RECENT (visitedAt entry now :: filtered) in
  Some updated.

(** The storage after a series of visits, starting without an item. *)
Definition recentAfter (visits : list (RecentRepo.t * Z)) : RecentStore :=
  foldl (λ stored visit, addRecent visit.1 visit.2 stored) None visits.

(** A repository entry for concrete runs. *)
Definition demoRepo (fullName : string) : RecentRepo.t :=
  RecentRepo.mk "demo" fullName fullName "" 0 1 0.

(** ** The Python extractor ([lib/extract.ts]) *)

(** One match of a global regular expression over the source, as [exec]
    reports it: where it starts, the length of [match[0]], and the name it
    captures. *)
Record RegexMatch := mkMatch {
  matchIndex : nat;
  matchLength : nat;
  matchName : string
}.

(** [s.indexOf(c, from)] for a one-character [c]; [None] stands for -1. *)
Fixpoint indexOfFrom (c : ascii) (from : nat) (s : string) : option nat :=
  match s with
  | EmptyString => None
  | String x rest =>
      match from with
      | O => if bool_decide (x = c) then Some 0%nat
             else S <$> indexOfFrom c 0 rest
      | S k => S <$> indexOfFrom c k rest
      end
  end.

(** The index of the first occurrence of [sub] in [s]. *)
Fixpoint findSub (sub s : string) : option nat :=
  if String.prefix sub s then Some 0%nat
  else match s with
       | EmptyString => None
       | String _ rest => S <$> findSub sub rest
       end.

(** Three double quotes. *)
Definition tripleQuote : string :=
  String quoteDouble (String quoteDouble (String quoteDouble EmptyString)).

(** [findPyDocstring]: the pattern is anchored at the start of the 500
    characters after [defEnd]; it skips white space, wants three double
    quotes, and captures up to the first three double quotes that follow. *)
Definition findPyDocstring (source : string) (defEnd : nat) : option string :=
  let after := takeStr 500 (dropStr defEnd source) in
  let opened := trimStart after in
  if String.prefix tripleQuote opened then
    let body := dropStr 3 opened in
    match findSub tripleQuote body with
    | Some k => Some (trim (takeStr k body))
    | None => None
    end
  else None.

(** [name.startsWith("_") && name !== "__init__"] *)
Definition isPrivateName (name : string) : bool :=
  String.prefix "_" name && negb (String.eqb name "__init__").

(** The body both loops of [extractPython] share, from the call of
    [extractIndentBlock] on: [None] where the loop continues without a
    push, the block it pushes otherwise. *)
Definition pythonBlock (src : string) (file : FileContent.t) (type : BlockType)
    (limit : Z) (m : RegexMatch) : option ExtractedBlock.t :=
  match extractIndentBlock src (matchIndex m) with
  | Some (String _ _ as block) =>
      if limit <? lineCountOf block then None
      else
        let colonIdx := indexOfFrom ":" (matchIndex m + matchLength m) src in
        let docstring :=
          match colonIdx with
          | Some i => findPyDocstring src (i + 1)
          | None => None
          end in
        Some (ExtractedBlock.mk (matchName m) type block (FileContent.path file)
                "python" docstring (lineCountOf block))
  | _ => None
  end.

(** [extractPython], given the matches of its two patterns in the source
    in the order [exec] finds them: first the [def] loop, which skips
    private names, then the [class] loop. *)
Definition extractPythonFrom (defMatches classMatches : list RegexMatch)
    (src : string) (file : FileContent.t) : list ExtractedBlock.t :=
  omap (λ m, if isPrivateName (matchName m) then None
             else pythonBlock src file TFunction 40 m) defMatches
  ++ omap (pythonBlock src file TConcept 50) classMatches.

(** A Python file for concrete runs, and the one match of the [def]
    pattern in it. *)
Definition demoPyFile : FileContent.t := FileContent.mk "pkg/f.py" demoPy.
Definition demoPyMatch : RegexMatch := mkMatch 0 7 "f".

(** ** Specification-level notions for a session of confirms *)

(** The entry of a card confirmed [q] times in a row, last at [t]. *)
Definition confirmedEntry (c : CodeCard.t) (q : nat) (t : Z) : CardProgress.t :=
  CardProgress.mk (CodeCard.id c) (Z.of_nat q) (3 <=? Z.of_nat q) t.

(** The card has been confirmed [q] times in a row, and nothing else. *)
Definition hasConfirms (progress : gmap string CardProgress.t) (q : nat)
    (c : CodeCard.t) : Prop :=
  match q with
  | O => progress !! CodeCard.id c = None
  | S _ => ∃ t, progress !! CodeCard.id c = Some (confirmedEntry c q t)
  end.

(** Where a round of confirms stands: the cards of [done] have [q + 1]
    confirms, those of [todo] have [q]; the cards that have an entry were
    last seen in the order [todo], then [done]; and the card swiped last is
    the last of [done], or the last of the round before. *)
Record RoundState (q : nat) (done todo : list CodeCard.t) (st : DeckState)
    : Prop := mkRound {
  rs_done : Forall (hasConfirms (progress st) (S q)) done;
  rs_todo : Forall (hasConfirms (progress st) q) todo;
  rs_order :
    StronglySorted
      (λ a b, lastSeenOf (progress st) a < lastSeenOf (progress st) b)
      (match q with O => done | S _ => todo ++ done end);
  rs_last :
    lastSwipedId st =
    match last done, q with
    | Some c, _ => Some (CodeCard.id c)
    | None, O => None
    | None, S _ => CodeCard.id <$> last todo
    end
}.

(** No entry of a card of the deck was last seen after [lo]. *)
Definition seenBy (cards : list CodeCard.t)
    (progress : gmap string CardProgress.t) (lo : Z) : Prop :=
  ∀ c p, In c cards → progress !! CodeCard.id c = Some p →
         CardProgress.lastSeen p ≤ lo.

(** [Object.values(deck.progress).reduce((a, p) => a + p.seen, 0)], the
    [index] the feed screen hands to the card stack ([app/feed.tsx]). *)
Definition swipeIndex (progress : gmap string CardProgress.t) : Z :=
  foldl (λ a p, a + CardProgress.seen p) 0 (map snd (map_to_list progress)).

(** ** Specification-level notions for counting confirms *)

Definition isConfirm (e : DeckEvent) : bool :=
  match e with
  | Act (Confirm _) => true
  | _ => false
  end.

(** How many of the events are confirms. *)
Definition confirmCount (events : list DeckEvent) : Z :=
  Z.of_nat (length (List.filter isConfirm events)).

(** The sum of the counts of a list of entries. *)
Definition sumSeen (entries : list CardProgress.t) : Z :=
  foldr (λ p a, CardProgress.seen p + a) 0 entries.

(** ** What a run of the deck hook shows *)

(** Whether a step of the hook calls [setJustMasteredCard]: once the
    celebration has been dismissed ([clearJustMastered]), the step leaves a
    card to celebrate exactly when it makes that call. *)
Definition emitsSignal (cards : list CodeCard.t) (st : DeckState) (a : Action)
    : bool :=
  match justMasteredCard (deckStep cards (clearJustMastered st) a) with
  | Some _ => true
  | None => false
  end.

(** The log of a run of the hook: for every action that found a current
    card, the id of that card, the action, and whether the step emitted
    the mastery signal. *)
Fixpoint deckLog (cards : list CodeCard.t) (st : DeckState) (acts : list Action)
    : list (string * Action * bool) :=
  match acts with
  | [] => []
  | a :: rest =>
      match currentCard cards st with
      | Some card => [(CodeCard.id card, a, emitsSignal cards st a)]
      | None => []
      end ++ deckLog cards (deckStep cards st a) rest
  end.

(** The part of a log that is about one card. *)
Definition logOf (id : string) (log : list (string * Action * bool))
    : list (string * Action * bool) :=
  List.filter (λ e, String.eqb e.1.1 id) log.

(** The actions that acted on the card, in order. *)
Definition actionsOn (id : string) (log : list (string * Action * bool))
    : list Action :=
  map (λ e, e.1.2) (logOf id log).

(** Whether each of them emitted the mastery signal. *)
Definition signalsOn (id : string) (log : list (string * Action * bool))
    : list bool :=
  map snd (logOf id log).

(* ================================================================== *)
(** * Part II: properties *)
(* ================================================================== *)

(** ** The review-state reducer *)

Lemma swipeRightUpdater_lookup id now prev :
  (swipeRightUpdater id now prev).1 !! id =
  Some (CardProgress.mk id (seenOr0 prev id + 1) (3 <=? seenOr0 prev id + 1) now).
Proof. unfold swipeRightUpdater; cbn. apply lookup_insert_eq. Qed.

Lemma swipeRightUpdater_other id id' now prev :
  id ≠ id' → (swipeRightUpdater id now prev).1 !! id' = prev !! id'.
Proof. intros Hne. unfold swipeRightUpdater; cbn. by apply lookup_insert_ne. Qed.

Lemma swipeRightUpdater_signal id now prev :
  (swipeRightUpdater id now prev).2 =
  (3 <=? seenOr0 prev id + 1) && negb (wasMasteredOf prev id).
Proof. reflexivity. Qed.

Lemma swipeLeftUpdater_lookup id now prev :
  swipeLeftUpdater id now prev !! id = Some (CardProgress.mk id 0 false now).
Proof. apply lookup_insert_eq. Qed.

Lemma swipeLeftUpdater_other id id' now prev :
  id ≠ id' → swipeLeftUpdater id now prev !! id' = prev !! id'.
Proof. intros Hne. by apply lookup_insert_ne. Qed.

Lemma seenOr0_swipeRight id now prev :
  seenOr0 (swipeRightUpdater id now prev).1 id = seenOr0 prev id + 1.
Proof. unfold seenOr0 at 1. by rewrite swipeRightUpdater_lookup. Qed.

Lemma wasMasteredOf_swipeRight id now prev :
  wasMasteredOf (swipeRightUpdater id now prev).1 id = (3 <=? seenOr0 prev id + 1).
Proof. unfold wasMasteredOf at 1. by rewrite swipeRightUpdater_lookup. Qed.

Lemma seenOr0_swipeLeft id now prev : seenOr0 (swipeLeftUpdater id now prev) id = 0.
Proof. unfold seenOr0. by rewrite swipeLeftUpdater_lookup. Qed.

Lemma wasMasteredOf_swipeLeft id now prev :
  wasMasteredOf (swipeLeftUpdater id now prev) id = false.
Proof. unfold wasMasteredOf. by rewrite swipeLeftUpdater_lookup. Qed.

Lemma reviewTrace_cons id a acts prev :
  reviewTrace id (a :: acts) prev =
  ((reviewTrace id acts (applyReview id a prev).1).1,
   (applyReview id a prev).2 :: (reviewTrace id acts (applyReview id a prev).1).2).
Proof.
  cbn [reviewTrace]. destruct (applyReview id a prev) as [next sig]; cbn.
  by destruct (reviewTrace id acts next).
Qed.

Lemma reviewTrace_app id acts1 acts2 prev :
  reviewTrace id (acts1 ++ acts2) prev =
  ((reviewTrace id acts2 (reviewTrace id acts1 prev).1).1,
   (reviewTrace id acts1 prev).2 ++ (reviewTrace id acts2 (reviewTrace id acts1 prev).1).2).
Proof.
  revert prev; induction acts1 as [|a acts1 IH]; intros prev.
  - cbn. by destruct (reviewTrace id acts2 prev).
  - rewrite <- app_comm_cons, !reviewTrace_cons, IH. reflexivity.
Qed.

(** The per-card counters after a run of actions, for a card that starts
    with count [n] and flag [m]. *)
Ltac trace_step :=
  rewrite ?reviewTrace_cons; cbn [applyReview reviewTrace fst snd];
  rewrite ?swipeRightUpdater_signal, ?swipeRightUpdater_lookup,
    ?swipeLeftUpdater_lookup, ?seenOr0_swipeRight, ?wasMasteredOf_swipeRight,
    ?seenOr0_swipeLeft, ?wasMasteredOf_swipeLeft.

(** The reducer of the specification on a card without review state:
    four confirms and a reject. *)
Lemma reviewTrace_fresh_card (id : string)
    (prev : gmap string CardProgress.t) (t1 t2 t3 t4 t5 : Z) :
  prev !! id = None →
  (reviewTrace id [Confirm t1] prev).1 !! id
    = Some (CardProgress.mk id 1 false t1) ∧
  (reviewTrace id [Confirm t1] prev).2 = [false] ∧
  (reviewTrace id [Confirm t1; Confirm t2] prev).1 !! id
    = Some (CardProgress.mk id 2 false t2) ∧
  (reviewTrace id [Confirm t1; Confirm t2] prev).2 = [false; false] ∧
  (reviewTrace id [Confirm t1; Confirm t2; Confirm t3] prev).1 !! id
    = Some (CardProgress.mk id 3 true t3) ∧
  (reviewTrace id [Confirm t1; Confirm t2; Confirm t3] prev).2
    = [false; false; true] ∧
  (reviewTrace id [Confirm t1; Confirm t2; Confirm t3; Confirm t4] prev).1 !! id
    = Some (CardProgress.mk id 4 true t4) ∧
  (reviewTrace id [Confirm t1; Confirm t2; Confirm t3; Confirm t4] prev).2
    = [false; false; true; false] ∧
  (reviewTrace id [Confirm t1; Confirm t2; Confirm t3; Confirm t4; Reject t5]
     prev).1 !! id
    = Some (CardProgress.mk id 0 false t5) ∧
  (reviewTrace id [Confirm t1; Confirm t2; Confirm t3; Confirm t4; Reject t5]
     prev).2
    = [false; false; true; false; false].
Proof.
  intros Hfresh.
  assert (Hs : seenOr0 prev id = 0) by (unfold seenOr0; by rewrite Hfresh).
  assert (Hm : wasMasteredOf prev id = false)
    by (unfold wasMasteredOf; by rewrite Hfresh).
  repeat split; repeat trace_step; rewrite ?Hs, ?Hm; reflexivity.
Qed.

Lemma progressInvariant_empty : progressInvariant ∅.
Proof. intros id p H. by rewrite lookup_empty in H. Qed.

Lemma progressInvariant_applyReview id a m :
  progressInvariant m → progressInvariant (applyReview id a m).1.
Proof.
  intros Hm id' p. destruct a as [now|now|]; cbn [applyReview fst].
  - destruct (decide (id = id')) as [<-|Hne].
    + rewrite swipeRightUpdater_lookup. intros [= <-].
      unfold masteryInvariant; cbn. apply Z.leb_le.
    + rewrite swipeRightUpdater_other by done. apply Hm.
  - destruct (decide (id = id')) as [<-|Hne].
    + rewrite swipeLeftUpdater_lookup. intros [= <-].
      unfold masteryInvariant; cbn. split; [done | lia].
    + rewrite swipeLeftUpdater_other by done. apply Hm.
  - apply Hm.
Qed.

Lemma progressInvariant_applyReviews steps m :
  progressInvariant m → progressInvariant (applyReviews steps m).
Proof.
  revert m; induction steps as [|[id a] steps IH]; intros m Hm; [done|].
  apply IH. by apply progressInvariant_applyReview.
Qed.

Lemma deckStep_progress cards st a :
  progress (deckStep cards st a) = progress st ∨
  ∃ card, currentCard cards st = Some card ∧
    progress (deckStep cards st a) = (applyReview (CodeCard.id card) a (progress st)).1.
Proof.
  destruct a as [now|now|]; cbn [deckStep];
    unfold swipeRight, swipeLeft, swipeUp;
    destruct (currentCard cards st) as [card|]; auto;
    right; exists card; (split; [done|]); cbn [applyReview]; [|done..].
  by destruct (swipeRightUpdater _ _ _).
Qed.

Lemma progressInvariant_deckStep cards st a :
  progressInvariant (progress st) →
  progressInvariant (progress (deckStep cards st a)).
Proof.
  intros Hst. destruct (deckStep_progress cards st a) as [->|(card & _ & ->)];
    [done|]. by apply progressInvariant_applyReview.
Qed.

Lemma progressInvariant_foldl cards acts st :
  progressInvariant (progress st) →
  progressInvariant (progress (foldl (deckStep cards) st acts)).
Proof.
  revert st; induction acts as [|a acts IH]; intros st Hst; [done|].
  cbn [foldl]. apply IH. by apply progressInvariant_deckStep.
Qed.

(** C3: whatever confirm, reject and skip actions the deck has gone
    through since it had no review state, every stored review state has
    [mastered] set exactly when its consecutive-confirm count is at
    least 3. *)
Theorem mastered_iff_three_confirms (cards : list CodeCard.t)
    (acts : list Action) (id : string) (p : CardProgress.t) :
  progress (runDeck cards acts) !! id = Some p →
  CardProgress.mastered p = true ↔ 3 ≤ CardProgress.seen p.
Proof.
  intros Hp.
  apply (progressInvariant_foldl cards acts initialDeck progressInvariant_empty id p Hp).
Qed.

Lemma mastered_iff_three_confirms_witness :
  CardProgress.mastered (CardProgress.mk "a" 4 true 50) = true
  ↔ 3 ≤ CardProgress.seen (CardProgress.mk "a" 4 true 50).
Proof.
  apply (mastered_iff_three_confirms [demoCard "a"; demoCard "b"]
           [Confirm 10; Confirm 20; Confirm 30; Skip; Confirm 40; Reject 45; Confirm 50]
           "a").
  vm_compute. reflexivity.
Defined.

(** The reducer of the specification on a card without review state:
    three confirms, a reject and three more confirms. *)
Lemma reviewTrace_refires (id : string)
    (prev : gmap string CardProgress.t) (t1 t2 t3 t4 t5 t6 t7 : Z) :
  prev !! id = None →
  (reviewTrace id
     [Confirm t1; Confirm t2; Confirm t3; Reject t4;
      Confirm t5; Confirm t6; Confirm t7] prev).2
    = [false; false; true; false; false; false; true] ∧
  (reviewTrace id
     [Confirm t1; Confirm t2; Confirm t3; Reject t4;
      Confirm t5; Confirm t6; Confirm t7] prev).1 !! id
    = Some (CardProgress.mk id 3 true t7).
Proof.
  intros Hfresh.
  assert (Hs : seenOr0 prev id = 0) by (unfold seenOr0; by rewrite Hfresh).
  assert (Hm : wasMasteredOf prev id = false)
    by (unfold wasMasteredOf; by rewrite Hfresh).
  split; repeat trace_step; rewrite ?Hs, ?Hm; reflexivity.
Qed.

(** ** The hook against the reducer of the specification *)

(** What the reducer does to the entry of [id] depends on that entry
    only. *)
Lemma applyReview_local id a (m m' : gmap string CardProgress.t) :
  m !! id = m' !! id →
  (applyReview id a m).1 !! id = (applyReview id a m').1 !! id ∧
  (applyReview id a m).2 = (applyReview id a m').2.
Proof.
  intros Heq. destruct a as [now|now|]; cbn [applyReview fst snd].
  - rewrite !swipeRightUpdater_signal, !swipeRightUpdater_lookup.
    unfold seenOr0, wasMasteredOf. by rewrite Heq.
  - by rewrite !swipeLeftUpdater_lookup.
  - done.
Qed.

Lemma reviewTrace_local id acts :
  ∀ m m' : gmap string CardProgress.t, m !! id = m' !! id →
  (reviewTrace id acts m).1 !! id = (reviewTrace id acts m').1 !! id ∧
  (reviewTrace id acts m).2 = (reviewTrace id acts m').2.
Proof.
  induction acts as [|a acts IH]; intros m m' Heq; [done|].
  rewrite !reviewTrace_cons. cbn [fst snd].
  destruct (applyReview_local id a m m' Heq) as [Hnext Hsig].
  destruct (IH _ _ Hnext) as [Hfinal Hsigs].
  by rewrite Hfinal, Hsig, Hsigs.
Qed.

(** A step of the hook on its current card does to the mapping what the
    reducer does for that card, and emits the signal when the reducer
    does. *)
Lemma deckStep_on_current cards st a card :
  currentCard cards st = Some card →
  progress (deckStep cards st a)
  = (applyReview (CodeCard.id card) a (progress st)).1 ∧
  emitsSignal cards st a = (applyReview (CodeCard.id card) a (progress st)).2.
Proof.
  intros Hcur.
  assert (Hclear : currentCard cards (clearJustMastered st) = Some card) by done.
  unfold emitsSignal.
  destruct a as [now|now|]; cbn [deckStep applyReview];
    unfold swipeRight, swipeLeft, swipeUp; rewrite Hcur, Hclear;
    [|done..].
  change (progress (clearJustMastered st)) with (progress st).
  by destruct (swipeRightUpdater (CodeCard.id card) now (progress st))
    as [next []].
Qed.

(** A step of the hook leaves the entries of the cards it does not act on
    alone. *)
Lemma deckStep_off_current cards st a id :
  (∀ card, currentCard cards st = Some card → CodeCard.id card ≠ id) →
  progress (deckStep cards st a) !! id = progress st !! id.
Proof.
  intros Hoff.
  destruct a as [now|now|]; cbn [deckStep];
    unfold swipeRight, swipeLeft, swipeUp;
    destruct (currentCard cards st) as [card|] eqn:Hcur; try done.
  - specialize (Hoff card eq_refl).
    destruct (swipeRightUpdater _ _ _) as [next celebrate] eqn:Hup. cbn.
    change next with (next, celebrate).1. rewrite <- Hup.
    by apply swipeRightUpdater_other.
  - cbn. by apply swipeLeftUpdater_other, Hoff.
Qed.

(** A run of the hook, seen from one card: the entry of the card and the
    signals of the steps that acted on it are those of the reducer run on
    the actions that acted on it. *)
Lemma deckLog_reviewTrace cards acts id :
  ∀ st,
  progress (foldl (deckStep cards) st acts) !! id
  = (reviewTrace id (actionsOn id (deckLog cards st acts)) (progress st)).1 !! id
  ∧ signalsOn id (deckLog cards st acts)
    = (reviewTrace id (actionsOn id (deckLog cards st acts)) (progress st)).2.
Proof.
  unfold actionsOn, signalsOn, logOf.
  induction acts as [|a acts IH]; intros st; [done|].
  cbn [foldl deckLog]. destruct (IH (deckStep cards st a)) as [IHentry IHsigs].
  destruct (currentCard cards st) as [card|] eqn:Hcur.
  - destruct (deckStep_on_current cards st a card Hcur) as [Hstep Hsig].
    cbn [app List.filter fst snd].
    destruct (String.eqb_spec (CodeCard.id card) id) as [Heq|Hne].
    + subst id. cbn [map fst snd]. rewrite reviewTrace_cons. cbn [fst snd].
      rewrite <- Hstep, <- Hsig. by rewrite IHentry, IHsigs.
    + assert (Hoff : progress (deckStep cards st a) !! id = progress st !! id).
      { apply deckStep_off_current. intros c Hc. by simplify_eq. }
      destruct (reviewTrace_local id
                  (map (λ e, e.1.2)
                     (List.filter (λ e, String.eqb e.1.1 id)
                        (deckLog cards (deckStep cards st a) acts)))
                  _ _ Hoff) as [Hfinal Hsigs].
      by rewrite IHentry, IHsigs, Hfinal, Hsigs.
  - assert (Hsame : deckStep cards st a = st).
    { destruct a; cbn [deckStep]; unfold swipeRight, swipeLeft, swipeUp;
        by rewrite Hcur. }
    cbn [app]. rewrite Hsame in IHentry, IHsigs |- *. done.
Qed.

(** C1: the hook, on a card without review state. Every confirm of the
    current card adds exactly one to its consecutive-confirm count, and a
    reject of the current card puts its count to 0 and clears [mastered].
    Whatever run of the hook the card is part of, and whatever is done to
    other cards in between: once it has been confirmed three times, its
    entry says [mastered], and of these three steps the third is the only
    one to emit the mastery signal; a fourth confirm keeps [mastered] and
    stays silent; one reject then puts the count back to 0 and clears
    [mastered]. *)
Theorem review_trace_fresh_card (cards : list CodeCard.t) (st : DeckState)
    (acts : list Action) (id : string) (t1 t2 t3 t4 t5 : Z) :
  progress st !! id = None →
  let final := foldl (deckStep cards) st acts in
  let hits := actionsOn id (deckLog cards st acts) in
  let signals := signalsOn id (deckLog cards st acts) in
  (∀ s card now, currentCard cards s = Some card →
     seenOr0 (progress (swipeRight cards now s)) (CodeCard.id card)
     = seenOr0 (progress s) (CodeCard.id card) + 1) ∧
  (∀ s card now, currentCard cards s = Some card →
     progress (swipeLeft cards now s) !! CodeCard.id card
     = Some (CardProgress.mk (CodeCard.id card) 0 false now)) ∧
  (hits = [Confirm t1] →
     progress final !! id = Some (CardProgress.mk id 1 false t1) ∧
     signals = [false]) ∧
  (hits = [Confirm t1; Confirm t2] →
     progress final !! id = Some (CardProgress.mk id 2 false t2) ∧
     signals = [false; false]) ∧
  (hits = [Confirm t1; Confirm t2; Confirm t3] →
     progress final !! id = Some (CardProgress.mk id 3 true t3) ∧
     signals = [false; false; true]) ∧
  (hits = [Confirm t1; Confirm t2; Confirm t3; Confirm t4] →
     progress final !! id = Some (CardProgress.mk id 4 true t4) ∧
     signals = [false; false; true; false]) ∧
  (hits = [Confirm t1; Confirm t2; Confirm t3; Confirm t4; Reject t5] →
     progress final !! id = Some (CardProgress.mk id 0 false t5) ∧
     signals = [false; false; true; false; false]).
Proof.
  intros Hfresh. cbv zeta.
  destruct (deckLog_reviewTrace cards acts id st) as [Hentry Hsigs].
  destruct (reviewTrace_fresh_card id (progress st) t1 t2 t3 t4 t5 Hfresh)
    as (H1 & S1 & H2 & S2 & H3 & S3 & H4 & S4 & H5 & S5).
  split.
  { intros s card now Hcur.
    destruct (deckStep_on_current cards s (Confirm now) card Hcur) as [Hstep _].
    cbn [deckStep applyReview] in Hstep. rewrite Hstep.
    apply seenOr0_swipeRight. }
  split.
  { intros s card now Hcur.
    destruct (deckStep_on_current cards s (Reject now) card Hcur) as [Hstep _].
    cbn [deckStep applyReview fst] in Hstep. rewrite Hstep.
    apply swipeLeftUpdater_lookup. }
  rewrite Hentry, Hsigs.
  split_and!; intros ->; by split.
Qed.

Lemma review_trace_fresh_card_witness :
  progress
    (foldl (deckStep [demoCard "a"; demoCard "b"]) initialDeck
       [Confirm 10; Confirm 15; Confirm 20; Confirm 25; Confirm 30;
        Confirm 35; Confirm 40; Confirm 45; Reject 50]) !! "a"
  = Some (CardProgress.mk "a" 0 false 50)
  ∧ signalsOn "a"
      (deckLog [demoCard "a"; demoCard "b"] initialDeck
         [Confirm 10; Confirm 15; Confirm 20; Confirm 25; Confirm 30;
          Confirm 35; Confirm 40; Confirm 45; Reject 50])
    = [false; false; true; false; false].
Proof.
  destruct (review_trace_fresh_card [demoCard "a"; demoCard "b"] initialDeck
              [Confirm 10; Confirm 15; Confirm 20; Confirm 25; Confirm 30;
               Confirm 35; Confirm 40; Confirm 45; Reject 50]
              "a" 10 20 30 40 50) as (_ & _ & _ & _ & _ & _ & Hrun).
  - reflexivity.
  - apply Hrun. by vm_compute.
Defined.

(** C10: the hook emits the mastery signal on every confirm that takes the
    current card's [mastered] flag from false to true, and then sets
    [justMasteredCard] to that card; a reject and a skip never emit it.
    So, whatever run of the hook a card without review state is part of:
    once it has been confirmed three times, rejected once and confirmed
    three more times, the signal has been emitted for it twice. *)
Theorem mastery_signal_refires (cards : list CodeCard.t) (st : DeckState)
    (acts : list Action) (id : string) (t1 t2 t3 t4 t5 t6 t7 : Z) :
  progress st !! id = None →
  let final := foldl (deckStep cards) st acts in
  let hits := actionsOn id (deckLog cards st acts) in
  let signals := signalsOn id (deckLog cards st acts) in
  (∀ s card now, currentCard cards s = Some card →
     (emitsSignal cards s (Confirm now) = true ↔
      wasMasteredOf (progress s) (CodeCard.id card) = false ∧
      wasMasteredOf (progress (swipeRight cards now s)) (CodeCard.id card)
      = true)) ∧
  (∀ s card now, currentCard cards s = Some card →
     emitsSignal cards s (Confirm now) = true →
     justMasteredCard (swipeRight cards now s) = Some card) ∧
  (∀ s now, emitsSignal cards s (Reject now) = false) ∧
  (∀ s, emitsSignal cards s Skip = false) ∧
  (hits = [Confirm t1; Confirm t2; Confirm t3; Reject t4;
           Confirm t5; Confirm t6; Confirm t7] →
     signals = [false; false; true; false; false; false; true] ∧
     signalCount signals = 2%nat ∧
     progress final !! id = Some (CardProgress.mk id 3 true t7)).
Proof.
  intros Hfresh. cbv zeta.
  destruct (deckLog_reviewTrace cards acts id st) as [Hentry Hsigs].
  destruct (reviewTrace_refires id (progress st) t1 t2 t3 t4 t5 t6 t7 Hfresh)
    as [Htrace Hfinal].
  split.
  { intros s card now Hcur.
    destruct (deckStep_on_current cards s (Confirm now) card Hcur)
      as [Hstep Hsig].
    cbn [deckStep applyReview] in Hstep, Hsig. rewrite Hstep, Hsig.
    rewrite swipeRightUpdater_signal, wasMasteredOf_swipeRight.
    rewrite andb_true_iff, negb_true_iff. tauto. }
  split.
  { intros s card now Hcur.
    destruct (deckStep_on_current cards s (Confirm now) card Hcur) as [_ Hsig].
    cbn [applyReview] in Hsig. rewrite Hsig. intros Hemit.
    unfold swipeRight. rewrite Hcur.
    destruct (swipeRightUpdater _ _ _) as [next celebrate].
    cbn in Hemit |- *. by rewrite Hemit. }
  split.
  { intros s now. unfold emitsSignal. cbn [deckStep]. unfold swipeLeft.
    by destruct (currentCard cards (clearJustMastered s)). }
  split.
  { intros s. unfold emitsSignal. cbn [deckStep]. unfold swipeUp.
    by destruct (currentCard cards (clearJustMastered s)). }
  rewrite Hentry, Hsigs. intros ->. by rewrite Htrace, Hfinal.
Qed.

Lemma mastery_signal_refires_witness :
  signalCount
    (signalsOn "a"
       (deckLog [demoCard "a"; demoCard "b"] initialDeck
          [Confirm 1; Confirm 2; Confirm 3; Confirm 4; Confirm 5; Confirm 6;
           Reject 7; Skip; Confirm 9; Skip; Confirm 11; Skip; Confirm 13]))
  = 2%nat.
Proof.
  destruct (mastery_signal_refires [demoCard "a"; demoCard "b"] initialDeck
              [Confirm 1; Confirm 2; Confirm 3; Confirm 4; Confirm 5; Confirm 6;
               Reject 7; Skip; Confirm 9; Skip; Confirm 11; Skip; Confirm 13]
              "a" 1 3 5 7 9 11 13) as (_ & _ & _ & _ & Hrun).
  - reflexivity.
  - apply Hrun. by vm_compute.
Defined.

(** ** [Array.prototype.sort] with a comparator that subtracts keys *)

Section JsSortFacts.
Context {A : Type} (key : A → Z).

Local Abbreviation cmp := (byKey key).

Lemma sort_insert_perm x l : Permutation (sort_insert cmp x l) (x :: l).
Proof.
  induction l as [|y l IH]; cbn; [done|].
  destruct (cmp x y <=? 0); [done|].
  rewrite IH. apply perm_swap.
Qed.

Lemma js_sort_perm l : Permutation (js_sort cmp l) l.
Proof.
  induction l as [|x l IH]; cbn; [done|].
  rewrite sort_insert_perm. by constructor.
Qed.

Lemma sort_insert_sorted x l :
  StronglySorted (λ a b, key a ≤ key b) l →
  StronglySorted (λ a b, key a ≤ key b) (sort_insert cmp x l).
Proof.
  induction 1 as [|y l Hl IH Hy]; cbn.
  - repeat constructor.
  - destruct (Z.leb_spec (cmp x y) 0) as [Hle|Hgt]; unfold byKey in *.
    + constructor; [by constructor|].
      constructor; [lia|].
      eapply Forall_impl; [exact Hy|]. cbn; intros; lia.
    + constructor; [done|].
      eapply Permutation_Forall; [symmetry; apply sort_insert_perm|].
      constructor; [lia | done].
Qed.

Lemma js_sort_sorted l : StronglySorted (λ a b, key a ≤ key b) (js_sort cmp l).
Proof.
  induction l as [|x l IH]; cbn; [constructor|]. by apply sort_insert_sorted.
Qed.

(** Stability: elements with one key keep their order. *)
Lemma sort_insert_stable k x l :
  List.filter (λ a, key a =? k) (sort_insert cmp x l)
  = List.filter (λ a, key a =? k) (x :: l).
Proof.
  induction l as [|y l IH]; [done|]. cbn [sort_insert].
  destruct (Z.leb_spec (cmp x y) 0) as [Hle|Hgt]; [done|].
  unfold byKey in Hgt.
  cbn [List.filter] in *. rewrite IH.
  destruct (Z.eqb_spec (key y) k), (Z.eqb_spec (key x) k); try done; lia.
Qed.

Lemma js_sort_stable k l :
  List.filter (λ a, key a =? k) (js_sort cmp l) = List.filter (λ a, key a =? k) l.
Proof.
  induction l as [|x l IH]; [done|]. cbn [js_sort foldr].
  rewrite sort_insert_stable. cbn [List.filter].
  fold (js_sort cmp l). by rewrite IH.
Qed.

Lemma js_sort_Forall (P : A → Prop) l : Forall P l → Forall P (js_sort cmp l).
Proof. intros H. eapply Permutation_Forall; [symmetry; apply js_sort_perm|done]. Qed.

Lemma js_sort_length l : length (js_sort cmp l) = length l.
Proof. apply Permutation_length, js_sort_perm. Qed.

(** A sorted list in which equal keys keep their input order is determined by
    the input: whatever stable algorithm the engine runs, it returns
    [js_sort]'s list. *)
Lemma stable_sorted_unique l1 l2 :
  StronglySorted (λ a b, key a ≤ key b) l1 →
  StronglySorted (λ a b, key a ≤ key b) l2 →
  (∀ k, List.filter (λ a, key a =? k) l1 = List.filter (λ a, key a =? k) l2) →
  l1 = l2.
Proof.
  intros H1; revert l2; induction H1 as [|x l1 Hl1 IH Hx]; intros l2 H2 Heq.
  - destruct l2 as [|y l2]; [done|].
    specialize (Heq (key y)); cbn in Heq. by rewrite Z.eqb_refl in Heq.
  - destruct H2 as [|y l2 Hl2 Hy].
    { specialize (Heq (key x)); cbn in Heq. by rewrite Z.eqb_refl in Heq. }
    assert (Hk : key y = key x).
    { destruct (Z.lt_trichotomy (key y) (key x)) as [Hlt|[?|Hlt]]; [|done|].
      - pose proof (Heq (key y)) as He; cbn in He.
        rewrite Z.eqb_refl in He.
        destruct (Z.eqb_spec (key x) (key y)); [lia|].
        assert (Hin : In y (List.filter (λ a, key a =? key y) l1))
          by (rewrite He; by left).
        apply filter_In in Hin as [Hin _].
        rewrite Forall_forall in Hx. apply list_elem_of_In, Hx in Hin. lia.
      - pose proof (Heq (key x)) as He; cbn in He.
        rewrite Z.eqb_refl in He.
        destruct (Z.eqb_spec (key y) (key x)); [lia|].
        assert (Hin : In x (List.filter (λ a, key a =? key x) l2))
          by (rewrite <- He; by left).
        apply filter_In in Hin as [Hin _].
        rewrite Forall_forall in Hy. apply list_elem_of_In, Hy in Hin. lia. }
    pose proof (Heq (key x)) as He; cbn in He.
    rewrite Z.eqb_refl in He. rewrite Hk, Z.eqb_refl in He.
    injection He as Hxy He. subst y. f_equal. apply IH; [done|].
    intros k. specialize (Heq k); cbn in Heq.
    destruct (key x =? k); [by injection Heq | done].
Qed.
End JsSortFacts.

(** ** The queue builder *)

Lemma count_occ_filter {A : Type} (dec : ∀ x y : A, {x = y} + {x ≠ y})
    (f : A → bool) (l : list A) (c : A) :
  count_occ dec (List.filter f l) c = if f c then count_occ dec l c else 0%nat.
Proof.
  induction l as [|x l IH]; cbn; [by destruct (f c)|].
  destruct (f x) eqn:Hfx; cbn; destruct (dec x c) as [->|Hne];
    rewrite ?IH; try done.
  - by rewrite Hfx.
  - by rewrite Hfx.
Qed.

Lemma filter_Forall_true {A : Type} (f : A → bool) (l : list A) :
  Forall (λ x, f x = true) (List.filter f l).
Proof. apply List.Forall_forall. intros x Hx. by apply filter_In in Hx as [_ ?]. Qed.

Lemma filter_all {A : Type} (f : A → bool) (l : list A) :
  Forall (λ x, f x = true) l → List.filter f l = l.
Proof. induction 1 as [|x l Hx _ IH]; cbn; [done|]. by rewrite Hx, IH. Qed.

Lemma filter_none {A : Type} (f : A → bool) (l : list A) :
  Forall (λ x, f x = false) l → List.filter f l = [].
Proof. induction 1 as [|x l Hx _ IH]; cbn; [done|]. by rewrite Hx, IH. Qed.

Lemma isUnseen_inTier progress c : isUnseen progress c = inTier progress Unseen c.
Proof.
  unfold isUnseen, inTier, tierOf.
  destruct (progress !! CodeCard.id c) as [p|]; [|done].
  by destruct (CardProgress.mastered p).
Qed.

Lemma needsWorkFilter_inTier progress j c :
  needsWorkFilter progress j c
  = inTier progress NeedsWork c && negb (excluded progress j c).
Proof.
  unfold needsWorkFilter, inTier, excluded, tierOf, notJustSwiped.
  destruct (progress !! CodeCard.id c) as [p|]; [|done].
  destruct (CardProgress.mastered p); cbn; [done|].
  by destruct (bool_decide (Some (CodeCard.id c) = j)).
Qed.

Lemma masteredFilter_inTier progress j c :
  masteredFilter progress j c
  = inTier progress Mastered c && negb (excluded progress j c).
Proof.
  unfold masteredFilter, inTier, excluded, tierOf, notJustSwiped.
  destruct (progress !! CodeCard.id c) as [p|]; [|done].
  destruct (CardProgress.mastered p); cbn; [|done].
  by destruct (bool_decide (Some (CodeCard.id c) = j)).
Qed.

Lemma excluded_unseen progress j c :
  inTier progress Unseen c = true → excluded progress j c = false.
Proof.
  unfold inTier, excluded. intros H%bool_decide_eq_true.
  rewrite H. by rewrite bool_decide_eq_false_2 by auto.
Qed.

(** The three tiers of the queue, as the code computes them. *)
Lemma buildQueue_tiers cards progress j :
  ∃ U N M,
    buildQueue cards progress j = U ++ N ++ M ∧
    U = List.filter (isUnseen progress) cards ∧
    Permutation N (List.filter (needsWorkFilter progress j) cards) ∧
    Permutation M (List.filter (masteredFilter progress j) cards) ∧
    Forall (λ c, tierOf progress c = Unseen) U ∧
    Forall (λ c, tierOf progress c = NeedsWork) N ∧
    Forall (λ c, tierOf progress c = Mastered) M ∧
    StronglySorted (lastSeenLe progress) N ∧
    StronglySorted (lastSeenLe progress) M.
Proof.
  eexists _, _, _. split; [reflexivity|]. split; [reflexivity|].
  split; [apply (js_sort_perm (lastSeenOf progress))|].
  split; [apply (js_sort_perm (lastSeenOf progress))|].
  split; [|split; [|split; [|split]]].
  - eapply Forall_impl; [apply filter_Forall_true|]. cbn; intros c.
    rewrite isUnseen_inTier. unfold inTier. by intros ?%bool_decide_eq_true.
  - apply (js_sort_Forall (lastSeenOf progress)).
    eapply Forall_impl; [apply filter_Forall_true|]. cbn; intros c.
    rewrite needsWorkFilter_inTier. unfold inTier.
    by intros [?%bool_decide_eq_true _]%andb_true_iff.
  - apply (js_sort_Forall (lastSeenOf progress)).
    eapply Forall_impl; [apply filter_Forall_true|]. cbn; intros c.
    rewrite masteredFilter_inTier. unfold inTier.
    by intros [?%bool_decide_eq_true _]%andb_true_iff.
  - apply (js_sort_sorted (lastSeenOf progress)).
  - apply (js_sort_sorted (lastSeenOf progress)).
Qed.

Lemma same_tier_sorted progress t l :
  Forall (λ c, tierOf progress c = t) l → StronglySorted (tierLe progress) l.
Proof.
  induction 1 as [|c l Hc Hl IH]; constructor; [done|].
  eapply Forall_impl; [exact Hl|]. cbn; intros c' Hc'.
  unfold tierLe. rewrite Hc, Hc'. lia.
Qed.

Lemma inTier_filter_same progress t l :
  Forall (λ c, tierOf progress c = t) l → List.filter (inTier progress t) l = l.
Proof.
  intros H. apply filter_all. eapply Forall_impl; [exact H|].
  cbn; intros c Hc. unfold inTier. by apply bool_decide_eq_true.
Qed.

Lemma inTier_filter_other progress t t' l :
  t ≠ t' →
  Forall (λ c, tierOf progress c = t) l → List.filter (inTier progress t') l = [].
Proof.
  intros Hne H. apply filter_none. eapply Forall_impl; [exact H|].
  cbn; intros c Hc. unfold inTier. apply bool_decide_eq_false. congruence.
Qed.

Lemma buildQueue_count cards progress j c :
  count_occ CodeCard_eq_dec (buildQueue cards progress j) c
  = if excluded progress j c then 0%nat else count_occ CodeCard_eq_dec cards c.
Proof.
  unfold buildQueue. rewrite !count_occ_app.
  rewrite !(proj1 (Permutation_count_occ CodeCard_eq_dec _ _)
              (js_sort_perm (lastSeenOf progress) _)).
  rewrite !count_occ_filter.
  rewrite isUnseen_inTier, needsWorkFilter_inTier, masteredFilter_inTier.
  destruct (inTier progress Unseen c) eqn:HU.
  { rewrite (excluded_unseen _ j _ HU). unfold inTier in *.
    apply bool_decide_eq_true in HU.
    rewrite !bool_decide_eq_false_2 by congruence. cbn. lia. }
  unfold inTier in *. apply bool_decide_eq_false in HU.
  destruct (excluded progress j c); cbn; rewrite ?andb_false_r; [done|].
  rewrite !andb_true_r.
  destruct (tierOf progress c); [done|..].
  - rewrite (bool_decide_eq_true_2 (NeedsWork = NeedsWork)) by done.
    rewrite (bool_decide_eq_false_2 (NeedsWork = Mastered)) by done. lia.
  - rewrite (bool_decide_eq_true_2 (Mastered = Mastered)) by done.
    rewrite (bool_decide_eq_false_2 (Mastered = NeedsWork)) by done. lia.
Qed.

(** The unseen cards of the queue are those of the input, in input order. *)
Lemma buildQueue_unseen_order cards progress j :
  List.filter (inTier progress Unseen) (buildQueue cards progress j)
  = List.filter (inTier progress Unseen) cards.
Proof.
  destruct (buildQueue_tiers cards progress j)
    as (U & N & M & -> & HU & _ & _ & HtU & HtN & HtM & _).
  rewrite !List.filter_app.
  rewrite (inTier_filter_same _ _ _ HtU).
  rewrite (inTier_filter_other _ NeedsWork Unseen N) by done.
  rewrite (inTier_filter_other _ Mastered Unseen M) by done.
  rewrite !app_nil_r, HU. apply filter_ext. intros c. apply isUnseen_inTier.
Qed.

(** C2: the queue holds every input card as often as the input does
    (exactly once when the input has no repeated card), except that the
    card just acted upon is left out once it has a review state; no card
    of a later tier comes before a card of an earlier tier (unseen, then
    not mastered, then mastered); the unseen cards keep their input order;
    the other two tiers are each in ascending order of [lastSeen]. *)
Theorem buildQueue_postcondition (cards : list CodeCard.t)
    (progress : gmap string CardProgress.t) (justSwipedId : option string) :
  let q := buildQueue cards progress justSwipedId in
  (∀ c, count_occ CodeCard_eq_dec q c
        = if excluded progress justSwipedId c then 0%nat
          else count_occ CodeCard_eq_dec cards c) ∧
  (NoDup cards → ∀ c, In c cards → excluded progress justSwipedId c = false →
     count_occ CodeCard_eq_dec q c = 1%nat) ∧
  Permutation q
    (List.filter (λ c, negb (excluded progress justSwipedId c)) cards) ∧
  StronglySorted (tierLe progress) q ∧
  List.filter (inTier progress Unseen) q
    = List.filter (inTier progress Unseen) cards ∧
  StronglySorted (lastSeenLe progress) (List.filter (inTier progress NeedsWork) q) ∧
  StronglySorted (lastSeenLe progress) (List.filter (inTier progress Mastered) q).
Proof.
  intros q.
  destruct (buildQueue_tiers cards progress justSwipedId)
    as (U & N & M & Hq & HU & _ & _ & HtU & HtN & HtM & HsN & HsM).
  fold q in Hq.
  split; [apply buildQueue_count|].
  split.
  { intros Hnd c Hin Hex. unfold q. rewrite buildQueue_count, Hex.
    apply NoDup_count_occ'; [by apply NoDup_ListNoDup | done]. }
  split.
  { apply (Permutation_count_occ CodeCard_eq_dec). intros c.
    unfold q. rewrite buildQueue_count, count_occ_filter.
    by destruct (excluded progress justSwipedId c). }
  rewrite Hq. split; [|split; [|split]].
  - apply StronglySorted_app_2; [|by eapply same_tier_sorted|].
    + intros a b Ha Hb. rewrite Forall_forall in HtU, HtN, HtM.
      unfold tierLe. rewrite (HtU _ Ha).
      apply elem_of_app in Hb as [Hb|Hb];
        [rewrite (HtN _ Hb) | rewrite (HtM _ Hb)]; cbn; lia.
    + apply StronglySorted_app_2; [|by eapply same_tier_sorted..].
      intros a b Ha Hb. rewrite Forall_forall in HtN, HtM.
      unfold tierLe. rewrite (HtN _ Ha), (HtM _ Hb). cbn; lia.
  - rewrite <- Hq. apply buildQueue_unseen_order.
  - rewrite !List.filter_app.
    rewrite (inTier_filter_same _ _ _ HtN).
    rewrite (inTier_filter_other _ Unseen NeedsWork U) by done.
    rewrite (inTier_filter_other _ Mastered NeedsWork M) by done.
    by rewrite app_nil_r.
  - rewrite !List.filter_app.
    rewrite (inTier_filter_same _ _ _ HtM).
    rewrite (inTier_filter_other _ Unseen Mastered U) by done.
    rewrite (inTier_filter_other _ NeedsWork Mastered N) by done.
    done.
Qed.

Lemma buildQueue_postcondition_witness :
  count_occ CodeCard_eq_dec
    (buildQueue [demoCard "a"; demoCard "b"; demoCard "c"] demoProgress (Some "c"))
    (demoCard "b") = 1%nat.
Proof.
  destruct (buildQueue_postcondition
              [demoCard "a"; demoCard "b"; demoCard "c"] demoProgress (Some "c"))
    as (_ & Honce & _).
  apply Honce.
  - apply (bool_decide_unpack _). vm_compute. exact I.
  - right; left; reflexivity.
  - vm_compute. reflexivity.
Defined.

Lemma notJustSwiped_no_entry (progress : gmap string CardProgress.t) j c p :
  progress !! j = None → progress !! CodeCard.id c = Some p →
  notJustSwiped (Some j) c = true.
Proof.
  intros Hj Hc. unfold notJustSwiped.
  rewrite bool_decide_eq_false_2; [done|]. intros [= Heq]. congruence.
Qed.

Lemma buildQueue_exclusion_idle cards (progress : gmap string CardProgress.t) j :
  progress !! j = None →
  buildQueue cards progress (Some j) = buildQueue cards progress None.
Proof.
  intros Hj. unfold buildQueue. f_equal. f_equal.
  - f_equal. apply filter_ext. intros c. unfold needsWorkFilter.
    destruct (progress !! CodeCard.id c) as [p|] eqn:Hc; [|done].
    by rewrite (notJustSwiped_no_entry _ _ _ _ Hj Hc).
  - f_equal. apply filter_ext. intros c. unfold masteredFilter.
    destruct (progress !! CodeCard.id c) as [p|] eqn:Hc; [|done].
    by rewrite (notJustSwiped_no_entry _ _ _ _ Hj Hc).
Qed.

Lemma buildQueue_In cards progress j c :
  In c (buildQueue cards progress j)
  ↔ In c cards ∧ excluded progress j c = false.
Proof.
  rewrite (count_occ_In CodeCard_eq_dec), buildQueue_count.
  rewrite (count_occ_In CodeCard_eq_dec).
  destruct (excluded progress j c); split; try lia; intros [? ?]; done.
Qed.

(** C9: when the id handed over as just acted upon has no review state,
    the queue is the one built without any exclusion: the unseen tier is the
    queue's front and lists the unseen input cards in input order, the card
    with that id included. Any input card the queue leaves out has the
    excluded id and has a review state. *)
Theorem buildQueue_keeps_unseen (cards : list CodeCard.t)
    (progress : gmap string CardProgress.t) (j : string) :
  progress !! j = None →
  buildQueue cards progress (Some j) = buildQueue cards progress None ∧
  take (length (List.filter (isUnseen progress) cards))
       (buildQueue cards progress (Some j))
    = List.filter (isUnseen progress) cards ∧
  List.filter (inTier progress Unseen) (buildQueue cards progress (Some j))
    = List.filter (inTier progress Unseen) cards ∧
  (∀ c, In c cards → CodeCard.id c = j →
        In c (List.filter (isUnseen progress) cards) ∧
        In c (buildQueue cards progress (Some j))) ∧
  (∀ progress' j' c, In c cards → ¬ In c (buildQueue cards progress' j') →
        j' = Some (CodeCard.id c) ∧ is_Some (progress' !! CodeCard.id c)).
Proof.
  intros Hj. split; [by apply buildQueue_exclusion_idle|].
  split; [unfold buildQueue; by rewrite take_app_length|].
  split; [apply buildQueue_unseen_order|].
  split.
  - intros c Hin <-.
    assert (Hu : isUnseen progress c = true) by (unfold isUnseen; by rewrite Hj).
    split; [by apply filter_In|].
    apply buildQueue_In. split; [done|].
    apply excluded_unseen. by rewrite <- isUnseen_inTier.
  - intros progress' j' c Hin Hout.
    destruct (excluded progress' j' c) eqn:Hex.
    + unfold excluded in Hex. apply andb_true_iff in Hex as [Ht Hid].
      apply bool_decide_eq_true in Ht, Hid. split; [done|].
      unfold tierOf in Ht.
      destruct (progress' !! CodeCard.id c); [by eexists | done].
    + exfalso. apply Hout. by apply buildQueue_In.
Qed.

Lemma buildQueue_keeps_unseen_witness :
  buildQueue [demoCard "a"; demoCard "b"; demoCard "c"] demoProgress (Some "c")
  = buildQueue [demoCard "a"; demoCard "b"; demoCard "c"] demoProgress None.
Proof.
  apply (buildQueue_keeps_unseen
           [demoCard "a"; demoCard "b"; demoCard "c"] demoProgress "c").
  vm_compute. reflexivity.
Defined.

(** ** The brace matcher *)

Lemma drop_charAt (source : list ascii) (i : nat) :
  (i < length source)%nat →
  drop i source = charAt source i :: drop (S i) source.
Proof.
  intros Hlt. destruct (lookup_lt_is_Some_2 source i Hlt) as [x Hx].
  unfold charAt. rewrite (nth_lookup_Some _ _ _ _ Hx). by apply drop_S.
Qed.

Lemma closesAt_not_code s c : mode s ≠ InCode → closesAt s c = false.
Proof. intros H. unfold closesAt. by rewrite bool_decide_eq_false_2. Qed.

(** Inside a literal the one-pass reading and [skipString] agree on where
    the literal ends, and no block closes on the way. *)
Lemma skipString_findClose source q d o :
  ∀ m j n, m = (length source - j)%nat →
  findClose (mkScan (InLiteral q) d o) n (drop j source) =
  if bool_decide (skipString source q j < length source)%nat
  then findClose (mkScan InCode d o) (n + (skipString source q j + 1 - j))
         (drop (skipString source q j + 1) source)
  else None.
Proof.
  intros m; induction (lt_wf m) as [m _ IH]; intros j n ->.
  rewrite (skipString_step source q j).
  destruct (bool_decide_reflect (j < length source)%nat) as [Hlt|Hge].
  2:{ rewrite bool_decide_eq_false_2 by done. by rewrite drop_ge by lia. }
  rewrite (drop_charAt _ _ Hlt). cbn [findClose].
  rewrite closesAt_not_code by done.
  unfold scanStep; cbn [mode braceDepth opened].
  destruct (bool_decide_reflect (charAt source j = q)) as [Hq|Hq].
  { rewrite bool_decide_eq_true_2 by done.
    replace (n + (j + 1 - j))%nat with (S n) by lia.
    by rewrite Nat.add_1_r. }
  destruct (bool_decide_reflect (charAt source j = backslash)) as [Hb|Hb].
  - pose proof (skipString_ge source q (j + 2)) as Hge.
    destruct (decide (S j < length source)%nat) as [Hlt2|Hge2].
    + rewrite (drop_charAt _ _ Hlt2). cbn [findClose].
      rewrite closesAt_not_code by done.
      unfold scanStep; cbn [mode braceDepth opened].
      replace (S (S j)) with (j + 2)%nat by lia.
      rewrite (IH (length source - (j + 2))%nat ltac:(lia) (j + 2)%nat _ eq_refl).
      destruct (bool_decide (skipString source q (j + 2) < length source)%nat);
        [|done].
      f_equal. lia.
    + rewrite (drop_ge _ (S j)) by lia. cbn [findClose].
      rewrite (skipString_step source q (j + 2)).
      rewrite (bool_decide_eq_false_2 (j + 2 < length source)%nat) by lia.
      by rewrite bool_decide_eq_false_2 by lia.
  - pose proof (skipString_ge source q (j + 1)) as Hge.
    replace (S j) with (j + 1)%nat by lia.
    rewrite (IH (length source - (j + 1))%nat ltac:(lia) (j + 1)%nat _ eq_refl).
    destruct (bool_decide (skipString source q (j + 1) < length source)%nat);
      [|done].
    f_equal. lia.
Qed.

Lemma isQuote_not_brace ch :
  ch = braceOpen ∨ ch = braceClose → isQuote ch = false.
Proof. by intros [-> | ->]. Qed.

(** The loop of [extractBraceBlock] computes the shortest closing prefix
    that the one-pass reading finds. *)
Lemma braceLoop_findClose source startIdx :
  ∀ m i d o, m = (length source - i)%nat → (startIdx ≤ i)%nat →
  braceLoop source startIdx d o i =
  (λ k, take k (drop startIdx source))
    <$> findClose (mkScan InCode d o) (i - startIdx) (drop i source).
Proof.
  intros m; induction (lt_wf m) as [m _ IH]; intros i d o -> Hstart.
  rewrite braceLoop_step.
  destruct (bool_decide_reflect (i < length source)%nat) as [Hlt|Hge].
  2:{ by rewrite (drop_ge source i) by lia. }
  rewrite (drop_charAt _ _ Hlt). cbn [findClose]. cbn zeta.
  unfold closesAt, scanStep; cbn [mode braceDepth opened].
  rewrite (bool_decide_eq_true_2 (InCode = InCode)) by done.
  rewrite andb_true_l.
  assert (Hnext : ∀ d' o',
    braceLoop source startIdx d' o' (S i) =
    (λ k, take k (drop startIdx source))
      <$> findClose (mkScan InCode d' o') (S (i - startIdx)) (drop (S i) source)).
  { intros d' o'.
    rewrite (IH (length source - S i)%nat ltac:(lia) (S i) d' o' eq_refl ltac:(lia)).
    by replace (S i - startIdx)%nat with (S (i - startIdx)) by lia. }
  destruct (bool_decide_reflect (charAt source i = braceOpen)) as [Ho|Ho].
  { rewrite Ho. rewrite (bool_decide_eq_false_2 (braceOpen = braceClose)) by done.
    cbn [andb isQuote]. rewrite isQuote_not_brace by auto. apply Hnext. }
  destruct (bool_decide_reflect (charAt source i = braceClose)) as [Hc|Hc].
  { cbn [andb]. destruct (o && (d - 1 =? 0)) eqn:Hret.
    - cbn. unfold slice. do 2 f_equal. lia.
    - rewrite isQuote_not_brace by auto. apply Hnext. }
  cbn [andb]. destruct (isQuote (charAt source i)) eqn:Hquote; [|apply Hnext].
  set (q := charAt source i) in *.
  pose proof (skipString_ge source q (i + 1)) as Hsk.
  replace (S i) with (i + 1)%nat by lia.
  rewrite (skipString_findClose source q d o _ (i + 1)%nat _ eq_refl).
  set (sk := skipString source q (i + 1)) in *.
  destruct (bool_decide_reflect (sk < length source)%nat) as [Hin|Hout].
  - rewrite (IH (length source - S sk)%nat ltac:(lia) (S sk) d o eq_refl ltac:(lia)).
    replace (sk + 1)%nat with (S sk) by lia. do 2 f_equal. lia.
  - rewrite braceLoop_step. by rewrite bool_decide_eq_false_2 by lia.
Qed.

Lemma closesFrom_nil s : ¬ closesFrom s [].
Proof. intros (body & Hb & _). by destruct body. Qed.

Lemma closesFrom_cons s c text :
  closesFrom s (c :: text) ↔
  (text = [] ∧ closesAt s c = true) ∨
  (text ≠ [] ∧ closesFrom (scanStep s c) text).
Proof.
  unfold closesFrom, closesAt. split.
  - intros (body & Hb & Hmode & Hopen & Hdepth).
    destruct body as [|c' body]; cbn in Hb; injection Hb as -> ->.
    + left. split; [done|]. cbn in Hmode, Hopen, Hdepth.
      unfold scanStep in Hopen, Hdepth. rewrite Hmode in Hopen, Hdepth.
      rewrite (bool_decide_eq_false_2 (braceClose = braceOpen)) in Hopen, Hdepth by done.
      rewrite (bool_decide_eq_true_2 (braceClose = braceClose)) in Hopen, Hdepth by done.
      cbn in Hopen, Hdepth.
      rewrite !andb_true_iff. repeat split; try done;
        try (by apply bool_decide_eq_true); by apply Z.eqb_eq.
    + right. split; [by destruct body|]. by exists body.
  - intros [[-> Hat] | [Hne (body & -> & Hmode & Hopen & Hdepth)]].
    + rewrite !andb_true_iff in Hat. destruct Hat as [[[Hm Hc] Ho] Hd].
      apply bool_decide_eq_true in Hm, Hc. apply Z.eqb_eq in Hd. subst c.
      exists []. split; [done|]. split; [done|]. cbn.
      unfold scanStep. rewrite Hm.
      rewrite (bool_decide_eq_false_2 (braceClose = braceOpen)) by done.
      rewrite (bool_decide_eq_true_2 (braceClose = braceClose)) by done.
      by cbn.
    + by exists (c :: body).
Qed.

Lemma findClose_spec text :
  ∀ s n,
  match findClose s n text with
  | Some m =>
      ∃ k, m = (n + k)%nat ∧ closesFrom s (take k text) ∧
           ∀ k', (k' < k)%nat → ¬ closesFrom s (take k' text)
  | None => ∀ k, ¬ closesFrom s (take k text)
  end.
Proof.
  induction text as [|c rest IH]; intros s n; cbn [findClose].
  { intros k. rewrite take_nil. apply closesFrom_nil. }
  destruct (closesAt s c) eqn:Hat.
  - exists 1%nat. split; [lia|]. split.
    + cbn. apply closesFrom_cons. by left.
    + intros k' Hk'. replace k' with 0%nat by lia. apply closesFrom_nil.
  - specialize (IH (scanStep s c) (S n)).
    destruct (findClose (scanStep s c) (S n) rest) as [m|].
    + destruct IH as (k & -> & Hcl & Hmin).
      exists (S k). split; [lia|]. split.
      * cbn. apply closesFrom_cons. right. split; [|done].
        intros Hnil. rewrite Hnil in Hcl. by apply closesFrom_nil in Hcl.
      * intros [|k'] Hk'; cbn; [apply closesFrom_nil|].
        rewrite closesFrom_cons. intros [[_ Habs] | [_ Habs]]; [congruence|].
        apply (Hmin k'); [lia | done].
    + intros [|k]; cbn; [apply closesFrom_nil|].
      rewrite closesFrom_cons. intros [[_ Habs] | [_ Habs]]; [congruence|].
      by apply (IH k).
Qed.

Lemma prefix_is_take {A : Type} (p l : list A) :
  p `prefix_of` l → p = take (length p) l.
Proof. intros [k ->]. by rewrite take_app_length. Qed.

(** C4, as the code has it: [extractBraceBlock] returns the text from the
    given offset itself (whatever precedes the first opening brace
    included) up to the first closing brace, read outside literals, at which
    an opening brace has been read and the braces read outside literals
    balance; no shorter text from the offset has that property. It returns
    [null] exactly when no text from the offset has it, as on the
    unterminated [function f() { return 1;]. *)
Theorem extractBraceBlock_spec (source : string) (startIdx : nat) :
  extractBraceBlock "function f() { return 1;" 0 = None ∧
  match extractBraceBlock source startIdx with
  | Some block =>
      chars block `prefix_of` drop startIdx (chars source) ∧
      closes (chars block) ∧
      braceDepth (scanFrom scanStart (chars block)) = 0 ∧
      (∀ p, p `prefix_of` chars block → closes p → p = chars block)
  | None =>
      ∀ p, p `prefix_of` drop startIdx (chars source) → ¬ closes p
  end.
Proof.
  split; [by vm_compute|].
  unfold extractBraceBlock.
  rewrite (braceLoop_findClose (chars source) startIdx _ startIdx 0 false eq_refl)
    by lia.
  rewrite Nat.sub_diag. change (mkScan InCode 0 false) with scanStart.
  pose proof (findClose_spec (drop startIdx (chars source)) scanStart 0) as Hspec.
  destruct (findClose scanStart 0 (drop startIdx (chars source))) as [m|]; cbn.
  - destruct Hspec as (k & -> & Hcl & Hmin). cbn.
    unfold chars, ofChars. rewrite list_ascii_of_string_of_list_ascii.
    split; [apply prefix_take|]. split; [done|].
    split; [by destruct Hcl as (_ & _ & _ & _ & ?)|].
    intros p Hp Hclp.
    pose proof (prefix_length _ _ Hp) as Hlen.
    rewrite (prefix_is_take _ _ Hp) in Hclp |- *.
    rewrite take_take in Hclp |- *.
    destruct (decide (length p < k)%nat) as [Hlt|Hge].
    + exfalso. apply (Hmin (length p `min` k)%nat); [lia | done].
    + rewrite length_take in Hlen.
      by replace (length p `min` k)%nat with k by lia.
  - intros p Hp Hclp. rewrite (prefix_is_take _ _ Hp) in Hclp.
    by apply (Hspec (length p)).
Qed.

(** C4 in the specification's wording fails: the block starts at the
    offset it was given, not at the first opening brace after it. *)
Lemma extractBraceBlock_keeps_header :
  ¬ (∀ source startIdx block,
       extractBraceBlock source startIdx = Some block →
       startsWithOpenBrace block).
Proof.
  intros Hspec.
  assert (Hrun : extractBraceBlock "function f() { return 1; }" 0
                 = Some "function f() { return 1; }") by (by vm_compute).
  destruct (Hspec _ _ _ Hrun) as [rest Hrest]. discriminate Hrest.
Qed.

(** ** The ranker *)

Lemma append_cons c (s1 s2 : string) : String c s1 +:+ s2 = String c (s1 +:+ s2).
Proof. reflexivity. Qed.

Lemma append_empty (s : string) : EmptyString +:+ s = s.
Proof. reflexivity. Qed.

Lemma includes_colon_append (n rest : string) :
  includes (n +:+ String ":" rest) ":" = true.
Proof.
  induction n as [|c n IH].
  - rewrite append_empty. cbn. by destruct rest.
  - rewrite append_cons. cbn [includes]. rewrite IH. apply orb_true_r.
Qed.

Lemma typeString_no_colon t : includes (typeString t) ":" = false.
Proof. by destruct t. Qed.

Lemma typeString_inj t t' : typeString t = typeString t' → t = t'.
Proof. by destruct t, t'. Qed.

Lemma key_inj (n n' : string) (t t' : BlockType) :
  n +:+ ":" +:+ typeString t = n' +:+ ":" +:+ typeString t' → n = n' ∧ t = t'.
Proof.
  revert n'; induction n as [|c n IH]; intros [|c' n'] Heq;
    rewrite ?append_cons, ?append_empty in Heq.
  - injection Heq as Heq. split; [done | by apply typeString_inj].
  - injection Heq as <- Heq. exfalso.
    pose proof (typeString_no_colon t) as Hno.
    rewrite Heq, includes_colon_append in Hno. done.
  - injection Heq as -> Heq. exfalso.
    pose proof (typeString_no_colon t') as Hno.
    rewrite <- Heq, includes_colon_append in Hno. done.
  - injection Heq as -> Heq. destruct (IH _ Heq) as [-> ->]. done.
Qed.

(** The string key identifies the pair (name, kind). *)
Lemma blockKey_pair b b' : blockKey b = blockKey b' ↔ blockPair b = blockPair b'.
Proof.
  unfold blockKey, blockPair. split.
  - intros [-> ->]%key_inj. done.
  - intros [= -> ->]. done.
Qed.

Lemma dedupe_sublist blocks : ∀ seen, dedupe seen blocks `sublist_of` blocks.
Proof.
  induction blocks as [|b rest IH]; intros seen; cbn; [done|].
  destruct (bool_decide (blockKey b ∈ seen)).
  - by apply sublist_cons.
  - by apply sublist_skip.
Qed.

Lemma dedupe_fresh blocks :
  ∀ seen b, In b (dedupe seen blocks) → blockKey b ∉ seen.
Proof.
  induction blocks as [|b0 rest IH]; intros seen b; cbn; [done|].
  destruct (bool_decide_reflect (blockKey b0 ∈ seen)) as [Hin|Hout].
  - apply IH.
  - intros [<- | Hb]; [done|]. apply IH in Hb. set_solver.
Qed.

Lemma dedupe_NoDup blocks :
  ∀ seen, NoDup (map blockPair (dedupe seen blocks)).
Proof.
  induction blocks as [|b0 rest IH]; intros seen; cbn; [constructor|].
  destruct (bool_decide_reflect (blockKey b0 ∈ seen)) as [Hin|Hout]; [apply IH|].
  cbn. constructor; [|apply IH].
  rewrite list_elem_of_In, in_map_iff. intros (b & Hpair & Hb).
  apply dedupe_fresh in Hb. apply blockKey_pair in Hpair. set_solver.
Qed.

Lemma dedupe_first blocks :
  ∀ seen b, In b (dedupe seen blocks) → List.find (samePair b) blocks = Some b.
Proof.
  induction blocks as [|b0 rest IH]; intros seen b; cbn; [done|].
  unfold samePair at 1.
  destruct (bool_decide_reflect (blockKey b0 ∈ seen)) as [Hin|Hout].
  - intros Hb. pose proof (dedupe_fresh _ _ _ Hb) as Hfresh.
    rewrite bool_decide_eq_false_2; [by eapply IH|].
    intros Hpair%blockKey_pair. congruence.
  - intros [<- | Hb]; [by rewrite bool_decide_eq_true_2|].
    pose proof (dedupe_fresh _ _ _ Hb) as Hfresh.
    rewrite bool_decide_eq_false_2; [by eapply IH|].
    intros Hpair%blockKey_pair. set_solver.
Qed.

Lemma dedupe_covers blocks :
  ∀ seen b, In b blocks → blockKey b ∉ seen →
    ∃ b', In b' (dedupe seen blocks) ∧ blockPair b' = blockPair b.
Proof.
  induction blocks as [|b0 rest IH]; intros seen b; cbn; [done|].
  destruct (bool_decide_reflect (blockKey b0 ∈ seen)) as [Hin|Hout].
  - intros [-> | Hb] Hfresh; [done|]. by apply IH.
  - intros [-> | Hb] Hfresh.
    + exists b. split; [by left | done].
    + destruct (decide (blockKey b = blockKey b0)) as [Heq|Hne].
      * exists b0. split; [by left|]. by apply blockKey_pair.
      * destruct (IH ({[blockKey b0]} ∪ seen) b Hb) as (b' & Hb' & Hp).
        { intros [?%elem_of_singleton | ?]%elem_of_union; done. }
        exists b'. split; [by right | done].
Qed.

Lemma between_decide (a n b : Z) :
  (a <=? n) && (n <=? b) = if decide (a ≤ n ∧ n ≤ b) then true else false.
Proof.
  destruct (Z.leb_spec a n), (Z.leb_spec n b), (decide (a ≤ n ∧ n ≤ b));
    cbn; try done; lia.
Qed.

Lemma truthy_docPresent b :
  truthy (ExtractedBlock.jsDoc b) = if decide (docPresent b) then true else false.
Proof.
  destruct (decide (docPresent b)) as [(doc & -> & Hne)|Hno].
  - by destruct doc.
  - destruct (ExtractedBlock.jsDoc b) as [[|c doc]|] eqn:Hd; try done.
    exfalso. apply Hno. by eexists.
Qed.

Lemma blockScore_spec b : blockScore b = specScore b.
Proof.
  unfold blockScore, specScore, bool_decide. cbv zeta.
  rewrite !between_decide, truthy_docPresent.
  repeat case_decide; first [lia | congruence | tauto].
Qed.

Lemma js_sort_ext {A : Type} (cmp cmp' : A → A → Z) (l : list A) :
  (∀ a b, cmp a b = cmp' a b) → js_sort cmp l = js_sort cmp' l.
Proof.
  intros Hext. induction l as [|x l IH]; cbn; [done|].
  fold (js_sort cmp l) (js_sort cmp' l). rewrite IH.
  generalize (js_sort cmp' l) as s. intros s.
  induction s as [|y s IHs]; cbn; [done|]. by rewrite Hext, IHs.
Qed.

Lemma sort_insert_map {A B : Type} (f : A → B) (cmp : B → B → Z) x (l : list A) :
  sort_insert cmp (f x) (map f l)
  = map f (sort_insert (λ a b, cmp (f a) (f b)) x l).
Proof.
  induction l as [|y l IH]; cbn; [done|].
  destruct (cmp (f x) (f y) <=? 0); cbn; [done|]. by rewrite IH.
Qed.

Lemma js_sort_map {A B : Type} (f : A → B) (cmp : B → B → Z) (l : list A) :
  js_sort cmp (map f l) = map f (js_sort (λ a b, cmp (f a) (f b)) l).
Proof.
  induction l as [|x l IH]; cbn; [done|].
  fold (js_sort cmp (map f l)). rewrite IH. apply sort_insert_map.
Qed.

(** The pairing with the score and its removal cancel out: [rankBlocks]
    sorts the deduplicated blocks by descending score. *)
Lemma rankBlocks_sorts blocks :
  rankBlocks blocks = js_sort (byKey (λ b, - specScore b)) (dedupe ∅ blocks).
Proof.
  unfold rankBlocks. rewrite js_sort_map, map_map. cbn [fst snd].
  rewrite map_id. apply js_sort_ext. intros a b.
  unfold byKey. rewrite !blockScore_spec. lia.
Qed.

Lemma StronglySorted_weaken {A : Type} (R R' : A → A → Prop) (l : list A) :
  (∀ a b, R a b → R' a b) → StronglySorted R l → StronglySorted R' l.
Proof.
  intros Himp. induction 1 as [|x l Hl IH Hx]; constructor; [done|].
  eapply Forall_impl; [exact Hx | auto].
Qed.

Lemma withScore_neg k l :
  withScore k l = List.filter (λ b, - specScore b =? - k) l.
Proof.
  apply filter_ext. intros b.
  destruct (Z.eqb_spec (specScore b) k), (Z.eqb_spec (- specScore b) (- k)); try done; lia.
Qed.

(** C5: [rankBlocks] keeps, of the blocks sharing a (name, kind) pair, the
    first one and drops the later ones; scores what remains by the additive
    rule; and returns it by descending score, blocks of equal score in the
    order they had. That output is the only list with these properties. *)
Theorem rankBlocks_spec (blocks : list ExtractedBlock.t) :
  let unique := dedupe ∅ blocks in
  unique `sublist_of` blocks ∧
  NoDup (map blockPair unique) ∧
  (∀ b, In b unique → List.find (samePair b) blocks = Some b) ∧
  (∀ b, In b blocks → ∃ b', In b' unique ∧ blockPair b' = blockPair b) ∧
  (∀ b, blockScore b = specScore b) ∧
  Permutation (rankBlocks blocks) unique ∧
  StronglySorted scoreGe (rankBlocks blocks) ∧
  (∀ k, withScore k (rankBlocks blocks) = withScore k unique) ∧
  (∀ ranked, StronglySorted scoreGe ranked →
     (∀ k, withScore k ranked = withScore k unique) →
     ranked = rankBlocks blocks).
Proof.
  intros unique. rewrite rankBlocks_sorts. fold unique.
  set (key := λ b : ExtractedBlock.t, - specScore b).
  assert (Hsorted : ∀ l, StronglySorted (λ a b, key a ≤ key b) l
                         ↔ StronglySorted scoreGe l).
  { intros l. split; apply StronglySorted_weaken;
      unfold key, scoreGe; intros; lia. }
  split; [apply dedupe_sublist|].
  split; [apply dedupe_NoDup|].
  split; [intros b; apply dedupe_first|].
  split; [intros b Hb; by apply dedupe_covers|].
  split; [apply blockScore_spec|].
  split; [apply js_sort_perm|].
  split; [apply Hsorted, js_sort_sorted|].
  split.
  - intros k. rewrite !withScore_neg. apply (js_sort_stable key).
  - intros ranked Hr Hk. apply (stable_sorted_unique key).
    + by apply Hsorted.
    + apply js_sort_sorted.
    + intros k. rewrite (js_sort_stable key).
      specialize (Hk (- k)). rewrite !withScore_neg, Z.opp_involutive in Hk.
      exact Hk.
Qed.

Lemma rankBlocks_spec_witness :
  List.find
    (samePair (ExtractedBlock.mk "add" TFunction "x" "a.ts" "typescript" None 7))
    [ExtractedBlock.mk "add" TFunction "x" "a.ts" "typescript" None 7;
     ExtractedBlock.mk "add" TType "i" "a.ts" "typescript" (Some "doc") 9;
     ExtractedBlock.mk "add" TFunction "y" "b.ts" "typescript" None 10]
  = Some (ExtractedBlock.mk "add" TFunction "x" "a.ts" "typescript" None 7).
Proof.
  destruct (rankBlocks_spec
    [ExtractedBlock.mk "add" TFunction "x" "a.ts" "typescript" None 7;
     ExtractedBlock.mk "add" TType "i" "a.ts" "typescript" (Some "doc") 9;
     ExtractedBlock.mk "add" TFunction "y" "b.ts" "typescript" None 10])
    as (_ & _ & Hfirst & _).
  apply Hfirst. vm_compute. left. reflexivity.
Defined.

(** ** The extraction dispatcher *)

Lemma split_newline_length s : length (split newline s) = S (newlines s).
Proof.
  induction s as [|c s IH]; [done|]. cbn [split newlines].
  destruct (bool_decide (c = newline)); cbn [length]; [by rewrite IH|].
  destruct (split newline s) as [|seg segs]; cbn in *; lia.
Qed.

(** [split("\n").length] is one more than the number of newlines. *)
Lemma lineCountOf_newlines s : lineCountOf s = Z.of_nat (newlines s) + 1.
Proof. unfold lineCountOf. rewrite split_newline_length. lia. Qed.

Section ExtractorsFacts.
Variable extractTS : string → FileContent.t → Language → list ExtractedBlock.t.
Variable extractPython : string → FileContent.t → list ExtractedBlock.t.
Variable extractRust : string → FileContent.t → list ExtractedBlock.t.
Variable extractGo : string → FileContent.t → list ExtractedBlock.t.
Variable extractSwift : string → FileContent.t → list ExtractedBlock.t.

Local Abbreviation languageBlocks' :=
  (languageBlocks extractTS extractPython extractRust extractGo extractSwift).
Local Abbreviation extractBlocks' :=
  (extractBlocks extractTS extractPython extractRust extractGo extractSwift).

(** Blocks found by the language's extractor are returned as they are. *)
Lemma extractBlocks_found file :
  languageBlocks' file ≠ [] → extractBlocks' file = languageBlocks' file.
Proof.
  intros Hne. unfold extractBlocks.
  destruct (languageBlocks' file) as [|b bs]; [done|]. reflexivity.
Qed.

(** C7: when the language's extractor finds no block, a file of at most
    40 lines yields exactly one block, of kind [file], whose code is the
    trimmed content and whose name is the last segment of the path; a file
    of more than 40 lines yields no block. *)
Theorem extractBlocks_fallback (file : FileContent.t) :
  languageBlocks' file = [] →
  (lineCountOf (FileContent.content file) ≤ 40 →
     extractBlocks' file =
     [ExtractedBlock.mk
        (lastSegment "/" (FileContent.path file)) TFile
        (trim (FileContent.content file)) (FileContent.path file)
        (detectLanguage (FileContent.path file)) None
        (lineCountOf (FileContent.content file))]) ∧
  (40 < lineCountOf (FileContent.content file) → extractBlocks' file = []).
Proof.
  intros Hnone. unfold extractBlocks. rewrite Hnone. cbn [length app].
  rewrite bool_decide_eq_true_2 by done. cbn [andb].
  split; intros Hlines.
  - by rewrite (proj2 (Z.leb_le _ _) Hlines).
  - by rewrite (proj2 (Z.leb_gt _ _) Hlines).
Qed.
End ExtractorsFacts.

Lemma extractBlocks_fallback_witness :
  extractBlocks noTS noBlocks noBlocks noBlocks noBlocks demoNotes =
  [ExtractedBlock.mk "notes.ts" TFile "const x = 1;" "src/util/notes.ts"
     "typescript" None 3] ∧
  extractBlocks noTS noBlocks noBlocks noBlocks noBlocks demoLong = [].
Proof.
  split.
  - apply (extractBlocks_fallback noTS noBlocks noBlocks noBlocks noBlocks demoNotes);
      [reflexivity | by vm_compute].
  - apply (extractBlocks_fallback noTS noBlocks noBlocks noBlocks noBlocks demoLong);
      [reflexivity | by vm_compute].
Defined.

(** ** The difficulty estimate *)

Lemma foldr_max_ge_base (a : Z) (l : list Z) : a ≤ foldr Z.max a l.
Proof. induction l as [|x l IH]; cbn; lia. Qed.

Lemma foldr_max_shift (a b : Z) (l : list Z) :
  foldr Z.max (Z.max a b) l = Z.max b (foldr Z.max a l).
Proof. induction l as [|x l IH]; cbn; lia. Qed.

(** The loop's [maxDepth] is the largest depth over all prefixes. *)
Lemma nestingLoop_prefixes code :
  ∀ d m, d ≤ m →
  nestingLoop code d m
  = foldr Z.max m (map (λ p, d + netDepth p) (prefixesOf code)).
Proof.
  induction code as [|c rest IH]; intros d m Hdm.
  - cbn. lia.
  - cbn [nestingLoop prefixesOf map foldr netDepth].
    set (d' := if bool_decide (c = braceClose)
               then (if bool_decide (c = braceOpen) then d + 1 else d) - 1
               else (if bool_decide (c = braceOpen) then d + 1 else d)).
    rewrite (IH d' (Z.max m d')) by lia.
    rewrite map_map. cbn [netDepth].
    assert (Hd' : ∀ p,
      d + ((if bool_decide (c = braceOpen) then 1 else 0)
           - (if bool_decide (c = braceClose) then 1 else 0) + netDepth p)
      = d' + netDepth p).
    { intros p. subst d'.
      destruct (bool_decide (c = braceOpen)), (bool_decide (c = braceClose)); lia. }
    rewrite (map_ext _ _ Hd').
    rewrite foldr_max_shift.
    pose proof (foldr_max_ge_base m (map (λ p, d' + netDepth p) (prefixesOf rest))).
    assert (d' ≤ foldr Z.max m (map (λ p, d' + netDepth p) (prefixesOf rest))).
    { destruct rest; cbn; lia. }
    lia.
Qed.

Lemma nestingLoop_maxRunningDepth code :
  nestingLoop code 0 0 = maxRunningDepth code.
Proof.
  rewrite nestingLoop_prefixes by lia. reflexivity.
Qed.

Lemma prefix_split (p s : string) :
  String.prefix p s = true → ∃ rest, s = p +:+ rest.
Proof.
  revert s; induction p as [|a p IH]; intros s Hp.
  - by exists s.
  - destruct s as [|b s]; [done|]. cbn in Hp.
    destruct (ascii_dec a b) as [->|]; [|done].
    destruct (IH _ Hp) as [rest ->]. by exists rest.
Qed.

Lemma append_assoc (s1 s2 s3 : string) :
  (s1 +:+ s2) +:+ s3 = s1 +:+ (s2 +:+ s3).
Proof.
  induction s1 as [|c s1 IH]; [done|]. rewrite !append_cons. by rewrite IH.
Qed.

Lemma length_append (s1 s2 : string) :
  String.length (s1 +:+ s2) = (String.length s1 + String.length s2)%nat.
Proof.
  induction s1 as [|c s1 IH]; [done|].
  rewrite append_cons. cbn [String.length]. by rewrite IH.
Qed.

Section CallSites.
(** The name of a function block: a first word character and more of them. *)
Variables (n1 : ascii) (name' : string).
Hypothesis Hn1 : isWordChar n1 = true.
Hypothesis Hname' : allWordChars name' = true.

Local Abbreviation pat := (String n1 name' +:+ "(").

Lemma pattern_not_at_paren rest : String.prefix pat (String "(" rest) = false.
Proof.
  rewrite append_cons. cbn.
  destruct (ascii_dec n1 "(") as [Heq|]; [|done].
  rewrite Heq in Hn1. done.
Qed.

(** No match starts inside a text just matched. *)
Lemma matched_text_quiet w :
  ∀ prev rest, isWordChar prev = true → allWordChars w = true →
  matchCount pat (Some prev) (String.length w + 1) (w +:+ String "(" rest)
    = matchCount pat (Some "("%char) 0 rest ∧
  callSitesFrom pat (Some prev) (w +:+ String "(" rest)
    = callSitesFrom pat (Some "("%char) rest.
Proof.
  induction w as [|c w IH]; intros prev rest Hprev Hw.
  - rewrite append_empty. cbn [String.length Nat.add matchCount callSitesFrom headChar].
    rewrite pattern_not_at_paren, andb_false_r. done.
  - cbn in Hw. apply andb_true_iff in Hw as [Hc Hw].
    rewrite (append_cons c w).
    cbn [String.length Nat.add matchCount callSitesFrom headChar].
    destruct (IH c rest Hc Hw) as [-> ->].
    unfold wordBoundary. cbn [from_option]. rewrite Hprev, Hc. done.
Qed.

Lemma matchCount_callSitesFrom :
  ∀ n code prev, (String.length code ≤ n)%nat →
  matchCount pat prev 0 code = callSitesFrom pat prev code.
Proof.
  induction n as [|n IH]; intros code prev Hlen.
  { destruct code; [|cbn in Hlen; lia]. cbn. by rewrite andb_false_r. }
  destruct code as [|c rest]; [cbn; by rewrite andb_false_r|].
  cbn [String.length] in Hlen.
  cbn [matchCount callSitesFrom headChar].
  destruct (wordBoundary prev (Some c) && String.prefix pat (String c rest))
    eqn:Hmatch.
  - apply andb_true_iff in Hmatch as [_ Hpre].
    apply prefix_split in Hpre as [rest' Hrest'].
    rewrite append_assoc, append_cons in Hrest'.
    change ("(" +:+ rest') with (String "(" rest') in Hrest'.
    injection Hrest' as -> ->.
    rewrite length_append. cbn [String.length].
    replace (S (String.length name') + 1 - 1)%nat
      with (String.length name' + 1)%nat by lia.
    destruct (matched_text_quiet name' n1 rest' Hn1 Hname') as [-> ->].
    rewrite IH; [done|].
    rewrite length_append in Hlen. cbn in Hlen. lia.
  - cbn [Nat.add]. apply IH. lia.
Qed.
End CallSites.

(** For an identifier name, the matches of the global regular expression
    are the call sites. *)
Lemma matchCount_callSites name code :
  isIdentifier name = true →
  matchCount (name +:+ "(") None 0 code = callSites name code.
Proof.
  destruct name as [|n1 name']; [done|]. cbn. intros [H1 H2]%andb_true_iff.
  by apply (matchCount_callSitesFrom n1 name' H1 H2 (String.length code)).
Qed.

Lemma two_step_decide (a b n : Z) :
  (if a <? n then 2 else if b <? n then 1 else 0)
  = (if decide (a < n) then 2 else if decide (b < n) then 1 else 0).
Proof.
  destruct (Z.ltb_spec a n), (Z.ltb_spec b n); repeat case_decide; lia.
Qed.

Lemma andb_decide (x y : bool) :
  (if x && y then 1 else 0) = (if decide (x = true ∧ y = true) then 1 else 0).
Proof.
  destruct x, y; case_decide as H; try done;
    first [by destruct H | by (exfalso; apply H)].
Qed.

Lemma orb_decide (x y : bool) :
  (if x || y then 1 else 0) = (if decide (x = true ∨ y = true) then 1 else 0).
Proof.
  destruct x, y; case_decide as H; try done;
    first [by destruct H | by (exfalso; apply H; auto)].
Qed.

(** The score as a sum of its five terms. *)
Lemma complexityOf_terms b :
  complexityOf b =
  let code := ExtractedBlock.code b in
  let n := ExtractedBlock.lineCount b in
  (if 20 <? n then 2 else if 10 <? n then 1 else 0)
  + (if 4 <? nestingLoop code 0 0 then 2
     else if 2 <? nestingLoop code 0 0 then 1 else 0)
  + (if includes code "<" && includes code ">" then 1 else 0)
  + (if includes code "async" || includes code "await" then 1 else 0)
  + (if bool_decide (ExtractedBlock.type b = TFunction) then
       if (1 <? matchCount (ExtractedBlock.name b +:+ "(") None 0 code)%nat
       then 2 else 0
     else 0).
Proof.
  unfold complexityOf. cbv zeta.
  repeat match goal with
         | |- context [if ?c then _ else _] => destruct c
         end; lia.
Qed.

Lemma complexityOf_spec b :
  (ExtractedBlock.type b = TFunction →
   isIdentifier (ExtractedBlock.name b) = true) →
  complexityOf b = specComplexity b.
Proof.
  intros Hname. rewrite complexityOf_terms. unfold specComplexity. cbv zeta.
  rewrite nestingLoop_maxRunningDepth, !two_step_decide, andb_decide, orb_decide.
  fold (asyncMarker (ExtractedBlock.code b)).
  do 4 f_equal.
  case_bool_decide as Hfn.
  - rewrite (matchCount_callSites _ _ (Hname Hfn)).
    destruct (Nat.ltb_spec 1
                (callSites (ExtractedBlock.name b) (ExtractedBlock.code b)));
      case_decide as Hd; try done; exfalso;
      first [by apply Hd | destruct Hd; lia].
  - case_decide as Hd; [by destruct Hd | done].
Qed.

Lemma estimateDifficulty_spec b :
  (ExtractedBlock.type b = TFunction →
   isIdentifier (ExtractedBlock.name b) = true) →
  estimateDifficulty b = specTier (specComplexity b).
Proof.
  intros Hname. unfold estimateDifficulty, specTier. cbv zeta.
  rewrite (complexityOf_spec b Hname).
  destruct (Z.leb_spec 4 (specComplexity b)), (Z.leb_spec 2 (specComplexity b));
    repeat case_decide; lia.
Qed.

(** C6, as amended: the difficulty of every generated card is the tier (3
    from a complexity of 4, 2 from 2, else 1) of the sum of: 2 above 20
    lines, else 1 above 10; 2 when the deepest running brace nesting
    exceeds 4, else 1 when it exceeds 2; 1 when the code has both angle
    brackets; 1 when it has an async marker; 2 for a function whose name,
    an identifier, occurs more than once as a call site in the code of the
    block, the declaration header included. *)
Theorem generateCards_difficulty (blocks : list ExtractedBlock.t)
    (maxCards i : nat) (b : ExtractedBlock.t) :
  take maxCards blocks !! i = Some b →
  (ExtractedBlock.type b = TFunction →
   isIdentifier (ExtractedBlock.name b) = true) →
  ∃ card,
    generateCards blocks maxCards !! i = Some card ∧
    CodeCard.title card = ExtractedBlock.name b ∧
    CodeCard.code card = ExtractedBlock.code b ∧
    CodeCard.difficulty card = specTier (specComplexity b).
Proof.
  intros Hb Hname. unfold generateCards.
  rewrite list_lookup_imap, Hb. cbn. eexists. split; [done|].
  cbn. split; [done|]. split; [done|]. by apply estimateDifficulty_spec.
Qed.

Lemma generateCards_difficulty_witness :
  ∃ card,
    generateCards [factBlock] MAX_CARDS !! 0%nat = Some card ∧
    CodeCard.title card = "fact" ∧
    CodeCard.code card = ExtractedBlock.code factBlock ∧
    CodeCard.difficulty card = specTier (specComplexity factBlock).
Proof.
  apply (generateCards_difficulty [factBlock] MAX_CARDS 0 factBlock).
  - reflexivity.
  - intros _. reflexivity.
Defined.

(** C6 as stated fails: [fact] calls itself once inside its body, so the
    claim gives no recursion bonus and difficulty 1; the source matches the
    name in the header [function fact(] too, counts two, and the card has
    difficulty 2. *)
Lemma recursion_bonus_counts_header :
  callSites "fact" (bodyOf (ExtractedBlock.code factBlock)) = 1%nat ∧
  callSites "fact" (ExtractedBlock.code factBlock) = 2%nat ∧
  specTier (claimedComplexity factBlock) = 1 ∧
  CodeCard.difficulty <$> generateCards [factBlock] MAX_CARDS !! 0%nat
  = Some 2.
Proof. by vm_compute. Qed.

(** A declaration whose header does not repeat the name as a call gets no
    bonus for one recursive call. *)
Example arrow_recursion_no_bonus :
  estimateDifficulty factBlock = 2 ∧
  estimateDifficulty
    (ExtractedBlock.mk "once" TFunction
       "export const once = (n) => n ? once(n - 1) : 0"
       "src/math.ts" "typescript" None 1) = 1.
Proof. by vm_compute. Qed.

(** ** The ingestion pipeline *)

Lemma generateCards_length blocks maxCards :
  length (generateCards blocks maxCards) = (maxCards `min` length blocks)%nat.
Proof. unfold generateCards. by rewrite length_imap, length_take. Qed.

Lemma bind_onStatus_snd {A : Type} (s : IngestStatus) (k : Ingest A) :
  (onStatus s;; k).2 = k.2.
Proof. unfold mbind, Ingest_bind, onStatus. by destruct k. Qed.

Lemma bind_await_snd {A B : Type} (outcome : string + A) (k : A → Ingest B) :
  (a ← await outcome; k a).2
  = match outcome with inl e => inl e | inr a => (k a).2 end.
Proof.
  unfold mbind, Ingest_bind, await. destruct outcome as [e|a]; [done|].
  by destruct (k a).
Qed.

Section IngestFacts.
Variable parseRepoInput : string → option (string * string).
Variable fetchRepo : string → string → string + RepoMeta.t.
Variable fetchTree : string → string → string → string + list TreeEntry.t.
Variable fetchFiles : string → string → list string → list FileContent.t.
Variable extractTS : string → FileContent.t → Language → list ExtractedBlock.t.
Variable extractPython : string → FileContent.t → list ExtractedBlock.t.
Variable extractRust : string → FileContent.t → list ExtractedBlock.t.
Variable extractGo : string → FileContent.t → list ExtractedBlock.t.
Variable extractSwift : string → FileContent.t → list ExtractedBlock.t.

Local Abbreviation ingest :=
  (ingestRepo parseRepoInput fetchRepo fetchTree fetchFiles
     extractTS extractPython extractRust extractGo extractSwift).

Local Abbreviation rankedOf :=
  (rankedBlocksOf fetchFiles extractTS extractPython extractRust extractGo
     extractSwift).

(** What [ingestRepo] throws or returns, stage by stage. *)
Lemma ingestRepo_outcome input :
  (ingest input).2 =
  match parseRepoInput input with
  | None => inl "Invalid repo format. Use owner/repo or a GitHub URL."
  | Some (owner, repo) =>
      match fetchRepo owner repo with
      | inl e => inl e
      | inr meta =>
          match fetchTree owner repo (RepoMeta.defaultBranch meta) with
          | inl e => inl e
          | inr tree =>
              if bool_decide (filterCodeFiles tree = []) then
                inl "No supported code files found in this repo."
              else if bool_decide (rankedOf owner repo tree = []) then
                inl "Couldn't extract any learnable code blocks."
              else
                inr (IngestResult.mk meta
                       (generateCards (rankedOf owner repo tree) MAX_CARDS))
          end
      end
  end.
Proof.
  unfold ingestRepo. rewrite bind_onStatus_snd.
  destruct (parseRepoInput input) as [[owner repo]|]; [|done].
  rewrite bind_onStatus_snd, bind_await_snd.
  destruct (fetchRepo owner repo) as [e|meta]; [done|].
  rewrite bind_onStatus_snd, bind_await_snd.
  destruct (fetchTree owner repo (RepoMeta.defaultBranch meta)) as [e|tree]; [done|].
  cbv zeta. fold (rankedOf owner repo tree).
  destruct (filterCodeFiles tree) as [|f fs] eqn:Hfiles; [done|].
  rewrite (bool_decide_eq_false_2 (length (f :: fs) = 0%nat)) by done.
  rewrite (bool_decide_eq_false_2 (f :: fs = [])) by done.
  rewrite !bind_onStatus_snd.
  destruct (rankedOf owner repo tree) as [|b bs] eqn:Hranked; [done|].
  rewrite (bool_decide_eq_false_2 (length (b :: bs) = 0%nat)) by done.
  rewrite (bool_decide_eq_false_2 (b :: bs = [])) by done.
  by rewrite !bind_onStatus_snd.
Qed.

(** C8: [ingestRepo] throws its "no supported code files" error when the
    filter leaves no file of the tree, and its "couldn't extract" error when
    extraction and ranking over the fetched files leave no block; when it
    returns, the card set is not empty. *)
Theorem ingestRepo_never_empty (input : string) :
  (∀ owner repo meta tree,
     parseRepoInput input = Some (owner, repo) →
     fetchRepo owner repo = inr meta →
     fetchTree owner repo (RepoMeta.defaultBranch meta) = inr tree →
     (filterCodeFiles tree = [] →
        (ingest input).2 = inl "No supported code files found in this repo.") ∧
     (filterCodeFiles tree ≠ [] → rankedOf owner repo tree = [] →
        (ingest input).2 = inl "Couldn't extract any learnable code blocks.")) ∧
  (∀ result, (ingest input).2 = inr result →
     IngestResult.cards result ≠ [] ∧
     last (ingest input).1 = Some (PhaseDone result)).
Proof.
  split.
  - intros owner repo meta tree Hparse Hrepo Htree.
    rewrite ingestRepo_outcome, Hparse, Hrepo, Htree.
    split.
    + intros ->. done.
    + intros Hfiles Hranked.
      rewrite (bool_decide_eq_false_2 _ Hfiles), Hranked. done.
  - intros result Hok. split.
    + rewrite ingestRepo_outcome in Hok.
      destruct (parseRepoInput input) as [[owner repo]|]; [|done].
      destruct (fetchRepo owner repo) as [e|meta]; [done|].
      destruct (fetchTree owner repo (RepoMeta.defaultBranch meta))
        as [e|tree]; [done|].
      destruct (bool_decide (filterCodeFiles tree = [])); [done|].
      case_bool_decide as Hranked; [done|].
      injection Hok as <-. cbn [IngestResult.cards].
      intros Hnil. apply (f_equal length) in Hnil.
      rewrite generateCards_length in Hnil. cbn in Hnil.
      destruct (rankedOf owner repo tree); [done|]. cbn in Hnil. lia.
    + revert Hok. unfold ingestRepo, mbind, Ingest_bind, onStatus, await, throwError.
      destruct (parseRepoInput input) as [[owner repo]|]; [|done].
      destruct (fetchRepo owner repo) as [e|meta]; [done|].
      destruct (fetchTree owner repo (RepoMeta.defaultBranch meta))
        as [e|tree]; [done|].
      cbv zeta.
      destruct (bool_decide (length (filterCodeFiles tree) = 0%nat)); [done|].
      destruct (bool_decide (length _ = 0%nat)); [done|].
      cbn. by intros [= <-].
Qed.
End IngestFacts.

Lemma ingestRepo_never_empty_witness :
  (ingestRepo demoParse demoFetchRepo demoFetchDocsTree demoFetchFiles
     demoTS noBlocks noBlocks noBlocks noBlocks "demo/math").2
  = inl "No supported code files found in this repo."
  ∧ (∃ result,
       (ingestRepo demoParse demoFetchRepo demoFetchTree demoFetchFiles
          demoTS noBlocks noBlocks noBlocks noBlocks "demo/math").2 = inr result
       ∧ IngestResult.cards result ≠ []).
Proof.
  split.
  - apply (ingestRepo_never_empty demoParse demoFetchRepo demoFetchDocsTree
             demoFetchFiles demoTS noBlocks noBlocks noBlocks noBlocks
             "demo/math") with (owner := "demo") (repo := "math") (meta := demoMeta)
             (tree := [TreeEntry.mk "README.md" Blob None]);
      by vm_compute.
  - eexists. split; [by vm_compute|].
    apply (ingestRepo_never_empty demoParse demoFetchRepo demoFetchTree
             demoFetchFiles demoTS noBlocks noBlocks noBlocks noBlocks "demo/math").
    by vm_compute.
Defined.

(** ** Side remarks on the deck *)

(** In a deck of two cards the hook alternates between them (the card just
    swiped is kept out of the next queue), and three rounds of confirms
    master both; the celebration then shows the card mastered last. *)
Example deck_two_cards_mastery :
  let st := runDeck [demoCard "a"; demoCard "b"]
              [Confirm 1; Confirm 2; Confirm 3; Confirm 4; Confirm 5; Confirm 6] in
  progress st !! "a" = Some (CardProgress.mk "a" 3 true 5) ∧
  progress st !! "b" = Some (CardProgress.mk "b" 3 true 6) ∧
  justMasteredCard st = Some (demoCard "b") ∧
  lastSwipedId st = Some "b".
Proof. by vm_compute. Qed.

(** A deck of one card stalls after the first swipe: the queue excludes the
    card just swiped, so there is no current card to act on. *)
Example deck_single_card_stalls :
  currentCard [demoCard "a"] (runDeck [demoCard "a"] [Confirm 1]) = None ∧
  runDeck [demoCard "a"] [Confirm 1; Confirm 2; Confirm 3]
  = runDeck [demoCard "a"] [Confirm 1].
Proof. by vm_compute. Qed.

(** The older reject, which counts instead of resetting, does not keep the
    invariant: three rejects leave a count of 3 on a card not mastered. *)
Example legacy_reject_breaks_invariant :
  let m := swipeLeftUpdaterLegacy "a" 3
             (swipeLeftUpdaterLegacy "a" 2 (swipeLeftUpdaterLegacy "a" 1 ∅)) in
  m !! "a" = Some (CardProgress.mk "a" 3 false 3) ∧ ¬ progressInvariant m.
Proof.
  split; [by vm_compute|].
  intros Hinv. specialize (Hinv "a" (CardProgress.mk "a" 3 false 3)).
  destruct Hinv as [_ Hinv]; [by vm_compute|]. cbn in Hinv.
  by specialize (Hinv ltac:(lia)).
Qed.

(* ================================================================== *)
(** * Part III: further properties of the code *)
(* ================================================================== *)

(** ** The queue and the deck hook *)

Lemma buildQueue_length cards progress j :
  (length (buildQueue cards progress j)
   + length (List.filter (excluded progress j) cards))%nat = length cards.
Proof.
  assert (Hperm : Permutation (buildQueue cards progress j)
            (List.filter (λ c, negb (excluded progress j c)) cards)).
  { apply (Permutation_count_occ CodeCard_eq_dec). intros c.
    rewrite buildQueue_count, count_occ_filter.
    by destruct (excluded progress j c). }
  rewrite (Permutation_length Hperm). clear Hperm.
  induction cards as [|c cards IH]; [done|]. cbn [List.filter].
  destruct (excluded progress j c); cbn [negb length]; lia.
Qed.

Lemma filter_key_NoDup {A K : Type} `{EqDecision K} (f : A → K) (k : K)
    (l : list A) :
  NoDup (map f l) →
  (length (List.filter (λ x, bool_decide (f x = k)) l) ≤ 1)%nat.
Proof.
  induction l as [|x l IH]; cbn; [lia|]. intros Hnd.
  apply NoDup_cons in Hnd as [Hx Hnd]. specialize (IH Hnd).
  case_bool_decide as Hk; cbn; [|done].
  assert (List.filter (λ y, bool_decide (f y = k)) l = []) as ->; [|cbn; lia].
  apply filter_none. apply List.Forall_forall. intros y Hy.
  apply bool_decide_eq_false. intros Hyk. apply Hx.
  rewrite list_elem_of_In, in_map_iff. exists y. split; [congruence | done].
Qed.

Lemma filter_length_le {A : Type} (f g : A → bool) (l : list A) :
  (∀ x, f x = true → g x = true) →
  (length (List.filter f l) ≤ length (List.filter g l))%nat.
Proof.
  intros Himp. induction l as [|x l IH]; cbn; [lia|].
  destruct (f x) eqn:Hf; [rewrite (Himp _ Hf); cbn; lia|].
  destruct (g x); cbn; lia.
Qed.

(** X1: in a deck whose cards have pairwise distinct ids the queue leaves
    out at most one card, so a deck of two or more cards always has a
    current card. *)
Theorem buildQueue_misses_at_most_one (cards : list CodeCard.t)
    (progress : gmap string CardProgress.t) (justSwipedId : option string) :
  NoDup (map CodeCard.id cards) →
  (length cards ≤ S (length (buildQueue cards progress justSwipedId)))%nat ∧
  ((2 ≤ length cards)%nat →
   ∃ c, head (buildQueue cards progress justSwipedId) = Some c ∧ In c cards).
Proof.
  intros Hnd.
  assert (Hex : (length (List.filter (excluded progress justSwipedId) cards) ≤ 1)%nat).
  { destruct justSwipedId as [j|].
    - etrans; [|apply (filter_key_NoDup CodeCard.id j cards Hnd)].
      apply filter_length_le. intros c. unfold excluded.
      intros [_ Hid]%andb_true_iff. apply bool_decide_eq_true in Hid.
      apply bool_decide_eq_true. congruence.
    - rewrite filter_none; [cbn; lia|]. apply List.Forall_forall. intros c _.
      unfold excluded. rewrite (bool_decide_eq_false_2 (Some _ = None)) by done.
      apply andb_false_r. }
  pose proof (buildQueue_length cards progress justSwipedId) as Hlen.
  split; [lia|]. intros Hmany.
  destruct (buildQueue cards progress justSwipedId) as [|c q] eqn:Hq;
    [cbn in Hlen; lia|].
  exists c. split; [done|].
  apply (buildQueue_In cards progress justSwipedId c). rewrite Hq. by left.
Qed.

Lemma buildQueue_misses_at_most_one_witness :
  ∃ c, head (buildQueue [demoCard "a"; demoCard "b"; demoCard "c"]
               demoProgress (Some "b")) = Some c
       ∧ In c [demoCard "a"; demoCard "b"; demoCard "c"].
Proof.
  apply (buildQueue_misses_at_most_one
           [demoCard "a"; demoCard "b"; demoCard "c"] demoProgress (Some "b")).
  - apply (bool_decide_unpack _). by vm_compute.
  - cbn. lia.
Defined.

Lemma currentCard_In cards st card :
  currentCard cards st = Some card → In card cards.
Proof.
  unfold currentCard. intros Hhead.
  apply (buildQueue_In cards (progress st) (lastSwipedId st) card).
  destruct (buildQueue cards (progress st) (lastSwipedId st)); [done|].
  injection Hhead as ->. by left.
Qed.

Lemma swipeRight_current cards now st card :
  currentCard cards st = Some card →
  swipeRight cards now st =
  mkDeck (swipeRightUpdater (CodeCard.id card) now (progress st)).1
    (Some (CodeCard.id card))
    (if (swipeRightUpdater (CodeCard.id card) now (progress st)).2
     then Some card else justMasteredCard st).
Proof. intros Hcur. unfold swipeRight. by rewrite Hcur. Qed.

Lemma swipeLeft_current cards now st card :
  currentCard cards st = Some card →
  swipeLeft cards now st =
  mkDeck (swipeLeftUpdater (CodeCard.id card) now (progress st))
    (Some (CodeCard.id card)) (justMasteredCard st).
Proof. intros Hcur. unfold swipeLeft. by rewrite Hcur. Qed.

Lemma swipeUp_current cards st card :
  currentCard cards st = Some card →
  swipeUp cards st =
  mkDeck (progress st) (Some (CodeCard.id card)) (justMasteredCard st).
Proof. intros Hcur. unfold swipeUp. by rewrite Hcur. Qed.

(** With an entry for [id] and [id] as the last swiped id, the queue is the
    deck without the cards of that id. *)
Lemma buildQueue_without (cards : list CodeCard.t)
    (progress : gmap string CardProgress.t) (id : string) :
  is_Some (progress !! id) →
  ∀ c, In c (buildQueue cards progress (Some id))
       ↔ In c cards ∧ CodeCard.id c ≠ id.
Proof.
  intros [p Hp] c. rewrite buildQueue_In. unfold excluded, tierOf.
  split; intros [Hin Hc]; (split; [done|]).
  - intros Heq. rewrite Heq, Hp in Hc.
    rewrite (bool_decide_eq_true_2 (Some id = Some id)) in Hc by done.
    by destruct (CardProgress.mastered p).
  - rewrite (bool_decide_eq_false_2 (Some (CodeCard.id c) = Some id))
      by congruence.
    apply andb_false_r.
Qed.

(** X2: once the current card is confirmed or rejected, or skipped while
    it has review state, the next queue holds every card of the deck except
    those with the id just acted upon: a card is never shown twice in a
    row. *)
Theorem acted_card_leaves_queue (cards : list CodeCard.t) (now : Z)
    (st : DeckState) (card : CodeCard.t) :
  currentCard cards st = Some card →
  let queueOf st' := buildQueue cards (progress st') (lastSwipedId st') in
  (∀ c, In c (queueOf (swipeRight cards now st))
        ↔ In c cards ∧ CodeCard.id c ≠ CodeCard.id card) ∧
  (∀ c, In c (queueOf (swipeLeft cards now st))
        ↔ In c cards ∧ CodeCard.id c ≠ CodeCard.id card) ∧
  (is_Some (progress st !! CodeCard.id card) →
   ∀ c, In c (queueOf (swipeUp cards st))
        ↔ In c cards ∧ CodeCard.id c ≠ CodeCard.id card).
Proof.
  intros Hcur queueOf. subst queueOf. cbv beta.
  rewrite (swipeRight_current _ _ _ _ Hcur), (swipeLeft_current _ _ _ _ Hcur),
    (swipeUp_current _ _ _ Hcur). cbn [progress lastSwipedId].
  split; [|split].
  - apply buildQueue_without. rewrite swipeRightUpdater_lookup. by eexists.
  - apply buildQueue_without. rewrite swipeLeftUpdater_lookup. by eexists.
  - apply buildQueue_without.
Qed.

Lemma acted_card_leaves_queue_witness :
  In (demoCard "b")
     (buildQueue [demoCard "a"; demoCard "b"]
        (progress (swipeRight [demoCard "a"; demoCard "b"] 7 initialDeck))
        (lastSwipedId (swipeRight [demoCard "a"; demoCard "b"] 7 initialDeck)))
  ↔ In (demoCard "b") [demoCard "a"; demoCard "b"]
    ∧ CodeCard.id (demoCard "b") ≠ "a".
Proof.
  apply (acted_card_leaves_queue [demoCard "a"; demoCard "b"] 7 initialDeck
           (demoCard "a")).
  by vm_compute.
Defined.

(** While some card is unseen, the current card is the first unseen card of
    the deck, whatever was swiped last. *)
Lemma currentCard_first_unseen cards progress j :
  List.filter (isUnseen progress) cards ≠ [] →
  head (buildQueue cards progress j)
  = head (List.filter (isUnseen progress) cards).
Proof.
  unfold buildQueue. by destruct (List.filter (isUnseen progress) cards).
Qed.




Lemma DeckWf_initial cards : DeckWf cards initialDeck.
Proof. split; cbn; intros; by rewrite ?lookup_empty in *. Qed.

Lemma seenOr0_nonneg cards st id :
  DeckWf cards st → 0 ≤ seenOr0 (progress st) id.
Proof.
  intros Hwf. unfold seenOr0.
  destruct (progress st !! id) as [p|] eqn:Hp; [|done].
  by destruct (wf_entries _ _ Hwf _ _ Hp) as (_ & ? & _).
Qed.

Lemma DeckWf_deckStep cards st a :
  DeckWf cards st → DeckWf cards (deckStep cards st a).
Proof.
  intros Hwf.
  destruct (currentCard cards st) as [card|] eqn:Hcur.
  2:{ destruct a; cbn; unfold swipeRight, swipeLeft, swipeUp;
        by rewrite Hcur. }
  pose proof (currentCard_In _ _ _ Hcur) as Hin.
  destruct a as [now|now|]; cbn [deckStep].
  - rewrite (swipeRight_current _ _ _ _ Hcur). split; cbn [progress lastSwipedId justMasteredCard].
    + intros id p. destruct (decide (CodeCard.id card = id)) as [<-|Hne].
      * rewrite swipeRightUpdater_lookup. intros [= <-]. cbn [CardProgress.cardId CardProgress.seen CardProgress.mastered].
        pose proof (seenOr0_nonneg _ _ (CodeCard.id card) Hwf).
        split; [done|]. split; [lia|]. split; [unfold masteryInvariant; cbn; apply Z.leb_le|]. eauto.
      * rewrite swipeRightUpdater_other by done. apply Hwf.
    + intros id [= <-]. eauto.
    + destruct (swipeRightUpdater _ _ _).2; [by intros c [= <-] | apply Hwf].
  - rewrite (swipeLeft_current _ _ _ _ Hcur). split; cbn [progress lastSwipedId justMasteredCard].
    + intros id p. destruct (decide (CodeCard.id card = id)) as [<-|Hne].
      * rewrite swipeLeftUpdater_lookup. intros [= <-]. cbn.
        split; [done|]. split; [done|].
        split; [unfold masteryInvariant; cbn; split; [done | lia]|]. eauto.
      * rewrite swipeLeftUpdater_other by done. apply Hwf.
    + intros id [= <-]. eauto.
    + apply Hwf.
  - rewrite (swipeUp_current _ _ _ Hcur). split; cbn [progress lastSwipedId justMasteredCard].
    + apply Hwf.
    + intros id [= <-]. eauto.
    + apply Hwf.
Qed.

Lemma DeckWf_deckEvent cards st e :
  DeckWf cards st → DeckWf cards (deckEvent cards st e).
Proof.
  intros Hwf. destruct e as [a| |]; cbn [deckEvent].
  - by apply DeckWf_deckStep.
  - split; cbn; [intros ??; by rewrite lookup_empty | done | apply Hwf].
  - split; cbn; [apply Hwf | apply Hwf | done].
Qed.

Lemma DeckWf_foldl cards events st :
  DeckWf cards st → DeckWf cards (foldl (deckEvent cards) st events).
Proof.
  revert st; induction events as [|e events IH]; intros st Hwf; [done|].
  cbn [foldl]. by apply IH, DeckWf_deckEvent.
Qed.

(** X4: whatever the user does (confirm, reject, skip, restart, dismiss
    the celebration), every stored review state sits under the id it
    carries, belongs to a card of the deck, has a count that is not
    negative and is mastered exactly from 3 on; the last swiped id and the
    celebrated card belong to the deck as well. *)
Theorem deck_states_well_formed (cards : list CodeCard.t)
    (events : list DeckEvent) :
  let st := runEvents cards events in
  (∀ id p, progress st !! id = Some p →
     CardProgress.cardId p = id ∧ 0 ≤ CardProgress.seen p ∧
     (CardProgress.mastered p = true ↔ 3 ≤ CardProgress.seen p) ∧
     ∃ c, In c cards ∧ CodeCard.id c = id) ∧
  (∀ id, lastSwipedId st = Some id → ∃ c, In c cards ∧ CodeCard.id c = id) ∧
  (∀ c, justMasteredCard st = Some c → In c cards).
Proof.
  destruct (DeckWf_foldl cards events initialDeck (DeckWf_initial cards))
    as [H1 H2 H3].
  cbv zeta. unfold runEvents. auto.
Qed.

Lemma deck_states_well_formed_witness :
  ∃ c, In c [demoCard "a"; demoCard "b"] ∧ CodeCard.id c = "b".
Proof.
  destruct (deck_states_well_formed [demoCard "a"; demoCard "b"]
              [Act (Confirm 1); Restart; Act Skip; Act (Confirm 2); Act (Reject 3)])
    as (_ & Hlast & _).
  apply Hlast. by vm_compute.
Defined.

(** X5: on every reachable state the dots of a card are lit from the left,
    and the third dot is lit exactly when the card's entry says mastered. *)
Theorem seen_dots_follow_mastery (cards : list CodeCard.t)
    (events : list DeckEvent) (id : string) :
  let entry := progress (runEvents cards events) !! id in
  let '(d1, d2, d3) := getSeenDots entry in
  (d3 = true → d2 = true) ∧ (d2 = true → d1 = true) ∧
  (d3 = true ↔ ∃ p, entry = Some p ∧ CardProgress.mastered p = true) ∧
  (entry = None → d1 = false).
Proof.
  cbv zeta.
  pose proof (DeckWf_foldl cards events initialDeck (DeckWf_initial cards)) as Hwf.
  fold (runEvents cards events) in Hwf.
  destruct (progress (runEvents cards events) !! id) as [p|] eqn:Hp; cbn.
  - destruct (wf_entries _ _ Hwf _ _ Hp) as (_ & _ & Hinv & _).
    unfold masteryInvariant in Hinv.
    rewrite !Z.leb_le. split; [lia|]. split; [lia|]. split; [|done].
    rewrite <- Hinv. split; [by eauto|]. by intros (p' & [= <-] & ?).
  - split; [done|]. split; [done|]. split; [|done].
    split; [done | by intros (p' & ? & _)].
Qed.

Lemma masteredIds_insert (m : gmap string CardProgress.t) i x :
  m !! i = None →
  masteredIds (<[i:=x]> m)
  = if CardProgress.mastered x then {[i]} ∪ masteredIds m else masteredIds m.
Proof.
  intros Hi. unfold masteredIds. destruct (CardProgress.mastered x) eqn:Hx.
  - rewrite map_filter_insert_True by done. apply dom_insert_L.
  - rewrite map_filter_insert_False by (cbn; congruence).
    by rewrite delete_id.
Qed.

Lemma masteredIds_fresh (m : gmap string CardProgress.t) i :
  m !! i = None → i ∉ masteredIds m.
Proof.
  intros Hi. unfold masteredIds. rewrite elem_of_dom.
  intros [p Hp]. apply map_lookup_filter_Some in Hp as [Hp _]. congruence.
Qed.

(** The count the hook shows is the number of ids with a mastered entry. *)
Lemma masteredCount_size (m : gmap string CardProgress.t) :
  masteredCount m = size (masteredIds m).
Proof.
  unfold masteredCount.
  induction m as [|i x m Hi IH] using map_ind.
  - by rewrite map_to_list_empty.
  - rewrite (masteredIds_insert _ _ _ Hi).
    assert (Hlen : length (List.filter CardProgress.mastered
                     (map snd (map_to_list (<[i:=x]> m))))
                   = length (List.filter CardProgress.mastered
                       (map snd ((i, x) :: map_to_list m)))).
    { apply Permutation_length.
      apply (Permutation_count_occ CardProgress_eq_dec). intros p.
      rewrite !count_occ_filter. destruct (CardProgress.mastered p); [|done].
      apply (Permutation_count_occ CardProgress_eq_dec).
      apply Permutation_map. by apply map_to_list_insert. }
    rewrite Hlen. cbn [map snd List.filter].
    destruct (CardProgress.mastered x); cbn [length]; rewrite IH; [|done].
    rewrite size_union, size_singleton; [done|].
    apply disjoint_singleton_l. by apply masteredIds_fresh.
Qed.

Lemma elem_of_masteredIds (m : gmap string CardProgress.t) i :
  i ∈ masteredIds m ↔ ∃ p, m !! i = Some p ∧ CardProgress.mastered p = true.
Proof.
  unfold masteredIds. rewrite elem_of_dom. split.
  - intros [p Hp]. apply map_lookup_filter_Some in Hp. by exists p.
  - intros (p & Hp & Hm). exists p. by apply map_lookup_filter_Some.
Qed.

(** X6: for a deck of cards with pairwise distinct ids, in every reachable
    state, [allMastered] holds exactly when the deck is not empty and each
    of its cards has an entry that says mastered. *)
Theorem allMastered_means_every_card (cards : list CodeCard.t)
    (events : list DeckEvent) :
  NoDup (map CodeCard.id cards) →
  allMastered cards (runEvents cards events) = true ↔
  cards ≠ [] ∧
  ∀ c, In c cards → isMasteredIn (progress (runEvents cards events)) c.
Proof.
  intros Hnd.
  pose proof (DeckWf_foldl cards events initialDeck (DeckWf_initial cards)) as Hwf.
  fold (runEvents cards events) in Hwf.
  set (st := runEvents cards events) in *.
  set (ids := list_to_set (map CodeCard.id cards) : gset string).
  assert (Hsize : size ids = length cards).
  { unfold ids. rewrite size_list_to_set by done. apply length_map. }
  assert (Hsub : masteredIds (progress st) ⊆ ids).
  { intros i (p & Hp & _)%elem_of_masteredIds.
    destruct (wf_entries _ _ Hwf _ _ Hp) as (_ & _ & _ & c & Hc & <-).
    unfold ids. rewrite elem_of_list_to_set, list_elem_of_In. by apply in_map. }
  unfold allMastered. rewrite andb_true_iff, Nat.leb_le, Nat.ltb_lt.
  rewrite masteredCount_size. split.
  - intros [Hcount Hpos]. split; [by destruct cards; cbn in *; try lia|].
    intros c Hc. apply elem_of_masteredIds.
    apply (set_subseteq_size_equiv _ _ Hsub); [lia|].
    unfold ids. rewrite elem_of_list_to_set, list_elem_of_In. by apply in_map.
  - intros [Hne Hall]. split; [|destruct cards; cbn; [done | lia]].
    rewrite <- Hsize. apply subseteq_size. intros i.
    unfold ids. rewrite elem_of_list_to_set, list_elem_of_In, in_map_iff.
    intros (c & <- & Hc). apply elem_of_masteredIds. by apply Hall.
Qed.

Lemma allMastered_means_every_card_witness :
  allMastered [demoCard "a"; demoCard "b"]
    (runEvents [demoCard "a"; demoCard "b"]
       [Act (Confirm 1); Act (Confirm 2); Act (Confirm 3);
        Act (Confirm 4); Act (Confirm 5); Act (Confirm 6)]) = true ↔
  [demoCard "a"; demoCard "b"] ≠ [] ∧
  ∀ c, In c [demoCard "a"; demoCard "b"] →
    isMasteredIn
      (progress (runEvents [demoCard "a"; demoCard "b"]
         [Act (Confirm 1); Act (Confirm 2); Act (Confirm 3);
          Act (Confirm 4); Act (Confirm 5); Act (Confirm 6)])) c.
Proof.
  apply (allMastered_means_every_card [demoCard "a"; demoCard "b"]).
  apply (bool_decide_unpack _). by vm_compute.
Defined.

(** ** The block matchers *)

Lemma chars_append (s1 s2 : string) : chars (s1 +:+ s2) = chars s1 ++ chars s2.
Proof.
  induction s1 as [|c s1 IH]; [done|].
  rewrite append_cons. unfold chars in *. cbn. by rewrite IH.
Qed.

Lemma chars_length (s : string) : length (chars s) = String.length s.
Proof. induction s as [|c s IH]; [done|]. unfold chars in *. cbn. by rewrite IH. Qed.

Lemma chars_ofChars (l : list ascii) : chars (ofChars l) = l.
Proof. apply list_ascii_of_string_of_list_ascii. Qed.

Lemma ofChars_chars (s : string) : ofChars (chars s) = s.
Proof. apply string_of_list_ascii_of_string. Qed.

(** [extractBraceBlock] through the one-pass reading. *)
Lemma extractBraceBlock_findClose source startIdx :
  extractBraceBlock source startIdx =
  (λ k, ofChars (take k (drop startIdx (chars source))))
    <$> findClose scanStart 0 (drop startIdx (chars source)).
Proof.
  unfold extractBraceBlock.
  rewrite (braceLoop_findClose (chars source) startIdx _ startIdx 0 false eq_refl)
    by lia.
  rewrite Nat.sub_diag. change (mkScan InCode 0 false) with scanStart.
  by destruct (findClose scanStart 0 (drop startIdx (chars source))).
Qed.

Lemma findClose_gt text : ∀ s n m, findClose s n text = Some m → (n < m)%nat.
Proof.
  induction text as [|c rest IH]; intros s n m; cbn; [done|].
  destruct (closesAt s c); [intros [= <-]; lia|].
  intros Hm%IH. lia.
Qed.

Lemma findClose_app text more :
  ∀ s n m, findClose s n text = Some m → findClose s n (text ++ more) = Some m.
Proof.
  induction text as [|c rest IH]; intros s n m; cbn; [done|].
  destruct (closesAt s c); [done | apply IH].
Qed.

Lemma findClose_take text :
  ∀ s n m, findClose s n text = Some m →
  findClose s n (take (m - n) text) = Some m.
Proof.
  induction text as [|c rest IH]; intros s n m; cbn [findClose]; [done|].
  destruct (closesAt s c) eqn:Hat.
  - intros [= <-]. replace (S n - n)%nat with 1%nat by lia.
    cbn. by rewrite Hat.
  - intros Hm. pose proof (findClose_gt _ _ _ _ Hm).
    replace (m - n)%nat with (S (m - S n)) by lia.
    cbn [take findClose]. rewrite Hat. by apply IH.
Qed.

Lemma findClose_bound text :
  ∀ s n m, findClose s n text = Some m → (m ≤ n + length text)%nat.
Proof.
  induction text as [|c rest IH]; intros s n m; cbn; [done|].
  destruct (closesAt s c); [intros [= <-]; lia|].
  intros Hm%IH. lia.
Qed.

(** X7: what [extractBraceBlock] returns depends only on the text from the
    offset up to the closing brace it stops at: text before the offset and
    text appended after the source do not change a block that was found,
    and matching the returned block again from its start returns it
    whole. *)
Theorem extractBraceBlock_local (source : string) (startIdx : nat)
    (block : string) :
  extractBraceBlock source startIdx = Some block →
  (∀ before, extractBraceBlock (before +:+ source)
               (String.length before + startIdx) = Some block) ∧
  (∀ after, extractBraceBlock (source +:+ after) startIdx = Some block) ∧
  extractBraceBlock block 0 = Some block.
Proof.
  rewrite extractBraceBlock_findClose.
  destruct (findClose scanStart 0 (drop startIdx (chars source))) as [k|] eqn:Hk;
    [|done].
  cbn. intros [= <-].
  pose proof (findClose_take _ _ _ _ Hk) as Htake.
  pose proof (findClose_bound _ _ _ _ Hk) as Hbound.
  rewrite Nat.sub_0_r in Htake. cbn in Hbound.
  split; [|split].
  - intros before. rewrite extractBraceBlock_findClose, chars_append.
    rewrite <- chars_length, <- drop_drop, drop_app_length.
    by rewrite Hk.
  - intros after. rewrite extractBraceBlock_findClose, chars_append.
    assert (Hlen : (startIdx < length (chars source))%nat).
    { destruct (decide (startIdx < length (chars source))%nat); [done|].
      rewrite drop_ge in Hk by lia. done. }
    rewrite drop_app_le by lia.
    rewrite (findClose_app _ _ _ _ _ Hk). cbn. f_equal. f_equal.
    by rewrite take_app_le by lia.
  - rewrite extractBraceBlock_findClose, chars_ofChars, drop_0.
    rewrite Htake. cbn. by rewrite take_take, Nat.min_id.
Qed.

Lemma extractBraceBlock_local_witness :
  extractBraceBlock ("/** doc */ " +:+ "export function f() { return '}'; } // x")
    (String.length "/** doc */ " + 7)
  = Some "function f() { return '}'; }".
Proof.
  apply (extractBraceBlock_local "export function f() { return '}'; } // x" 7
           "function f() { return '}'; }").
  by vm_compute.
Defined.

Lemma scanStep_opened s c :
  opened (scanStep s c) = true → opened s = true ∨ c = braceOpen.
Proof.
  unfold scanStep.
  destruct (mode s); repeat case_bool_decide; try destruct (isQuote c);
    cbn; auto.
Qed.

Lemma findClose_needs_braces text :
  ∀ s n m, findClose s n text = Some m →
  In braceClose text ∧ (opened s = true ∨ In braceOpen text).
Proof.
  induction text as [|c rest IH]; intros s n m; cbn [findClose]; [done|].
  destruct (closesAt s c) eqn:Hat.
  - intros _. unfold closesAt in Hat. rewrite !andb_true_iff in Hat.
    destruct Hat as [[[_ Hc] Ho] _]. apply bool_decide_eq_true in Hc.
    split; [by left | by left].
  - intros Hm. destruct (IH _ _ _ Hm) as [Hclose Hopen].
    split; [by right|].
    destruct Hopen as [Hopen|Hopen]; [|right; by right].
    destruct (scanStep_opened _ _ Hopen) as [Ho|Hc]; [by left|right; by left].
Qed.

(** X8: [extractBraceBlock] returns [null] when the offset is at or past
    the end of the source, and when the text from the offset lacks an
    opening brace or lacks a closing brace. *)
Theorem extractBraceBlock_null_without_braces (source : string) (startIdx : nat) :
  (String.length source ≤ startIdx)%nat ∨
  ¬ In braceOpen (drop startIdx (chars source)) ∨
  ¬ In braceClose (drop startIdx (chars source)) →
  extractBraceBlock source startIdx = None.
Proof.
  intros Hcase. rewrite extractBraceBlock_findClose.
  destruct (findClose scanStart 0 (drop startIdx (chars source))) as [k|] eqn:Hk;
    [|done].
  exfalso. destruct (findClose_needs_braces _ _ _ _ Hk) as [Hclose Hopen].
  destruct Hcase as [Hlen|[Hno|Hno]].
  - rewrite drop_ge in Hclose by (rewrite chars_length; lia). done.
  - destruct Hopen as [Hopen|Hopen]; [done | by apply Hno].
  - by apply Hno.
Qed.

Lemma extractBraceBlock_null_without_braces_witness :
  extractBraceBlock "type Id = string;" 0 = None.
Proof.
  apply (extractBraceBlock_null_without_braces "type Id = string;" 0).
  right. left. apply (bool_decide_unpack _). by vm_compute.
Defined.

Lemma split_nonempty sep s : split sep s ≠ [].
Proof.
  destruct s as [|c s]; cbn; [done|].
  destruct (bool_decide (c = sep)); [done|]. by destruct (split sep s).
Qed.

Lemma concat_cons2 sep (x y : string) (l : list string) :
  String.concat sep (x :: y :: l) = x +:+ sep +:+ String.concat sep (y :: l).
Proof. reflexivity. Qed.

(** Joining what [split] returns gives the text back. *)
Lemma concat_split sep s :
  String.concat (String sep EmptyString) (split sep s) = s.
Proof.
  induction s as [|c s IH]; [done|]. cbn [split].
  pose proof (split_nonempty sep s) as Hne.
  destruct (split sep s) as [|seg segs]; [done|].
  case_bool_decide as Hc.
  - subst c. rewrite concat_cons2, IH. done.
  - destruct segs as [|seg' segs].
    + cbn in IH |- *. by rewrite IH.
    + rewrite concat_cons2 in IH |- *. rewrite append_cons. by rewrite IH.
Qed.

Lemma startsWith_refl s : startsWith s s.
Proof.
  exists EmptyString. induction s as [|c s IH]; [done|].
  rewrite append_cons. by rewrite <- IH.
Qed.

Lemma startsWith_trans a b c : startsWith a b → startsWith b c → startsWith a c.
Proof.
  intros [r1 ->] [r2 ->]. exists (r2 +:+ r1). apply append_assoc.
Qed.

Lemma trimEnd_startsWith s : startsWith s (trimEnd s).
Proof.
  induction s as [|c s [rest IH]]; [by exists EmptyString|].
  cbn [trimEnd]. destruct (trimEnd s) as [|k kept] eqn:Hk.
  - destruct (isSpace c); [by exists (String c s)|].
    exists s. by rewrite append_cons, append_empty.
  - exists rest. rewrite append_cons. by rewrite <- IH.
Qed.

Lemma concat_startsWith sep (l1 l2 : list string) :
  l1 ≠ [] →
  startsWith (String.concat sep (l1 ++ l2)) (String.concat sep l1).
Proof.
  intros Hne. induction l1 as [|x l1 IH]; [done|].
  destruct l1 as [|y l1].
  - cbn. destruct l2 as [|z l2]; [apply startsWith_refl|]. by eexists.
  - destruct (IH ltac:(done)) as [rest Hrest].
    cbn [app String.concat] in *. rewrite Hrest.
    exists rest. by rewrite !append_assoc.
Qed.

Lemma indentLoop_prefix baseIndent lines :
  ∃ rest, lines = indentLoop baseIndent lines ++ rest.
Proof.
  induction lines as [|line lines [rest IH]]; [by exists []|].
  cbn [indentLoop].
  destruct (String.eqb (trim line) EmptyString);
    [exists rest; cbn; congruence|].
  destruct (leadingSpaces line <? baseIndent)%nat;
    [exists (line :: lines); reflexivity|].
  exists rest. cbn. congruence.
Qed.

Lemma newlines_split_single s : newlines s = 0%nat ↔ split newline s = [s].
Proof.
  pose proof (split_newline_length s) as Hlen.
  pose proof (concat_split newline s) as Hcat.
  split.
  - intros Hz. rewrite Hz in Hlen.
    destruct (split newline s) as [|x [|y l]]; cbn in Hlen; try lia.
    cbn in Hcat. by rewrite Hcat.
  - intros Hs. rewrite Hs in Hlen. cbn in Hlen. lia.
Qed.

(** Every line the loop keeps is blank or indented at least as far as the
    body. *)
Lemma indentLoop_indented baseIndent lines :
  Forall (λ line, trim line = EmptyString
                  ∨ (baseIndent ≤ leadingSpaces line)%nat)
         (indentLoop baseIndent lines).
Proof.
  induction lines as [|line lines IH]; cbn [indentLoop]; [constructor|].
  destruct (String.eqb_spec (trim line) EmptyString) as [He|Hne].
  - constructor; [by left | done].
  - destruct (Nat.ltb_spec (leadingSpaces line) baseIndent); [constructor|].
    constructor; [by right | done].
Qed.

(** The segments [split] returns hold no separator. *)
Lemma split_first_single sep t :
  ∀ first rest, split sep t = first :: rest → split sep first = [first].
Proof.
  induction t as [|c t IH]; intros first rest; cbn [split].
  - by intros [= <- _].
  - case_bool_decide as Hc; [by intros [= <- _]|].
    destruct (split sep t) as [|seg segs] eqn:Ht.
    + by intros [= <- _]; cbn; rewrite bool_decide_eq_false_2.
    + intros [= <- _]. cbn [split]. rewrite bool_decide_eq_false_2 by done.
      by rewrite (IH seg segs eq_refl).
Qed.

(** X9: [extractIndentBlock] returns [null] exactly when no newline follows
    the offset; otherwise the block it returns is the beginning of the text
    from the offset, and it is the first line alone when the second line is
    not indented. *)
Theorem extractIndentBlock_spec (source : string) (startIdx : nat) :
  let text := dropStr startIdx source in
  (extractIndentBlock source startIdx = None ↔ newlines text = 0%nat) ∧
  (∀ block, extractIndentBlock source startIdx = Some block →
     startsWith text block) ∧
  (∀ first second others,
     split newline text = first :: second :: others →
     leadingSpaces second = 0%nat →
     extractIndentBlock source startIdx = Some first ∧ newlines first = 0%nat).
Proof.
  cbv zeta. unfold extractIndentBlock.
  pose proof (concat_split newline (dropStr startIdx source)) as Hcat.
  pose proof (split_newline_length (dropStr startIdx source)) as Hlen.
  destruct (split newline (dropStr startIdx source)) as [|first [|second others]]
    eqn:Hsplit.
  - by apply split_nonempty in Hsplit.
  - split; [|split; [done|done]]. cbn in Hlen. split; [intros _; lia | done].
  - assert (Hfirst : startsWith (dropStr startIdx source) first).
    { rewrite <- Hcat. cbn. by eexists. }
    split; [|split].
    + cbn in Hlen. split; [by destruct (_ =? _)%nat | lia].
    + intros block. destruct (Nat.eqb_spec (leadingSpaces second) 0).
      * by intros [= <-].
      * intros [= <-].
        eapply startsWith_trans; [|apply trimEnd_startsWith].
        destruct (indentLoop_prefix (leadingSpaces second) (second :: others))
          as [rest Hrest].
        rewrite <- Hcat. rewrite Hrest at 1.
        exact (concat_startsWith (String newline EmptyString)
                 (first :: indentLoop (leadingSpaces second) (second :: others))
                 rest ltac:(done)).
    + intros f s o [= <- <- <-] Hzero. rewrite Hzero. cbn. split; [done|].
      apply newlines_split_single. by eapply split_first_single.
Qed.

Lemma extractIndentBlock_spec_witness :
  startsWith (dropStr 0 demoPy) ("def f():" +:+ String newline "  return 1")
  ∧ extractIndentBlock demoPy 9 = Some "  return 1".
Proof.
  destruct (extractIndentBlock_spec demoPy 0) as (_ & Hstarts & _).
  destruct (extractIndentBlock_spec demoPy 9) as (_ & _ & Hfirst).
  split.
  - apply Hstarts. by vm_compute.
  - apply (Hfirst "  return 1" "x = 2" []); by vm_compute.
Defined.

(** ** Generated cards *)

Lemma pretty_N_go_digits (x : N) :
  ∀ s, allDigits s = true → allDigits (pretty_N_go x s) = true.
Proof.
  induction (N.lt_wf_0 x) as [x _ IH]; intros s Hs.
  destruct (decide (x = 0)%N) as [->|Hx]; [by rewrite pretty_N_go_0|].
  rewrite pretty_N_go_step by lia. apply IH; [apply N.div_lt; lia|].
  cbn [allDigits]. rewrite Hs, andb_true_r.
  unfold pretty_N_char. by repeat case_match.
Qed.

(** An array index prints as a run of decimal digits. *)
Lemma pretty_nat_digits (i : nat) : allDigits (pretty i) = true.
Proof.
  unfold pretty, pretty_nat, pretty, pretty_N.
  case_decide; [done|]. by apply pretty_N_go_digits.
Qed.

(** A run of digits before a dash is read off unambiguously. *)
Lemma digits_dash_inj (d1 : string) :
  ∀ d2 r1 r2, allDigits d1 = true → allDigits d2 = true →
  d1 +:+ String "-" r1 = d2 +:+ String "-" r2 → d1 = d2 ∧ r1 = r2.
Proof.
  induction d1 as [|c d1 IH]; intros [|c' d2] r1 r2 Hd1 Hd2;
    rewrite ?append_cons, ?append_empty; intros Heq.
  - by injection Heq as ->.
  - injection Heq as <- _. done.
  - injection Heq as -> _. done.
  - injection Heq as -> Heq. cbn in Hd1, Hd2.
    apply andb_true_iff in Hd1 as [_ Hd1]. apply andb_true_iff in Hd2 as [_ Hd2].
    destruct (IH _ _ _ Hd1 Hd2 Heq) as [-> ->]. done.
Qed.

Lemma append_inv_head (s a b : string) : s +:+ a = s +:+ b → a = b.
Proof.
  induction s as [|c s IH]; rewrite ?append_empty, ?append_cons; [done|].
  intros [= Heq]. by apply IH.
Qed.

Lemma generateCards_lookup blocks maxCards i card :
  generateCards blocks maxCards !! i = Some card →
  ∃ block, take maxCards blocks !! i = Some block ∧
    CodeCard.id card = "gen-" +:+ pretty i +:+ "-" +:+ ExtractedBlock.name block ∧
    CodeCard.title card = ExtractedBlock.name block ∧
    CodeCard.explanation card = generateExplanation block ∧
    CodeCard.difficulty card = estimateDifficulty block.
Proof.
  unfold generateCards. rewrite list_lookup_imap.
  destruct (take maxCards blocks !! i) as [block|]; [|done].
  intros [= <-]. by exists block.
Qed.

(** The id of a generated card tells its position. *)
Lemma generateCards_id_position blocks maxCards i j c c' :
  generateCards blocks maxCards !! i = Some c →
  generateCards blocks maxCards !! j = Some c' →
  CodeCard.id c = CodeCard.id c' → i = j.
Proof.
  intros Hi Hj Hid.
  destruct (generateCards_lookup _ _ _ _ Hi) as (b & _ & Hc & _).
  destruct (generateCards_lookup _ _ _ _ Hj) as (b' & _ & Hc' & _).
  rewrite Hc, Hc' in Hid. apply append_inv_head in Hid.
  change ("-" +:+ ExtractedBlock.name b)
    with (String "-" (ExtractedBlock.name b)) in Hid.
  change ("-" +:+ ExtractedBlock.name b')
    with (String "-" (ExtractedBlock.name b')) in Hid.
  apply digits_dash_inj in Hid as [Hij _]; [|apply pretty_nat_digits..].
  by apply (inj pretty) in Hij.
Qed.

Lemma generateCards_NoDup blocks maxCards :
  NoDup (map CodeCard.id (generateCards blocks maxCards)).
Proof.
  apply NoDup_alt. intros i j id. rewrite !list_lookup_fmap.
  destruct (generateCards blocks maxCards !! i) as [c|] eqn:Hi; [|done].
  destruct (generateCards blocks maxCards !! j) as [c'|] eqn:Hj; [|done].
  cbn. intros [= <-] [= Hid]. by eapply generateCards_id_position.
Qed.

(** X10: the cards [generateCards] returns carry pairwise distinct ids,
    whatever the names of the blocks are, and the id of a card tells its
    position in the list. *)
Theorem generateCards_ids_distinct (blocks : list ExtractedBlock.t)
    (maxCards : nat) :
  NoDup (map CodeCard.id (generateCards blocks maxCards)) ∧
  (∀ i j c c', generateCards blocks maxCards !! i = Some c →
     generateCards blocks maxCards !! j = Some c' →
     CodeCard.id c = CodeCard.id c' → i = j).
Proof.
  split; [apply generateCards_NoDup|].
  intros i j c c'. apply generateCards_id_position.
Qed.

Lemma buildQueue_fresh (cards : list CodeCard.t) :
  buildQueue cards ∅ None = cards.
Proof.
  unfold buildQueue.
  rewrite (filter_all (isUnseen ∅) cards), (filter_none _ cards), (filter_none _ cards).
  - cbn. by rewrite app_nil_r.
  - apply Forall_forall. intros c _. unfold masteredFilter. by rewrite lookup_empty.
  - apply Forall_forall. intros c _. unfold needsWorkFilter. by rewrite lookup_empty.
  - apply Forall_forall. intros c _. unfold isUnseen. by rewrite lookup_empty.
Qed.

(** X11: [restart] brings the whole deck back in its original order: the
    queue is the card list itself, the first two cards are the current and
    the next one, nothing counts as mastered, and a celebration that was
    pending stays pending. *)
Theorem restart_brings_back_deck (cards : list CodeCard.t) (st : DeckState) :
  let st' := restart st in
  buildQueue cards (progress st') (lastSwipedId st') = cards ∧
  currentCard cards st' = head cards ∧
  nextCard cards st' = cards !! 1%nat ∧
  masteredCount (progress st') = 0%nat ∧
  allMastered cards st' = false ∧
  justMasteredCard st' = justMasteredCard st.
Proof.
  cbv zeta. unfold currentCard, nextCard, allMastered, restart.
  cbn [progress lastSwipedId justMasteredCard].
  rewrite buildQueue_fresh. repeat split.
  unfold masteredCount. rewrite map_to_list_empty. cbn.
  by destruct cards.
Qed.

Lemma generateExplanation_nonempty block : generateExplanation block ≠ EmptyString.
Proof.
  unfold generateExplanation.
  destruct (ExtractedBlock.jsDoc block) as [[|c doc]|];
    destruct (ExtractedBlock.type block); done.
Qed.

Lemma estimateDifficulty_range block : 1 ≤ estimateDifficulty block ≤ 3.
Proof. unfold estimateDifficulty. repeat case_match; lia. Qed.

(** X12: every card [generateCards] returns is made from the block at its
    position among the first [maxCards] blocks: it has the block's name as
    title, a difficulty of 1, 2 or 3, and an explanation that is never
    empty: the block's doc text when it has some, a generated sentence
    otherwise. *)
Theorem generated_cards_well_formed (blocks : list ExtractedBlock.t)
    (maxCards i : nat) (card : CodeCard.t) :
  generateCards blocks maxCards !! i = Some card →
  ∃ block, blocks !! i = Some block ∧ (i < maxCards)%nat ∧
    CodeCard.title card = ExtractedBlock.name block ∧
    1 ≤ CodeCard.difficulty card ≤ 3 ∧
    CodeCard.explanation card ≠ EmptyString ∧
    (∀ doc, ExtractedBlock.jsDoc block = Some doc → doc ≠ EmptyString →
       CodeCard.explanation card = doc).
Proof.
  intros Hcard.
  destruct (generateCards_lookup _ _ _ _ Hcard)
    as (block & Hblock & _ & Htitle & Hexp & Hdiff).
  apply lookup_take_Some in Hblock as [Hblock Hlt].
  exists block. rewrite Hexp, Hdiff.
  split; [done|]. split; [done|]. split; [done|].
  split; [apply estimateDifficulty_range|].
  split; [apply generateExplanation_nonempty|].
  intros doc Hdoc Hne. unfold generateExplanation. rewrite Hdoc.
  by destruct doc.
Qed.

Lemma generated_cards_well_formed_witness :
  ∃ block, [factBlock] !! 0%nat = Some block ∧ (0 < MAX_CARDS)%nat ∧
    CodeCard.title (CodeCard.mk "gen-0-fact" TFunction "fact" "src/math.ts"
                      (ExtractedBlock.code factBlock) "typescript"
                      (generateExplanation factBlock) 2)
    = ExtractedBlock.name block ∧
    1 ≤ 2 ≤ 3 ∧
    generateExplanation factBlock ≠ EmptyString ∧
    (∀ doc, ExtractedBlock.jsDoc block = Some doc → doc ≠ EmptyString →
       generateExplanation factBlock = doc).
Proof.
  apply (generated_cards_well_formed [factBlock] MAX_CARDS 0
           (CodeCard.mk "gen-0-fact" TFunction "fact" "src/math.ts"
              (ExtractedBlock.code factBlock) "typescript"
              (generateExplanation factBlock) 2)).
  by vm_compute.
Defined.

(** ** The file filter and the language table *)

Lemma dot_append_inv (a b : string) : "." +:+ a = "." +:+ b → a = b.
Proof. apply append_inv_head. Qed.

(** X13: the extension set of [filterCodeFiles] and the table of
    [detectLanguage] list the same extensions: a path has an extension of
    the set exactly when [detectLanguage] gives it a language name other
    than "text" (and not a member inherited from [Object.prototype], as
    for a path that ends in [.constructor]). So every file the filter lets
    through has such a language name; such a file also has no recorded
    size above 50000, and filtering twice changes nothing. *)
Theorem filterCodeFiles_languages (tree : list TreeEntry.t) :
  (∀ path, "." +:+ lastSegment "." path ∈ CODE_EXTENSIONS
           ↔ ∃ name, detectLanguage path = LangName name ∧ name ≠ "text") ∧
  Forall (λ entry,
            (∃ name, detectLanguage (TreeEntry.path entry) = LangName name
                     ∧ name ≠ "text") ∧
            from_option (λ size, size ≤ 50000) True (TreeEntry.size entry))
         (filterCodeFiles tree) ∧
  filterCodeFiles (filterCodeFiles tree) = filterCodeFiles tree.
Proof.
  assert (Htable : ∀ path, "." +:+ lastSegment "." path ∈ CODE_EXTENSIONS
            ↔ ∃ name, detectLanguage path = LangName name ∧ name ≠ "text").
  { intros path. unfold detectLanguage, CODE_EXTENSIONS.
    generalize (lastSegment "." path) as ext. intros ext.
    rewrite !elem_of_cons, elem_of_nil.
    repeat (match goal with
            | |- context [String.eqb ext ?s] =>
                destruct (String.eqb_spec ext s) as [->|?]
            end;
            [split; [intros _; eexists; split; [reflexivity|discriminate]
                    |intros _; repeat ((left; reflexivity) || right)]|]).
    split.
    - intros Hin. exfalso.
      repeat (destruct Hin as [Hin|Hin];
              [change (String "." ?s) with ("." +:+ s) in Hin;
               by apply dot_append_inv in Hin|]).
      done.
    - intros (name & Hname & Hne). exfalso.
      destruct (bool_decide (ext ∈ OBJECT_PROTOTYPE_MEMBERS)); [done|].
      injection Hname as <-. done. }
  split; [done|]. split.
  - apply List.Forall_forall. intros entry Hin.
    apply filter_In in Hin as [_ Hok].
    unfold isCodeFile in Hok.
    destruct (bool_decide _) eqn:Hext; [|done].
    apply bool_decide_eq_true in Hext. split; [by apply Htable|].
    repeat (destruct (includes _ _); [done|]).
    destruct (TreeEntry.size entry) as [size|]; [|done]. cbn in *.
    destruct (size =? 0) eqn:Hz; [lia|].
    destruct (50000 <? size) eqn:Hbig; [done|]. lia.
  - unfold filterCodeFiles. apply filter_all, filter_Forall_true.
Qed.

(** A path whose extension names an inherited member has no language name,
    and the filter does not let it through. *)
Example detectLanguage_inherited_member :
  detectLanguage "src/a.constructor" = InheritedMember "constructor" ∧
  detectLanguage "README" = LangName "text" ∧
  isCodeFile (TreeEntry.mk "src/a.constructor" Blob None) = false.
Proof. by vm_compute. Qed.

(** ** Fetching in batches *)

Section FetchFacts.
Variable fetchContent : string → option string.

Lemma fetchLoop_spec (selected : list string) (i : nat)
    (results : list FileContent.t) :
  fetchLoop fetchContent selected i results
  = results ++ omap (fetchOne fetchContent) (drop i selected).
Proof.
  funelim (fetchLoop fetchContent selected i results).
  - rewrite H. rewrite <- app_assoc. f_equal.
    rewrite <- (take_drop 8 (drop i selected)) at 2.
    rewrite omap_app, drop_drop. f_equal.
    generalize (take 8 (drop i selected)) as batch.
    induction batch as [|p batch IH]; [done|].
    cbn. destruct (fetchOne fetchContent p); cbn; by rewrite IH.
  - rewrite drop_ge by lia. by rewrite app_nil_r.
Qed.

(** X14: fetching in batches of eight does not show in the result:
    [fetchFiles] returns the files of the first [maxFiles] paths whose
    request succeeded, in the order of the paths, each with the path it
    was requested by; so it returns at most [maxFiles] files, and one for
    every selected path when no request fails. *)
Theorem fetchFiles_in_order (paths : list string) (maxFiles : nat) :
  let files := fetchFiles fetchContent paths maxFiles in
  files = omap (fetchOne fetchContent) (take maxFiles paths) ∧
  map FileContent.path files `sublist_of` take maxFiles paths ∧
  (length files ≤ maxFiles)%nat ∧
  Forall (λ file, fetchContent (FileContent.path file)
                  = Some (FileContent.content file)) files ∧
  (Forall (λ path, is_Some (fetchContent path)) (take maxFiles paths) →
   map FileContent.path files = take maxFiles paths).
Proof.
  cbv zeta. unfold fetchFiles. rewrite fetchLoop_spec, drop_0. cbn [app].
  assert (Hlen : (length (take maxFiles paths) ≤ maxFiles)%nat)
    by (rewrite length_take; lia).
  revert Hlen. generalize (take maxFiles paths). intros selected Hlen. split; [done|].
  assert (Hsub : map FileContent.path (omap (fetchOne fetchContent) selected)
                 `sublist_of` selected).
  { clear Hlen. induction selected as [|p selected IH]; [done|].
    cbn. unfold fetchOne at 1.
    destruct (fetchContent p); cbn; by constructor. }
  split; [done|]. split.
  { apply sublist_length in Hsub. rewrite length_map in Hsub. lia. }
  split.
  - clear. induction selected as [|p selected IH]; [done|].
    cbn. unfold fetchOne at 1.
    destruct (fetchContent p) eqn:Hp; cbn; [|done]. by constructor.
  - clear. induction selected as [|p selected IH]; [done|].
    intros Hall. apply Forall_cons in Hall as [[content Hp] Hall].
    cbn. unfold fetchOne at 1. rewrite Hp. cbn. by rewrite IH.
Qed.
End FetchFacts.

Lemma fetchFiles_in_order_witness :
  map FileContent.path
    (fetchFiles (λ path, Some path) ["src/a.ts"; "src/b.ts"; "src/c.ts"] 2)
  = take 2 ["src/a.ts"; "src/b.ts"; "src/c.ts"].
Proof.
  apply (fetchFiles_in_order (λ path, Some path)
           ["src/a.ts"; "src/b.ts"; "src/c.ts"] 2).
  repeat constructor; by eexists.
Defined.

(** ** The statuses [ingestRepo] reports *)

Section IngestLog.
Variable parseRepoInput : string → option (string * string).
Variable fetchRepo : string → string → string + RepoMeta.t.
Variable fetchTree : string → string → string → string + list TreeEntry.t.
Variable fetchFiles : string → string → list string → list FileContent.t.
Variable extractTS : string → FileContent.t → Language → list ExtractedBlock.t.
Variable extractPython : string → FileContent.t → list ExtractedBlock.t.
Variable extractRust : string → FileContent.t → list ExtractedBlock.t.
Variable extractGo : string → FileContent.t → list ExtractedBlock.t.
Variable extractSwift : string → FileContent.t → list ExtractedBlock.t.

Local Abbreviation ingest' :=
  (ingestRepo parseRepoInput fetchRepo fetchTree fetchFiles
     extractTS extractPython extractRust extractGo extractSwift).

(** X15: the statuses [ingestRepo] reports. The first is always "parsing";
    no status has the phase "error", whatever happens (reporting the error
    is left to the caller); a run that throws reports no "done"; an input
    that does not parse is rejected after "parsing" alone; and a run that
    returns has reported exactly seven statuses, of which the sixth
    announces the number of cards the result holds and the last is "done"
    with the result itself. *)
Theorem ingestRepo_status_log (input : string) :
  let log := (ingest' input).1 in
  head log = Some PhaseParsing ∧
  (∀ message, PhaseError message ∉ log) ∧
  (∀ e, (ingest' input).2 = inl e → ∀ result, PhaseDone result ∉ log) ∧
  (parseRepoInput input = None →
     ingest' input
     = ([PhaseParsing],
        inl "Invalid repo format. Use owner/repo or a GitHub URL.")) ∧
  (∀ result, (ingest' input).2 = inr result →
     ∃ owner repo tree,
       parseRepoInput input = Some (owner, repo) ∧
       fetchRepo owner repo = inr (IngestResult.meta result) ∧
       fetchTree owner repo (RepoMeta.defaultBranch (IngestResult.meta result))
         = inr tree ∧
       log =
       [PhaseParsing;
        PhaseFetching ("Loading " +:+ owner +:+ "/" +:+ repo +:+ "...");
        PhaseFetching "Scanning file tree...";
        PhaseFetching
          ("Reading " +:+ pretty (length (filterCodeFiles tree) `min` 40)%nat
           +:+ " files...");
        PhaseExtracting "Finding interesting code...";
        PhaseGenerating
          ("Creating " +:+ pretty (length (IngestResult.cards result))
           +:+ " cards...");
        PhaseDone result]).
Proof.
  cbv zeta. unfold ingestRepo, mbind, Ingest_bind, onStatus, await, throwError.
  destruct (parseRepoInput input) as [[owner repo]|]; cbn [fst snd app];
    [|repeat split; try done; intros; by (apply not_elem_of_cons; split;
                                           [|apply not_elem_of_nil])].
  destruct (fetchRepo owner repo) as [e|meta] eqn:Hrepo; cbn [fst snd app].
  { repeat split; try done; intros;
      repeat (apply not_elem_of_cons; split; [done|]); apply not_elem_of_nil. }
  destruct (fetchTree owner repo (RepoMeta.defaultBranch meta)) as [e|tree]
    eqn:Htree; cbn [fst snd app].
  { repeat split; try done; intros;
      repeat (apply not_elem_of_cons; split; [done|]); apply not_elem_of_nil. }
  cbv zeta.
  destruct (bool_decide (length (filterCodeFiles tree) = 0%nat));
    cbn [fst snd app].
  { repeat split; try done; intros;
      repeat (apply not_elem_of_cons; split; [done|]); apply not_elem_of_nil. }
  destruct (bool_decide (length _ = 0%nat)); cbn [fst snd app].
  { repeat split; try done; intros;
      repeat (apply not_elem_of_cons; split; [done|]); apply not_elem_of_nil. }
  split; [done|]. split.
  { intros; repeat (apply not_elem_of_cons; split; [done|]); apply not_elem_of_nil. }
  split; [done|]. split; [done|].
  intros result [= <-]. exists owner, repo, tree.
  cbn [IngestResult.meta IngestResult.cards].
  split; [done|]. split; [done|]. split; [done|].
  rewrite generateCards_length. unfold MAX_CARDS. by rewrite Nat.min_comm.
Qed.
End IngestLog.

Lemma ingestRepo_status_log_witness :
  ingestRepo demoParse demoFetchRepo demoFetchTree demoFetchFiles
    demoTS noBlocks noBlocks noBlocks noBlocks "facebook"
  = ([PhaseParsing], inl "Invalid repo format. Use owner/repo or a GitHub URL.").
Proof.
  apply (ingestRepo_status_log demoParse demoFetchRepo demoFetchTree
           demoFetchFiles demoTS noBlocks noBlocks noBlocks noBlocks "facebook").
  by vm_compute.
Defined.

(** ** Ranking twice *)

(** Sorting a list that is in order leaves it as it is. *)
Lemma js_sort_sorted_id {A : Type} (key : A → Z) (l : list A) :
  StronglySorted (λ a b, key a ≤ key b) l → js_sort (byKey key) l = l.
Proof.
  intros Hsorted. apply (stable_sorted_unique key); [apply js_sort_sorted|done|].
  intros k. apply js_sort_stable.
Qed.

Lemma dedupe_id blocks :
  ∀ seen, NoDup (map blockKey blocks) →
  (∀ b, In b blocks → blockKey b ∉ seen) → dedupe seen blocks = blocks.
Proof.
  induction blocks as [|b blocks IH]; intros seen Hnd Hfresh; [done|].
  cbn [dedupe]. apply NoDup_cons in Hnd as [Hb Hnd].
  rewrite bool_decide_eq_false_2 by (apply Hfresh; by left).
  f_equal. apply IH; [done|].
  intros b' Hin. apply not_elem_of_union. split; [|apply Hfresh; by right].
  apply not_elem_of_singleton. intros Heq. apply Hb.
  rewrite <- Heq. apply list_elem_of_In, in_map. done.
Qed.

Lemma NoDup_blockKey blocks :
  NoDup (map blockPair blocks) ↔ NoDup (map blockKey blocks).
Proof.
  induction blocks as [|b blocks IH]; cbn [map];
    [split; intros _; apply NoDup_nil_2|].
  rewrite !NoDup_cons, IH. split; intros [Hb Hnd]; (split; [|done]);
    intros Hin; apply Hb; apply list_elem_of_In in Hin;
    apply list_elem_of_In; apply in_map_iff in Hin as (b' & Heq & Hin);
    apply in_map_iff; exists b'; (split; [|done]); by apply blockKey_pair.
Qed.

(** X16: ranking is idempotent: ranking a ranked list returns it as it is.
    And a list in which no two blocks share name and type loses no block
    by ranking. *)
Theorem rankBlocks_idempotent (blocks : list ExtractedBlock.t) :
  rankBlocks (rankBlocks blocks) = rankBlocks blocks ∧
  (NoDup (map blockPair blocks) → Permutation (rankBlocks blocks) blocks).
Proof.
  assert (Hperm : Permutation (rankBlocks blocks) (dedupe ∅ blocks)).
  { rewrite rankBlocks_sorts. apply js_sort_perm. }
  split.
  - rewrite (rankBlocks_sorts (rankBlocks blocks)).
    rewrite dedupe_id.
    + rewrite rankBlocks_sorts.
      apply js_sort_sorted_id, js_sort_sorted.
    + apply NoDup_blockKey. rewrite Hperm. apply dedupe_NoDup.
    + intros b _. apply not_elem_of_empty.
  - intros Hnd. rewrite Hperm. rewrite dedupe_id; [done| |].
    + by apply NoDup_blockKey.
    + intros b _. apply not_elem_of_empty.
Qed.

Lemma rankBlocks_idempotent_witness :
  Permutation
    (rankBlocks [factBlock;
                 ExtractedBlock.mk "fact" TType "type fact = number"
                   "src/math.ts" "typescript" None 1])
    [factBlock;
     ExtractedBlock.mk "fact" TType "type fact = number"
       "src/math.ts" "typescript" None 1].
Proof.
  apply (rankBlocks_idempotent
           [factBlock;
            ExtractedBlock.mk "fact" TType "type fact = number"
              "src/math.ts" "typescript" None 1]).
  apply (bool_decide_unpack _). by vm_compute.
Defined.

(** ** The counts of the header *)

Lemma size_list_to_set_le (l : list string) :
  (size (list_to_set l : gset string) ≤ length l)%nat.
Proof.
  induction l as [|x l IH]; cbn [list_to_set length]; [by rewrite size_empty|].
  rewrite size_union_alt, size_singleton.
  assert (Hsub : (size (list_to_set l ∖ {[x]} : gset string)
                  ≤ size (list_to_set l : gset string))%nat).
  { apply subseteq_size. intros y Hy. by apply elem_of_difference in Hy as [Hy _]. }
  lia.
Qed.

(** X17: of the three counts the feed screen passes to its header, the
    mastered count never exceeds the seen count, which never exceeds the
    number of cards, whatever the user has done since the deck was opened
    without stored progress. *)
Theorem header_counts_ordered (cards : list CodeCard.t)
    (events : list DeckEvent) :
  let st := runEvents cards events in
  (masteredCount (progress st) ≤ seenCount (progress st))%nat ∧
  (seenCount (progress st) ≤ length cards)%nat.
Proof.
  cbv zeta. unfold seenCount.
  destruct (DeckWf_foldl cards events initialDeck (DeckWf_initial cards))
    as [Hentries _ _].
  fold (runEvents cards events) in Hentries.
  generalize dependent (runEvents cards events). intros st Hentries.
  split.
  - rewrite masteredCount_size, <- (size_dom (D := gset string) (progress st)).
    apply subseteq_size. unfold masteredIds. apply dom_filter_subseteq.
  - rewrite <- (size_dom (D := gset string) (progress st)).
    pose proof (size_list_to_set_le (map CodeCard.id cards)) as Hle.
    rewrite length_map in Hle. etrans; [|exact Hle].
    apply subseteq_size. intros id Hid.
    apply elem_of_dom in Hid as [p Hp].
    destruct (Hentries _ _ Hp) as (_ & _ & _ & c & Hin & <-).
    apply elem_of_list_to_set, list_elem_of_In, in_map. done.
Qed.

(** ** The input parser *)

Lemma split_length sep s : length (split sep s) = S (occurrences sep s).
Proof.
  induction s as [|c s IH]; [done|]. cbn [split occurrences].
  case_bool_decide; cbn [length]; [by rewrite IH|].
  destruct (split sep s); cbn in *; lia.
Qed.

Lemma occurrences_append c a b :
  occurrences c (a +:+ b) = (occurrences c a + occurrences c b)%nat.
Proof.
  induction a as [|x a IH]; [done|].
  rewrite append_cons. cbn [occurrences]. rewrite IH. lia.
Qed.

Lemma occurrences_trimStart c s : (occurrences c (trimStart s) ≤ occurrences c s)%nat.
Proof.
  induction s as [|x s IH]; [done|]. cbn [trimStart].
  destruct (isSpace x); [cbn [occurrences]; lia|done].
Qed.

Lemma occurrences_trimEnd c s : (occurrences c (trimEnd s) ≤ occurrences c s)%nat.
Proof.
  induction s as [|x s IH]; [done|]. cbn [trimEnd].
  destruct (trimEnd s) as [|k kept].
  - destruct (isSpace x); cbn [occurrences] in *; lia.
  - cbn [occurrences] in *. lia.
Qed.

Lemma occurrences_dropTrailingSlashes c s :
  (occurrences c (dropTrailingSlashes s) ≤ occurrences c s)%nat.
Proof.
  induction s as [|x s IH]; [done|]. cbn [dropTrailingSlashes].
  destruct (dropTrailingSlashes s) as [|k kept].
  - destruct (bool_decide (x = slash)); cbn [occurrences] in *; lia.
  - cbn [occurrences] in *. lia.
Qed.

(** What [spanSegment] returns: a segment without a slash, and a rest that
    is empty or begins with a slash; together they are the text. *)
Lemma spanSegment_spec s :
  let '(seg, tail) := spanSegment s in
  s = seg +:+ tail ∧ occurrences slash seg = 0%nat ∧
  (tail = EmptyString ∨ ∃ t, tail = String slash t).
Proof.
  induction s as [|c s IH]; cbn [spanSegment]; [by auto|].
  case_bool_decide as Hc.
  - subst c. rewrite append_empty. eauto.
  - destruct (spanSegment s) as [seg tail]. destruct IH as (-> & Hseg & Htail).
    rewrite append_cons. cbn [occurrences].
    rewrite bool_decide_eq_false_2 by done. auto.
Qed.

Lemma spanSegment_append seg tail :
  occurrences slash seg = 0%nat →
  tail = EmptyString ∨ (∃ t, tail = String slash t) →
  spanSegment (seg +:+ tail) = (seg, tail).
Proof.
  intros Hseg Htail. induction seg as [|c seg IH].
  - rewrite append_empty. destruct Htail as [->|[t ->]]; [done|].
    cbn. by rewrite bool_decide_eq_true_2.
  - rewrite append_cons. cbn [spanSegment occurrences] in *.
    case_bool_decide; [lia|]. by rewrite IH.
Qed.

Lemma ownerRepoAt_segments s owner repo :
  ownerRepoAt s = Some (owner, repo) →
  isSegment owner ∧ isSegment repo ∧ (2 ≤ S (occurrences slash s))%nat.
Proof.
  unfold ownerRepoAt.
  pose proof (spanSegment_spec s) as Hs.
  destruct (spanSegment s) as [[|c seg] [|c' afterSlash]]; try done.
  destruct Hs as (-> & Hseg & Htail).
  pose proof (spanSegment_spec afterSlash) as Hr.
  destruct (spanSegment afterSlash) as [[|d seg'] tail']; [done|].
  destruct Hr as (-> & Hseg' & _).
  intros [= <- <-]. split; [done|]. split; [done|].
  destruct Htail as [?|[t [= -> _]]]; [done|].
  rewrite occurrences_append. cbn [occurrences].
  rewrite (bool_decide_eq_true_2 (slash = slash)) by done. lia.
Qed.

Lemma ownerRepoAt_append owner repo tail :
  isSegment owner → isSegment repo →
  tail = EmptyString ∨ (∃ t, tail = String slash t) →
  ownerRepoAt (owner +:+ String slash (repo +:+ tail)) = Some (owner, repo).
Proof.
  intros [Ho Hos] [Hr Hrs] Htail. unfold ownerRepoAt.
  rewrite spanSegment_append by eauto.
  destruct owner as [|c owner]; [done|].
  rewrite spanSegment_append by done.
  by destruct repo.
Qed.

Lemma prefix_append (a s : string) :
  String.prefix a s = true → ∃ t, s = a +:+ t.
Proof.
  revert s. induction a as [|c a IH]; intros s; [by exists s|].
  destruct s as [|x s]; cbn [String.prefix]; [done|].
  destruct (Ascii.ascii_dec c x) as [->|?]; [|done].
  intros Hp. destruct (IH _ Hp) as [t ->]. exists t. by rewrite append_cons.
Qed.

Lemma prefix_append_true (a t : string) : String.prefix a (a +:+ t) = true.
Proof.
  induction a as [|c a IH]; [by destruct t|].
  rewrite append_cons. cbn [String.prefix].
  by destruct (Ascii.ascii_dec c c).
Qed.

Lemma urlMatch_segments s owner repo :
  urlMatch s = Some (owner, repo) →
  isSegment owner ∧ isSegment repo ∧ (2 ≤ occurrences slash s)%nat.
Proof.
  induction s as [|c s IH]; cbn [urlMatch]; [done|].
  destruct (String.prefix "github.com/" (String c s)) eqn:Hp.
  - apply prefix_append in Hp as [t Ht].
    destruct (ownerRepoAt (dropStr 11 (String c s))) as [[o r]|] eqn:Hat.
    + intros [= -> ->]. rewrite Ht in Hat |- *.
      change (dropStr 11 ("github.com/" +:+ t)) with t in Hat.
      destruct (ownerRepoAt_segments _ _ _ Hat) as (Ho & Hr & Hn).
      split; [done|]. split; [done|].
      rewrite occurrences_append.
      assert (occurrences slash "github.com/" = 1%nat) as -> by (by vm_compute).
      lia.
    + intros Hrec. destruct (IH Hrec) as (Ho & Hr & Hn).
      split; [done|]. split; [done|]. cbn [occurrences]. lia.
  - intros Hrec. destruct (IH Hrec) as (Ho & Hr & Hn).
    split; [done|]. split; [done|]. cbn [occurrences]. lia.
Qed.

Lemma urlMatch_here t owner repo :
  ownerRepoAt t = Some (owner, repo) →
  urlMatch ("github.com/" +:+ t) = Some (owner, repo).
Proof.
  intros Hat. change ("github.com/" +:+ t) with (String "g" ("ithub.com/" +:+ t)).
  cbn [urlMatch].
  change (String "g" ("ithub.com/" +:+ t)) with ("github.com/" +:+ t).
  rewrite prefix_append_true.
  change (dropStr 11 ("github.com/" +:+ t)) with t. by rewrite Hat.
Qed.

Lemma urlMatch_skip c s :
  c ≠ "g"%char → urlMatch (String c s) = urlMatch s.
Proof.
  intros Hc. cbn [urlMatch String.prefix].
  by destruct (Ascii.ascii_dec "g" c) as [<-|?].
Qed.

Lemma split_free sep s : occurrences sep s = 0%nat → split sep s = [s].
Proof.
  induction s as [|c s IH]; [done|]. cbn [occurrences split].
  case_bool_decide; [lia|]. intros Hs. by rewrite IH.
Qed.

Lemma split_append_sep sep a b :
  occurrences sep a = 0%nat →
  split sep (a +:+ String sep b) = a :: split sep b.
Proof.
  induction a as [|c a IH]; intros Ha.
  - rewrite append_empty. cbn [split]. by rewrite bool_decide_eq_true_2.
  - rewrite append_cons. cbn [occurrences split] in *.
    case_bool_decide; [lia|]. by rewrite IH.
Qed.

Lemma split_segments_free sep s :
  Forall (λ seg, occurrences sep seg = 0%nat) (split sep s).
Proof.
  induction s as [|c s IH]; cbn [split]; [by repeat constructor|].
  case_bool_decide as Hc; [by constructor|].
  destruct (split sep s) as [|seg segs]; [by repeat constructor; cbn;
    rewrite bool_decide_eq_false_2|].
  apply Forall_cons in IH as [Hseg Hsegs]. constructor; [|done].
  cbn [occurrences]. by rewrite bool_decide_eq_false_2.
Qed.

Lemma noSlashOrSpace_occurrences s :
  noSlashOrSpace s = true → occurrences slash s = 0%nat.
Proof.
  induction s as [|c s IH]; [done|]. cbn [noSlashOrSpace occurrences].
  case_bool_decide; [done|]. intros Hs.
  apply andb_true_iff in Hs as [_ Hs]. by rewrite IH.
Qed.

Lemma noSlashOrSpace_trimStart s : noSlashOrSpace s = true → trimStart s = s.
Proof.
  destruct s as [|c s]; [done|]. cbn [noSlashOrSpace trimStart].
  destruct (isSpace c); [|done]. by rewrite andb_false_r.
Qed.

Lemma noSlashOrSpace_trimEnd s : noSlashOrSpace s = true → trimEnd s = s.
Proof.
  induction s as [|c s IH]; [done|]. cbn [noSlashOrSpace trimEnd].
  intros Hs. apply andb_true_iff in Hs as [Hc Hs].
  apply andb_true_iff in Hc as [_ Hc]. rewrite (IH Hs).
  destruct s; [|done]. by destruct (isSpace c).
Qed.

Lemma shortSlash_trim owner repo :
  noSlashOrSpace owner = true → isShortSegment repo = true →
  owner ≠ EmptyString →
  dropTrailingSlashes (trim (owner +:+ String slash repo))
  = owner +:+ String slash repo.
Proof.
  intros Ho Hr Hne.
  assert (Hrs : noSlashOrSpace repo = true) by (by destruct repo).
  unfold trim. destruct owner as [|c owner]; [done|].
  rewrite append_cons. cbn [noSlashOrSpace] in Ho.
  apply andb_true_iff in Ho as [Hc Ho]. apply andb_true_iff in Hc as [_ Hc].
  cbn [trimStart]. destruct (isSpace c); [done|].
  rewrite <- append_cons. generalize (String c owner). clear c owner Hne Hc Ho.
  intros owner.
  assert (Hend : ∀ a, trimEnd (a +:+ String slash repo) = a +:+ String slash repo).
  { intros a. induction a as [|c a IH].
    - rewrite append_empty. cbn [trimEnd].
      rewrite (noSlashOrSpace_trimEnd _ Hrs). by destruct repo.
    - rewrite append_cons. cbn [trimEnd]. rewrite IH.
      by destruct (a +:+ String slash repo) eqn:Ha; [destruct a|]. }
  rewrite Hend.
  assert (Hkeep : dropTrailingSlashes repo = repo).
  { clear -Hr Hrs. induction repo as [|c repo IH]; [done|].
    cbn [noSlashOrSpace dropTrailingSlashes] in *.
    apply andb_true_iff in Hrs as [Hc Hrs]. apply andb_true_iff in Hc as [Hc _].
    destruct repo as [|d repo].
    - cbn. by destruct (bool_decide (c = slash)).
    - by rewrite IH. }
  induction owner as [|c owner IH].
  - rewrite append_empty. cbn [dropTrailingSlashes]. rewrite Hkeep. by destruct repo.
  - rewrite append_cons. cbn [dropTrailingSlashes]. rewrite IH.
    by destruct (owner +:+ String slash repo) eqn:Ha; [destruct owner|].
Qed.

(** X18: [parseRepoInput]. What it returns is an owner and a repository
    name that are not empty and hold no slash. An input without a slash is
    rejected. The short form, a slash between two names free of slashes
    and white space, gives back the two names. And when the input, trimmed
    and without its trailing slashes, is the GitHub host, with or without
    a scheme, followed by an owner, a slash, a repository name and nothing
    more or a further path, the owner and the name are returned and the
    further path is ignored. *)
Theorem parseRepoInput_formats (input : string) :
  (∀ owner repo, parseRepoInput input = Some (owner, repo) →
     isSegment owner ∧ isSegment repo) ∧
  (occurrences slash input = 0%nat → parseRepoInput input = None) ∧
  (∀ owner repo,
     input = owner +:+ String slash repo →
     isShortSegment owner = true → isShortSegment repo = true →
     parseRepoInput input = Some (owner, repo)) ∧
  (∀ scheme owner repo tail,
     dropTrailingSlashes (trim input)
     = scheme +:+ "github.com/" +:+ owner +:+ String slash (repo +:+ tail) →
     scheme = "https://" ∨ scheme = "http://" ∨ scheme = EmptyString →
     isSegment owner → isSegment repo →
     tail = EmptyString ∨ (∃ t, tail = String slash t) →
     parseRepoInput input = Some (owner, repo)).
Proof.
  unfold parseRepoInput. cbv zeta.
  split; [|split; [|split]].
  - intros owner repo.
    destruct (urlMatch _) as [[o r]|] eqn:Hurl.
    + intros [= -> ->]. by destruct (urlMatch_segments _ _ _ Hurl) as (? & ? & _).
    + unfold shortMatch.
      pose proof (split_segments_free slash (dropTrailingSlashes (trim input)))
        as Hfree.
      destruct (split slash _) as [|o [|r [|x l]]]; try done.
      destruct (isShortSegment o) eqn:Ho; [|done].
      destruct (isShortSegment r) eqn:Hr; [|done].
      intros [= <- <-].
      apply Forall_cons in Hfree as [Hfo Hfree].
      apply Forall_cons in Hfree as [Hfr _].
      split; (split; [|done]); intros ->; done.
  - intros Hnone.
    assert (Hz : occurrences slash (dropTrailingSlashes (trim input)) = 0%nat).
    { pose proof (occurrences_dropTrailingSlashes slash (trim input)).
      pose proof (occurrences_trimEnd slash (trimStart input)).
      pose proof (occurrences_trimStart slash input).
      unfold trim in *. lia. }
    destruct (urlMatch _) as [[o r]|] eqn:Hurl.
    + destruct (urlMatch_segments _ _ _ Hurl) as (_ & _ & Hn). lia.
    + unfold shortMatch. by rewrite (split_free _ _ Hz).
  - intros owner repo -> Ho Hr.
    assert (Hos : noSlashOrSpace owner = true) by (by destruct owner).
    assert (Hrs : noSlashOrSpace repo = true) by (by destruct repo).
    rewrite shortSlash_trim by (try done; by destruct owner).
    destruct (urlMatch _) as [[o r]|] eqn:Hurl.
    + destruct (urlMatch_segments _ _ _ Hurl) as (_ & _ & Hn).
      rewrite occurrences_append in Hn. cbn [occurrences] in Hn.
      rewrite bool_decide_eq_true_2 in Hn by done.
      rewrite !noSlashOrSpace_occurrences in Hn by done. lia.
    + unfold shortMatch.
      rewrite split_append_sep by (by apply noSlashOrSpace_occurrences).
      rewrite split_free by (by apply noSlashOrSpace_occurrences).
      by rewrite Ho, Hr.
  - intros scheme owner repo tail -> Hscheme Ho Hr Htail.
    assert (Hurl : urlMatch ("github.com/" +:+ owner +:+ String slash (repo +:+ tail))
                   = Some (owner, repo))
      by (by apply urlMatch_here, ownerRepoAt_append).
    destruct Hscheme as [-> | [-> | ->]].
    + change ("https://" +:+ ?s) with
        (String "h" (String "t" (String "t" (String "p" (String "s"
           (String ":" (String "/" (String "/" s)))))))).
      rewrite !urlMatch_skip by done. by rewrite Hurl.
    + change ("http://" +:+ ?s) with
        (String "h" (String "t" (String "t" (String "p"
           (String ":" (String "/" (String "/" s))))))).
      rewrite !urlMatch_skip by done. by rewrite Hurl.
    + rewrite append_empty. by rewrite Hurl.
Qed.

Lemma parseRepoInput_formats_witness :
  (isSegment "facebook" ∧ isSegment "react")
  ∧ parseRepoInput "react" = None
  ∧ parseRepoInput "facebook/react" = Some ("facebook", "react")
  ∧ parseRepoInput " https://github.com/facebook/react/tree/main/ "
    = Some ("facebook", "react").
Proof.
  split; [|split; [|split]].
  - apply (parseRepoInput_formats "github.com/facebook/react"). by vm_compute.
  - apply (parseRepoInput_formats "react"). by vm_compute.
  - apply (parseRepoInput_formats "facebook/react"); by vm_compute.
  - apply (parseRepoInput_formats " https://github.com/facebook/react/tree/main/ ")
      with (scheme := "https://") (tail := "/tree/main").
    + by vm_compute.
    + by left.
    + by vm_compute.
    + by vm_compute.
    + right. by eexists.
Defined.

(** ** The tokenizer *)

Lemma takeStr_dropStr n s : takeStr n s +:+ dropStr n s = s.
Proof.
  revert s. induction n as [|n IH]; intros [|c s]; cbn [takeStr dropStr];
    rewrite ?append_empty, ?append_cons; try done.
  by rewrite IH.
Qed.

Lemma dropStr_length n s : String.length (dropStr n s) = (String.length s - n)%nat.
Proof.
  revert s. induction n as [|n IH]; intros [|c s]; cbn [dropStr String.length];
    done.
Qed.

Lemma rendered_app a b : rendered (a ++ b) = rendered a +:+ rendered b.
Proof.
  induction a as [|t a IH]; cbn [app rendered]; [by rewrite append_empty|].
  by rewrite IH, append_assoc.
Qed.

Lemma append_empty_r (s : string) : s +:+ EmptyString = s.
Proof.
  induction s as [|c s IH]; [done|]. rewrite append_cons. by rewrite IH.
Qed.

Lemma last_removelast {A : Type} (l : list A) (x : A) :
  last l = Some x → l = removelast l ++ [x].
Proof.
  intros Hlast. destruct (decide (l = [])) as [->|Hne]; [done|].
  rewrite (app_removelast_last x Hne) at 1. f_equal. f_equal.
  clear Hne. induction l as [|y l IH]; [done|].
  destruct l as [|z l]; [by injection Hlast as ->|]. by apply IH.
Qed.

Lemma pushPlain_rendered tokens ch :
  rendered (pushPlain tokens ch) = rendered tokens +:+ String ch EmptyString.
Proof.
  unfold pushPlain. destruct (last tokens) as [[type value]|] eqn:Hlast.
  - pose proof (last_removelast _ _ Hlast) as Htokens.
    destruct type; try by rewrite rendered_app.
    rewrite Htokens at 2. rewrite !rendered_app. cbn [rendered tokenValue].
    by rewrite !append_empty_r, append_assoc.
  - by rewrite rendered_app.
Qed.

Lemma pushPlain_nonempty tokens ch :
  Forall (λ token, tokenValue token ≠ EmptyString) tokens →
  Forall (λ token, tokenValue token ≠ EmptyString) (pushPlain tokens ch).
Proof.
  intros Hall. unfold pushPlain.
  assert (Hnew : ∀ v, Forall (λ token, tokenValue token ≠ EmptyString)
                        [mkToken TkPlain (v +:+ String ch EmptyString)]).
  { intros v. repeat constructor. cbn. by destruct v. }
  destruct (last tokens) as [[type value]|] eqn:Hlast.
  - pose proof (last_removelast _ _ Hlast) as Htokens.
    destruct type; try (apply Forall_app; split; [done|apply (Hnew EmptyString)]).
    rewrite Htokens in Hall. apply Forall_app in Hall as [Hinit _].
    apply Forall_app. split; [done|apply Hnew].
  - apply Forall_app. split; [done|apply (Hnew EmptyString)].
Qed.

Section TokenizeFacts.
Variable RULES : list (TokenType * (string → option nat)).

Lemma firstMatch_In rules remaining type n :
  firstMatch rules remaining = Some (type, n) →
  ∃ regex, In (type, regex) rules ∧ regex remaining = Some n.
Proof.
  induction rules as [|[t regex] rules IH]; cbn [firstMatch]; [done|].
  destruct (regex remaining) as [k|] eqn:Hk.
  - intros [= <- <-]. exists regex. split; [by left|done].
  - intros Hrest. destruct (IH Hrest) as (r & Hin & Hr).
    exists r. split; [by right|done].
Qed.

Lemma tokenizeLoop_spec :
  (∀ type regex s, In (type, regex) RULES → regex s ≠ Some 0%nat) →
  ∀ fuel remaining tokens,
    (String.length remaining ≤ fuel)%nat →
    ∃ out, tokenizeLoop RULES fuel remaining tokens = Some out ∧
      rendered out = rendered tokens +:+ remaining ∧
      (Forall (λ token, tokenValue token ≠ EmptyString) tokens →
       Forall (λ token, tokenValue token ≠ EmptyString) out).
Proof.
  intros Hprogress fuel.
  induction fuel as [|fuel IH]; intros [|ch rest] tokens Hfuel;
    cbn [tokenizeLoop String.length] in *; try lia.
  - exists tokens. by rewrite append_empty_r.
  - exists tokens. by rewrite append_empty_r.
  - destruct (firstMatch RULES (String ch rest)) as [[type n]|] eqn:Hmatch.
    + destruct (firstMatch_In _ _ _ _ Hmatch) as (regex & Hin & Hn).
      destruct n as [|n]; [by destruct (Hprogress _ _ _ Hin Hn)|].
      destruct (IH (dropStr (S n) (String ch rest))
                  (tokens ++ [mkToken type (takeStr (S n) (String ch rest))]))
        as (out & Hout & Hrendered & Hne).
      { rewrite dropStr_length. cbn [String.length]. lia. }
      exists out. split; [done|]. split.
      * rewrite Hrendered, rendered_app. cbn [rendered tokenValue].
        rewrite append_empty_r, append_assoc.
        by rewrite takeStr_dropStr.
      * intros Hall. apply Hne, Forall_app. split; [done|].
        by repeat constructor.
    + destruct (IH rest (pushPlain tokens ch)) as (out & Hout & Hrendered & Hne);
        [lia|].
      exists out. split; [done|]. split.
      * rewrite Hrendered, pushPlain_rendered, append_assoc.
        by rewrite append_cons, append_empty.
      * intros Hall. by apply Hne, pushPlain_nonempty.
Qed.

(** X19: when no rule matches the empty text, [tokenize] comes to its end
    within one round per character, and the tokens it returns, read one
    after the other, are the code it was given: highlighting never changes
    the text shown. No token is empty. *)
Theorem tokenize_round_trip (code : string) :
  (∀ type regex s, In (type, regex) RULES → regex s ≠ Some 0%nat) →
  ∃ tokens, tokenize RULES code = Some tokens ∧
    rendered tokens = code ∧
    Forall (λ token, tokenValue token ≠ EmptyString) tokens.
Proof.
  intros Hprogress.
  destruct (tokenizeLoop_spec Hprogress (String.length code) code [])
    as (out & Hout & Hrendered & Hne); [done|].
  exists out. split; [done|]. split; [by rewrite Hrendered|].
  by apply Hne.
Qed.
End TokenizeFacts.

Lemma tokenize_round_trip_witness :
  ∃ tokens, tokenize demoRules "x = 42;" = Some tokens ∧
    rendered tokens = "x = 42;" ∧
    Forall (λ token, tokenValue token ≠ EmptyString) tokens.
Proof.
  apply (tokenize_round_trip demoRules "x = 42;").
  intros type regex s [[= <- <-]|[]]. by destruct (digitRun s).
Defined.

(** ** The list of recent repositories *)

Lemma filter_sublist {A : Type} (f : A → bool) (l : list A) :
  List.filter f l `sublist_of` l.
Proof.
  induction l as [|x l IH]; cbn [List.filter]; [done|].
  destruct (f x); by constructor.
Qed.

Lemma sublist_map {A B : Type} (f : A → B) (l1 l2 : list A) :
  l1 `sublist_of` l2 → map f l1 `sublist_of` map f l2.
Proof. induction 1; cbn [map]; by constructor. Qed.

Lemma sublist_Forall {A : Type} (P : A → Prop) (l1 l2 : list A) :
  l1 `sublist_of` l2 → Forall P l2 → Forall P l1.
Proof.
  induction 1 as [|x l1 l2 Hsub IH|x l1 l2 Hsub IH]; intros Hall; [done|..];
    apply Forall_cons in Hall as [Hx Hall]; [constructor|]; auto.
Qed.

Lemma sublist_StronglySorted {A : Type} (R : A → A → Prop) (l1 l2 : list A) :
  l1 `sublist_of` l2 → StronglySorted R l2 → StronglySorted R l1.
Proof.
  induction 1 as [|x l1 l2 Hsub IH|x l1 l2 Hsub IH]; intros Hsorted; [done|..].
  - apply StronglySorted_inv in Hsorted as [Hsorted Hall].
    constructor; [by apply IH|]. by eapply sublist_Forall.
  - apply StronglySorted_inv in Hsorted as [Hsorted _]. by apply IH.
Qed.

Lemma addRecent_list entry now stored :
  getRecent (addRecent entry now stored)
  = take MAX_RECENT
      (visitedAt entry now ::
       List.filter
         (λ r, negb (String.eqb (RecentRepo.fullName r) (RecentRepo.fullName entry)))
         (getRecent stored)).
Proof. done. Qed.

Lemma addRecent_sublist entry now stored :
  getRecent (addRecent entry now stored)
  `sublist_of` visitedAt entry now :: getRecent stored.
Proof.
  rewrite addRecent_list. etrans; [apply sublist_take|].
  constructor. apply filter_sublist.
Qed.

Lemma addRecent_NoDup entry now stored :
  NoDup (map RecentRepo.fullName (getRecent stored)) →
  NoDup (map RecentRepo.fullName (getRecent (addRecent entry now stored))).
Proof.
  intros Hnd. rewrite addRecent_list.
  eapply sublist_NoDup; [|apply sublist_map, sublist_take].
  cbn [map]. apply NoDup_cons. split.
  - intros Hin. apply list_elem_of_In, in_map_iff in Hin as (r & Hname & Hin).
    apply filter_In in Hin as [_ Hne]. cbn in Hname. rewrite Hname in Hne.
    by rewrite String.eqb_refl in Hne.
  - eapply sublist_NoDup; [done|apply sublist_map, filter_sublist].
Qed.

Lemma recentAfter_snoc visits entry now :
  recentAfter (visits ++ [(entry, now)]) = addRecent entry now (recentAfter visits).
Proof. unfold recentAfter. by rewrite foldl_app. Qed.

Lemma recentAfter_bound visits now :
  Forall (λ t, t ≤ now) (map snd visits) →
  Forall (λ r, RecentRepo.lastVisited r ≤ now) (getRecent (recentAfter visits)).
Proof.
  induction visits as [|[e t] visits IH] using rev_ind; [constructor|].
  rewrite map_app, Forall_app, recentAfter_snoc. cbn [map snd].
  intros [Hbefore Ht]. apply Forall_cons in Ht as [Ht _].
  eapply sublist_Forall; [apply addRecent_sublist|].
  constructor; [done|by apply IH].
Qed.

(** X20: the list of recent repositories, after any series of visits that
    starts without a stored list: it never holds more than eight entries
    and never two with the same full name; the repository visited last
    comes first, stamped with the time of that visit; and when the clock
    never runs backwards the list is in order of last visit, latest
    first. *)
Theorem recent_list_invariant (visits : list (RecentRepo.t * Z)) :
  let recent := getRecent (recentAfter visits) in
  (length recent ≤ MAX_RECENT)%nat ∧
  NoDup (map RecentRepo.fullName recent) ∧
  (∀ entry now, last visits = Some (entry, now) →
     head recent = Some (visitedAt entry now)) ∧
  (StronglySorted Z.le (map snd visits) →
   StronglySorted (λ a b, RecentRepo.lastVisited b ≤ RecentRepo.lastVisited a)
     recent).
Proof.
  cbv zeta.
  induction visits as [|[entry now] visits IH] using rev_ind.
  { cbn. repeat split; [lia|constructor|done|constructor]. }
  rewrite recentAfter_snoc.
  destruct IH as (Hlen & Hnd & _ & Hsorted).
  split; [|split; [|split]].
  - rewrite addRecent_list, length_take. lia.
  - by apply addRecent_NoDup.
  - intros e t. rewrite last_snoc. by intros [= <- <-].
  - intros Htimes. rewrite map_app in Htimes. cbn [map snd] in Htimes.
    apply StronglySorted_app in Htimes as (Hle & Hbefore & _).
    eapply sublist_StronglySorted; [apply addRecent_sublist|].
    constructor; [by apply Hsorted|].
    cbn [RecentRepo.lastVisited visitedAt].
    apply recentAfter_bound, Forall_forall. intros t Ht.
    apply (Hle t now); [done|]. by apply list_elem_of_singleton.
Qed.

Lemma recent_list_invariant_witness :
  head (getRecent (recentAfter
          [(demoRepo "a/x", 1); (demoRepo "b/y", 2); (demoRepo "a/x", 3)]))
  = Some (visitedAt (demoRepo "a/x") 3).
Proof.
  apply (recent_list_invariant
           [(demoRepo "a/x", 1); (demoRepo "b/y", 2); (demoRepo "a/x", 3)]).
  by vm_compute.
Defined.

(** ** The whole-file fallback and the line count *)

Lemma newlines_occurrences s : newlines s = occurrences newline s.
Proof. induction s as [|c s IH]; [done|]. cbn. by rewrite IH. Qed.

Lemma lineCountOf_trim s : lineCountOf (trim s) ≤ lineCountOf s.
Proof.
  rewrite !lineCountOf_newlines, !newlines_occurrences. unfold trim.
  pose proof (occurrences_trimEnd newline (trimStart s)).
  pose proof (occurrences_trimStart newline s). lia.
Qed.

Lemma lastSegment_free sep s : occurrences sep (lastSegment sep s) = 0%nat.
Proof.
  unfold lastSegment. pose proof (split_segments_free sep s) as Hfree.
  destruct (last (split sep s)) as [seg|] eqn:Hlast; [|done].
  apply last_Some in Hlast as [l Hl]. rewrite Hl in Hfree.
  apply Forall_app in Hfree as [_ Hseg]. by apply Forall_cons in Hseg as [? _].
Qed.

Section FallbackFacts.
Variable extractTS : string → FileContent.t → Language → list ExtractedBlock.t.
Variable extractPython : string → FileContent.t → list ExtractedBlock.t.
Variable extractRust : string → FileContent.t → list ExtractedBlock.t.
Variable extractGo : string → FileContent.t → list ExtractedBlock.t.
Variable extractSwift : string → FileContent.t → list ExtractedBlock.t.

Local Abbreviation languageBlocks'' :=
  (languageBlocks extractTS extractPython extractRust extractGo extractSwift).
Local Abbreviation extractBlocks'' :=
  (extractBlocks extractTS extractPython extractRust extractGo extractSwift).

(** X21: [extractBlocks] returns no block exactly when the language's
    extractor finds none and the file has more than 40 lines, so a file of
    at most 40 lines always yields a block. A block that does not come
    from the language's extractor is the whole-file block: its kind is
    "file", its name holds no slash, and its [lineCount], taken before the
    text is trimmed, is at most 40 and at least the number of lines of the
    code it carries. *)
Theorem extractBlocks_never_empty_when_short (file : FileContent.t) :
  (extractBlocks'' file = [] ↔
   languageBlocks'' file = [] ∧ 40 < lineCountOf (FileContent.content file)) ∧
  Forall (λ b, In b (languageBlocks'' file) ∨
               (ExtractedBlock.type b = TFile ∧
                occurrences slash (ExtractedBlock.name b) = 0%nat ∧
                lineCountOf (ExtractedBlock.code b) ≤ ExtractedBlock.lineCount b ∧
                ExtractedBlock.lineCount b ≤ 40))
         (extractBlocks'' file).
Proof.
  unfold extractBlocks. cbv zeta.
  destruct (languageBlocks'' file) as [|b0 blocks] eqn:Hblocks.
  - rewrite bool_decide_eq_true_2 by done. cbn [andb app].
    destruct (Z.leb_spec (lineCountOf (FileContent.content file)) 40) as [Hle|Hgt].
    + split; [split; [done|intros [_ ?]; lia]|].
      constructor; [|constructor]. right. cbn.
      split; [done|]. split; [apply lastSegment_free|].
      split; [apply lineCountOf_trim|done].
    + split; [done|constructor].
  - rewrite bool_decide_eq_false_2 by done. cbn [andb].
    split; [split; [done|by intros [? _]]|].
    apply Forall_forall. intros b Hb. left. by apply list_elem_of_In.
Qed.
End FallbackFacts.

(** ** The Python extractor *)

Lemma extractIndentBlock_prefix source startIdx block :
  extractIndentBlock source startIdx = Some block →
  startsWith (dropStr startIdx source) block.
Proof.
  unfold extractIndentBlock.
  pose proof (concat_split newline (dropStr startIdx source)) as Hcat.
  destruct (split newline (dropStr startIdx source)) as [|first [|second others]];
    [done|done|].
  assert (Hfirst : startsWith (dropStr startIdx source) first).
  { rewrite <- Hcat. cbn. by eexists. }
  destruct (Nat.eqb_spec (leadingSpaces second) 0).
  - by intros [= <-].
  - intros [= <-].
    eapply startsWith_trans; [|apply trimEnd_startsWith].
    destruct (indentLoop_prefix (leadingSpaces second) (second :: others))
      as [rest Hrest].
    rewrite <- Hcat. rewrite Hrest at 1.
    exact (concat_startsWith (String newline EmptyString)
             (first :: indentLoop (leadingSpaces second) (second :: others))
             rest ltac:(done)).
Qed.

Lemma pythonBlock_spec src file type limit m b :
  pythonBlock src file type limit m = Some b →
  ExtractedBlock.name b = matchName m ∧
  ExtractedBlock.type b = type ∧
  ExtractedBlock.language b = "python" ∧
  ExtractedBlock.filePath b = FileContent.path file ∧
  ExtractedBlock.code b ≠ EmptyString ∧
  ExtractedBlock.lineCount b = lineCountOf (ExtractedBlock.code b) ∧
  ExtractedBlock.lineCount b ≤ limit ∧
  startsWith (dropStr (matchIndex m) src) (ExtractedBlock.code b).
Proof.
  unfold pythonBlock.
  destruct (extractIndentBlock src (matchIndex m)) as [[|c block]|] eqn:Hblock;
    [done| |done].
  destruct (Z.ltb_spec limit (lineCountOf (String c block))); [done|].
  intros [= <-]. cbn. repeat split; try done.
  by apply extractIndentBlock_prefix.
Qed.

(** X22: the blocks [extractPython] pushes, whatever its two patterns
    match: each is a Python block of the file, named by a match and
    starting where that match starts; its code is not empty and its
    [lineCount] is the number of lines of its code; a block of the [def]
    loop is a function of at most 40 lines whose name is not private, a
    block of the [class] loop is a concept of at most 50 lines; and all
    functions come before all classes. *)
Theorem extractPython_blocks (defMatches classMatches : list RegexMatch)
    (src : string) (file : FileContent.t) (b : ExtractedBlock.t) :
  In b (extractPythonFrom defMatches classMatches src file) →
  ExtractedBlock.language b = "python" ∧
  ExtractedBlock.filePath b = FileContent.path file ∧
  ExtractedBlock.code b ≠ EmptyString ∧
  ExtractedBlock.lineCount b = lineCountOf (ExtractedBlock.code b) ∧
  (∃ m, In m (defMatches ++ classMatches) ∧
        ExtractedBlock.name b = matchName m ∧
        startsWith (dropStr (matchIndex m) src) (ExtractedBlock.code b)) ∧
  (ExtractedBlock.type b = TFunction ∧ ExtractedBlock.lineCount b ≤ 40 ∧
   isPrivateName (ExtractedBlock.name b) = false
   ∨ ExtractedBlock.type b = TConcept ∧ ExtractedBlock.lineCount b ≤ 50) ∧
  (∃ functions classes,
     extractPythonFrom defMatches classMatches src file = functions ++ classes ∧
     Forall (λ f, ExtractedBlock.type f = TFunction) functions ∧
     Forall (λ c, ExtractedBlock.type c = TConcept) classes).
Proof.
  unfold extractPythonFrom. intros Hin.
  assert (Horder : ∃ functions classes,
     omap (λ m, if isPrivateName (matchName m) then None
                else pythonBlock src file TFunction 40 m) defMatches
     ++ omap (pythonBlock src file TConcept 50) classMatches
     = functions ++ classes ∧
     Forall (λ f, ExtractedBlock.type f = TFunction) functions ∧
     Forall (λ c, ExtractedBlock.type c = TConcept) classes).
  { eexists _, _. split; [done|]. split.
    - apply Forall_forall. intros f Hf.
      apply list_elem_of_omap in Hf as (m & _ & Hm).
      destruct (isPrivateName (matchName m)); [done|].
      by apply pythonBlock_spec in Hm as (_ & ? & _).
    - apply Forall_forall. intros c Hc.
      apply list_elem_of_omap in Hc as (m & _ & Hm).
      by apply pythonBlock_spec in Hm as (_ & ? & _). }
  apply in_app_or in Hin as [Hin|Hin];
    apply list_elem_of_In, list_elem_of_omap in Hin as (m & Hm & Hb).
  - destruct (isPrivateName (matchName m)) eqn:Hprivate; [done|].
    apply pythonBlock_spec in Hb
      as (Hname & Htype & Hlang & Hpath & Hcode & Hcount & Hlimit & Hstart).
    repeat split; try done.
    + exists m. split; [|done].
      apply in_or_app. left. by apply list_elem_of_In.
    + left. by rewrite Hname.
  - apply pythonBlock_spec in Hb
      as (Hname & Htype & Hlang & Hpath & Hcode & Hcount & Hlimit & Hstart).
    repeat split; try done.
    + exists m. split; [|done].
      apply in_or_app. right. by apply list_elem_of_In.
    + by right.
Qed.

Lemma extractPython_blocks_witness :
  ExtractedBlock.language
    (ExtractedBlock.mk "f" TFunction ("def f():" +:+ String newline "  return 1")
       "pkg/f.py" "python" None 2) = "python".
Proof.
  apply (extractPython_blocks [demoPyMatch; mkMatch 20 5 "_g"] [] demoPy demoPyFile
           (ExtractedBlock.mk "f" TFunction
              ("def f():" +:+ String newline "  return 1")
              "pkg/f.py" "python" None 2)).
  vm_compute. by left.
Defined.

(** ** Where the cards of a repository come from *)

Lemma generateCards_fields blocks maxCards i card :
  generateCards blocks maxCards !! i = Some card →
  ∃ block, take maxCards blocks !! i = Some block ∧
    CodeCard.title card = ExtractedBlock.name block ∧
    CodeCard.code card = ExtractedBlock.code block ∧
    CodeCard.filePath card = ExtractedBlock.filePath block ∧
    CodeCard.language card = ExtractedBlock.language block ∧
    CodeCard.type card = ExtractedBlock.type block.
Proof.
  unfold generateCards. rewrite list_lookup_imap.
  destruct (take maxCards blocks !! i) as [block|]; [|done].
  intros [= <-]. by exists block.
Qed.

Lemma rankBlocks_In blocks b : In b (rankBlocks blocks) → In b blocks.
Proof.
  rewrite rankBlocks_sorts. intros Hin.
  apply list_elem_of_In in Hin. rewrite js_sort_perm in Hin.
  apply list_elem_of_In. eapply elem_of_sublist; [done|apply dedupe_sublist].
Qed.

Section IngestCards.
Variable parseRepoInput : string → option (string * string).
Variable fetchRepo : string → string → string + RepoMeta.t.
Variable fetchTree : string → string → string → string + list TreeEntry.t.
Variable fetchFiles : string → string → list string → list FileContent.t.
Variable extractTS : string → FileContent.t → Language → list ExtractedBlock.t.
Variable extractPython : string → FileContent.t → list ExtractedBlock.t.
Variable extractRust : string → FileContent.t → list ExtractedBlock.t.
Variable extractGo : string → FileContent.t → list ExtractedBlock.t.
Variable extractSwift : string → FileContent.t → list ExtractedBlock.t.

(** X23: what [ingestRepo] returns, end to end: between 1 and 50 cards
    with pairwise distinct ids, each made from a block that [extractBlocks]
    found in one of the files fetched for the paths the filter let through
    (same name, kind, code, file path and language), for the repository
    the input names and the tree of its default branch. *)
Theorem ingestRepo_cards_provenance (input : string) (result : IngestResult.t) :
  (ingestRepo parseRepoInput fetchRepo fetchTree fetchFiles
     extractTS extractPython extractRust extractGo extractSwift input).2
  = inr result →
  (0 < length (IngestResult.cards result) ≤ MAX_CARDS)%nat ∧
  NoDup (map CodeCard.id (IngestResult.cards result)) ∧
  ∃ owner repo tree,
    parseRepoInput input = Some (owner, repo) ∧
    fetchRepo owner repo = inr (IngestResult.meta result) ∧
    fetchTree owner repo (RepoMeta.defaultBranch (IngestResult.meta result))
      = inr tree ∧
    ∀ card, In card (IngestResult.cards result) →
      ∃ file block,
        In file (fetchFiles owner repo
                   (map TreeEntry.path (filterCodeFiles tree))) ∧
        In block (extractBlocks extractTS extractPython extractRust extractGo
                    extractSwift file) ∧
        CodeCard.title card = ExtractedBlock.name block ∧
        CodeCard.type card = ExtractedBlock.type block ∧
        CodeCard.code card = ExtractedBlock.code block ∧
        CodeCard.filePath card = ExtractedBlock.filePath block ∧
        CodeCard.language card = ExtractedBlock.language block.
Proof.
  rewrite ingestRepo_outcome.
  destruct (parseRepoInput input) as [[owner repo]|]; [|done].
  destruct (fetchRepo owner repo) as [e|meta] eqn:Hrepo; [done|].
  destruct (fetchTree owner repo (RepoMeta.defaultBranch meta)) as [e|tree]
    eqn:Htree; [done|].
  destruct (bool_decide (filterCodeFiles tree = [])); [done|].
  case_bool_decide as Hranked; [done|].
  intros [= <-]. cbn [IngestResult.cards IngestResult.meta].
  split.
  { rewrite generateCards_length.
    destruct (rankedBlocksOf _ _ _ _ _ _ _ _ _) as [|b bs]; [done|].
    cbn [length]. unfold MAX_CARDS. lia. }
  split; [apply generateCards_NoDup|].
  exists owner, repo, tree. split; [done|]. split; [done|]. split; [done|].
  intros card Hcard.
  apply list_elem_of_In, list_elem_of_lookup_1 in Hcard as [i Hi].
  apply generateCards_fields in Hi
    as (block & Hblock & Htitle & Hcode & Hpath & Hlang & Htype).
  apply lookup_take_Some in Hblock as [Hblock _].
  apply list_elem_of_lookup_2, list_elem_of_In, rankBlocks_In in Hblock.
  apply in_flat_map in Hblock as (file & Hfile & Hin).
  by exists file, block.
Qed.
End IngestCards.

Lemma ingestRepo_cards_provenance_witness :
  (0 < length [CodeCard.mk "gen-0-fact" TFunction "fact" "src/math.ts"
                 (ExtractedBlock.code factBlock) "typescript"
                 (generateExplanation factBlock) 2] ≤ MAX_CARDS)%nat.
Proof.
  apply (ingestRepo_cards_provenance demoParse demoFetchRepo demoFetchTree
           demoFetchFiles demoTS noBlocks noBlocks noBlocks noBlocks "demo/math"
           (IngestResult.mk demoMeta
              [CodeCard.mk "gen-0-fact" TFunction "fact" "src/math.ts"
                 (ExtractedBlock.code factBlock) "typescript"
                 (generateExplanation factBlock) 2])).
  by vm_compute.
Defined.

(** ** A session of confirms *)

(** The first element of a sorted array is the one with the least key. *)
Lemma js_sort_head_min {A : Type} (key : A → Z) (l : list A) (x : A) :
  In x l → (∀ y, In y l → y = x ∨ key x < key y) →
  head (js_sort (byKey key) l) = Some x.
Proof.
  intros Hx Hmin.
  pose proof (js_sort_perm key l) as Hperm.
  pose proof (js_sort_sorted key l) as Hsorted.
  destruct (js_sort (byKey key) l) as [|h rest].
  - apply Permutation_nil in Hperm. by subst l.
  - cbn. f_equal.
    assert (Hh : In h l) by (eapply Permutation_in; [exact Hperm|by left]).
    destruct (Hmin h Hh) as [->|Hlt]; [done|].
    assert (Hin : In x (h :: rest))
      by (eapply Permutation_in; [symmetry; exact Hperm|done]).
    destruct Hin as [->|Hin]; [done|].
    apply StronglySorted_inv in Hsorted as [_ Hall].
    rewrite List.Forall_forall in Hall. specialize (Hall x Hin). cbn in Hall. lia.
Qed.

Lemma head_app_Some {A : Type} (l k : list A) (x : A) :
  head l = Some x → head (l ++ k) = Some x.
Proof. by destruct l. Qed.

Lemma last_In {A : Type} (l : list A) (x : A) : last l = Some x → In x l.
Proof.
  intros Hlast. apply last_Some in Hlast as [l' ->].
  apply in_or_app. right. by left.
Qed.

Lemma StronglySorted_ext_in {A : Type} (R R' : A → A → Prop) (l : list A) :
  (∀ a b, In a l → In b l → R a b → R' a b) →
  StronglySorted R l → StronglySorted R' l.
Proof.
  induction l as [|x l IH]; intros Hext Hsorted; [constructor|].
  apply StronglySorted_inv in Hsorted as [Hsorted Hall].
  constructor.
  - apply IH; [|done]. intros a b Ha Hb. apply Hext; by right.
  - rewrite List.Forall_forall in Hall |- *. intros y Hy.
    apply Hext; [by left|by right|by apply Hall].
Qed.

Lemma hasConfirms_other progress id now q d :
  CodeCard.id d ≠ id →
  hasConfirms progress q d →
  hasConfirms (swipeRightUpdater id now progress).1 q d.
Proof.
  intros Hne. unfold hasConfirms.
  by rewrite swipeRightUpdater_other.
Qed.

Lemma lastSeenOf_other progress id now d :
  CodeCard.id d ≠ id →
  lastSeenOf (swipeRightUpdater id now progress).1 d = lastSeenOf progress d.
Proof. intros Hne. unfold lastSeenOf. by rewrite swipeRightUpdater_other. Qed.

Lemma hasConfirms_seenOr0 progress q c :
  hasConfirms progress q c → seenOr0 progress (CodeCard.id c) = Z.of_nat q.
Proof.
  unfold hasConfirms, seenOr0. destruct q as [|q].
  - by intros ->.
  - by intros [t ->].
Qed.

Section RoundFacts.
Variable cards : list CodeCard.t.
Hypothesis Hids : NoDup (map CodeCard.id cards).
Hypothesis Hsize : (2 ≤ length cards)%nat.

Lemma ids_apart done c todo :
  cards = done ++ c :: todo →
  ∀ d, In d done ∨ In d todo → CodeCard.id d ≠ CodeCard.id c.
Proof.
  intros Hcards. pose proof Hids as Hnd.
  rewrite Hcards, map_app in Hnd. cbn [map] in Hnd.
  apply NoDup_app in Hnd as (_ & Hdisj & Hnd).
  apply NoDup_cons in Hnd as [Hc _].
  intros d [Hd|Hd] Heq.
  - apply (Hdisj (CodeCard.id d)).
    + by apply list_elem_of_In, in_map.
    + rewrite Heq. by left.
  - apply Hc. rewrite <- Heq. by apply list_elem_of_In, in_map.
Qed.

(** In a round of confirms the current card is the first card of the deck
    that the round has not reached. *)
Lemma currentCard_round q done c todo st :
  cards = done ++ c :: todo → (q ≤ 2)%nat →
  RoundState q done (c :: todo) st →
  currentCard cards st = Some c.
Proof.
  intros Hcards Hq [Hdone Htodo Horder Hlast].
  pose proof (ids_apart _ _ _ Hcards) as Hapart.
  unfold currentCard. destruct q as [|q].
  - rewrite currentCard_first_unseen; rewrite Hcards, List.filter_app.
    + rewrite (filter_none _ done), (filter_all _ (c :: todo)); [done| |].
      * eapply Forall_impl; [exact Htodo|]. intros d Hd.
        unfold isUnseen. by rewrite Hd.
      * eapply Forall_impl; [exact Hdone|]. intros d [t Hd].
        unfold isUnseen. by rewrite Hd.
    + rewrite (filter_all _ (c :: todo)); [by destruct (List.filter _ done)|].
      eapply Forall_impl; [exact Htodo|]. intros d Hd.
      unfold isUnseen. by rewrite Hd.
  - unfold buildQueue.
    rewrite (filter_none (isUnseen (progress st)) cards).
    2:{ rewrite Hcards. apply Forall_app. split.
        - eapply Forall_impl; [exact Hdone|]. intros d [t Hd].
          unfold isUnseen. by rewrite Hd.
        - eapply Forall_impl; [exact Htodo|]. intros d [t Hd].
          unfold isUnseen. by rewrite Hd. }
    cbn [app]. apply head_app_Some.
    apply (js_sort_head_min (lastSeenOf (progress st))).
    + apply filter_In. split; [rewrite Hcards; apply in_or_app; right; by left|].
      apply Forall_cons in Htodo as [[t Hc] _].
      unfold needsWorkFilter. rewrite Hc. cbn [confirmedEntry CardProgress.mastered].
      destruct (Z.leb_spec 3 (Z.of_nat (S q))); [lia|]. cbn [negb andb].
      unfold notJustSwiped. rewrite Hlast.
      apply negb_true_iff, bool_decide_eq_false.
      destruct (last done) as [d|] eqn:Hd.
      * intros [= Heq]. apply (Hapart d); [left; by apply last_In|done].
      * destruct todo as [|c2 todo].
        { apply last_None in Hd as ->. rewrite Hcards in Hsize.
          cbn in Hsize. lia. }
        change (last (c :: c2 :: todo)) with (last (c2 :: todo)).
        destruct (last (c2 :: todo)) as [e|] eqn:He; [|done].
        cbn. intros [= Heq]. apply (Hapart e); [right; by apply last_In|done].
    + intros y Hy. apply filter_In in Hy as [Hy _].
      cbn [app] in Horder. apply StronglySorted_inv in Horder as [_ Hall].
      rewrite List.Forall_forall in Hall.
      rewrite Hcards in Hy. apply in_app_or in Hy as [Hy|[->|Hy]].
      * right. apply Hall. apply in_or_app. by right.
      * by left.
      * right. apply Hall. apply in_or_app. by left.
Qed.

(** One confirm of a round. *)
Lemma round_step q done c todo st lo now :
  cards = done ++ c :: todo → (q ≤ 2)%nat → lo < now →
  RoundState q done (c :: todo) st →
  seenBy cards (progress st) lo →
  RoundState q (done ++ [c]) todo (swipeRight cards now st) ∧
  seenBy cards (progress (swipeRight cards now st)) now.
Proof.
  intros Hcards Hq Hnow Hround Hseen.
  pose proof (currentCard_round _ _ _ _ _ Hcards Hq Hround) as Hcur.
  pose proof (ids_apart _ _ _ Hcards) as Hapart.
  destruct Hround as [Hdone Htodo Horder Hlast].
  rewrite (swipeRight_current _ _ _ _ Hcur).
  cbn [progress lastSwipedId].
  apply Forall_cons in Htodo as [Hc Htodo].
  assert (Hentry : (swipeRightUpdater (CodeCard.id c) now (progress st)).1
                   !! CodeCard.id c = Some (confirmedEntry c (S q) now)).
  { rewrite swipeRightUpdater_lookup, (hasConfirms_seenOr0 _ _ _ Hc).
    unfold confirmedEntry. by rewrite Nat2Z.inj_succ. }
  assert (Hin : ∀ d, In d done ∨ In d todo → In d cards).
  { intros d Hd. rewrite Hcards. apply in_or_app.
    destruct Hd as [?|?]; [by left|right; by right]. }
  split; [split|].
  - cbn [progress]. apply Forall_app. split.
    + rewrite List.Forall_forall in Hdone |- *. intros d Hd.
      apply hasConfirms_other; [apply Hapart; by left|by apply Hdone].
    + constructor; [|constructor]. by exists now.
  - cbn [progress]. rewrite List.Forall_forall in Htodo |- *. intros d Hd.
    apply hasConfirms_other; [apply Hapart; by right|by apply Htodo].
  - cbn [progress].
    set (X := match q with O => done | S _ => todo ++ done end).
    assert (HX : ∀ d, In d X → In d done ∨ In d todo).
    { intros d Hd. subst X. destruct q; [by left|].
      apply in_app_or in Hd as [?|?]; [by right|by left]. }
    assert (Hkeep : ∀ d, In d X →
              lastSeenOf (swipeRightUpdater (CodeCard.id c) now (progress st)).1 d
              = lastSeenOf (progress st) d).
    { intros d Hd. apply lastSeenOf_other, Hapart, HX, Hd. }
    assert (Hbefore : ∀ d, In d X → lastSeenOf (progress st) d ≤ lo).
    { intros d Hd. unfold lastSeenOf.
      assert (Hsome : is_Some (progress st !! CodeCard.id d)).
      { subst X. destruct q as [|q].
        - rewrite List.Forall_forall in Hdone.
          destruct (Hdone d Hd) as [t ->]. by eexists.
        - apply in_app_or in Hd as [Hd|Hd].
          + rewrite List.Forall_forall in Htodo.
            destruct (Htodo d Hd) as [t ->]. by eexists.
          + rewrite List.Forall_forall in Hdone.
            destruct (Hdone d Hd) as [t ->]. by eexists. }
      destruct Hsome as [p Hp]. rewrite Hp.
      apply (Hseen d p); [by apply Hin, HX|done]. }
    assert (Hsorted : StronglySorted
              (λ a b, lastSeenOf (progress st) a < lastSeenOf (progress st) b) X).
    { subst X. destruct q; [done|].
      cbn [app] in Horder. by apply StronglySorted_inv in Horder as [? _]. }
    assert (Hnew : StronglySorted
              (λ a b,
                 lastSeenOf (swipeRightUpdater (CodeCard.id c) now (progress st)).1 a
                 < lastSeenOf (swipeRightUpdater (CodeCard.id c) now (progress st)).1 b)
              (X ++ [c])).
    { apply StronglySorted_app_2.
      - intros x1 x2 Hx1 Hx2. apply list_elem_of_In in Hx1.
        apply list_elem_of_singleton in Hx2 as ->.
        rewrite (Hkeep _ Hx1). unfold lastSeenOf at 2. rewrite Hentry.
        cbn [confirmedEntry CardProgress.lastSeen].
        specialize (Hbefore _ Hx1). lia.
      - eapply StronglySorted_ext_in; [|exact Hsorted].
        intros a b Ha Hb. by rewrite (Hkeep _ Ha), (Hkeep _ Hb).
      - repeat constructor. }
    subst X. destruct q; [done|]. by rewrite app_assoc.
  - cbn [lastSwipedId]. by rewrite last_snoc.
  - cbn [progress]. intros d p Hd Hp.
    destruct (decide (CodeCard.id d = CodeCard.id c)) as [Heq|Hne].
    + rewrite Heq, Hentry in Hp. injection Hp as <-. cbn. lia.
    + rewrite swipeRightUpdater_other in Hp by done.
      specialize (Hseen d p Hd Hp). lia.
Qed.

(** The end of a round is the start of the next. *)
Lemma round_next q st :
  RoundState q cards [] st → RoundState (S q) [] cards st.
Proof.
  intros [Hdone _ Horder Hlast]. split.
  - constructor.
  - done.
  - rewrite app_nil_r. by destruct q.
  - rewrite Hlast. cbn [last]. by destruct (last cards), q.
Qed.

(** Confirming whatever card is shown, round after round, until every
    card has three confirms. *)
Lemma confirms_run (times : list Z) :
  ∀ q done todo st lo,
    cards = done ++ todo → todo ≠ [] → (q ≤ 2)%nat →
    RoundState q done todo st →
    seenBy cards (progress st) lo →
    StronglySorted Z.lt (lo :: times) →
    length times = ((2 - q) * length cards + length todo)%nat →
    RoundState 2 cards [] (foldl (deckStep cards) st (map Confirm times)).
Proof.
  induction times as [|now times IH];
    intros q done todo st lo Hcards Htodo Hq Hround Hseen Hsorted Hlen.
  { destruct todo; [done|]. cbn [length] in Hlen. nia. }
  destruct todo as [|c todo]; [done|].
  apply StronglySorted_inv in Hsorted as [Hsorted Hlo].
  apply Forall_cons in Hlo as [Hnow _].
  destruct (round_step _ _ _ _ _ _ _ Hcards Hq Hnow Hround Hseen)
    as [Hround' Hseen'].
  cbn [map foldl deckStep].
  destruct todo as [|c2 todo].
  - rewrite <- Hcards in Hround'.
    assert (Hne : cards ≠ []) by (intros Hnil; rewrite Hnil in Hsize; cbn in Hsize; lia).
    destruct q as [|[|[|q]]]; [| | |lia].
    + apply (IH 1%nat [] cards (swipeRight cards now st) now).
      * done.
      * done.
      * lia.
      * by apply round_next.
      * done.
      * done.
      * cbn [length] in Hlen. lia.
    + apply (IH 2%nat [] cards (swipeRight cards now st) now).
      * done.
      * done.
      * lia.
      * by apply round_next.
      * done.
      * done.
      * cbn [length] in Hlen. lia.
    + destruct times; [done|]. cbn [length] in Hlen. lia.
  - apply (IH q (done ++ [c]) (c2 :: todo) (swipeRight cards now st) now).
    + by rewrite <- app_assoc.
    + done.
    + done.
    + done.
    + done.
    + done.
    + cbn [length] in Hlen |- *. lia.
Qed.
End RoundFacts.

(** X24: a deck of two or more cards with pairwise distinct ids can be
    completed: a user who confirms whatever card is shown, while the clock
    moves on, has after three times as many confirms as the deck has
    cards given every card exactly three confirms; every card is then
    mastered and [allMastered] holds. *)
Theorem confirming_masters_deck (cards : list CodeCard.t) (times : list Z) :
  NoDup (map CodeCard.id cards) →
  (2 ≤ length cards)%nat →
  length times = (3 * length cards)%nat →
  StronglySorted Z.lt times →
  let st := runDeck cards (map Confirm times) in
  (∀ c, In c cards →
     ∃ t, progress st !! CodeCard.id c
          = Some (CardProgress.mk (CodeCard.id c) 3 true t)) ∧
  allMastered cards st = true.
Proof.
  intros Hids Hsize Hlen Hsorted. cbv zeta.
  assert (Hround : RoundState 2 cards []
                     (runDeck cards (map Confirm times))).
  { destruct times as [|t0 times]; [cbn in Hlen; lia|].
    apply (confirms_run cards Hids Hsize (t0 :: times) 0 [] cards initialDeck
             (t0 - 1)); try done.
    - by destruct cards.
    - lia.
    - split; cbn; [constructor| |constructor|done].
      apply Forall_forall. intros c _. apply lookup_empty.
    - constructor; [done|].
      apply StronglySorted_inv in Hsorted as [_ Hall].
      constructor; [lia|]. eapply Forall_impl; [exact Hall|]. cbn. lia.
    - lia. }
  destruct Hround as [Hdone _ _ _].
  assert (Hall : ∀ c, In c cards →
     ∃ t, progress (runDeck cards (map Confirm times)) !! CodeCard.id c
          = Some (CardProgress.mk (CodeCard.id c) 3 true t)).
  { rewrite List.Forall_forall in Hdone. intros c Hc.
    destruct (Hdone c Hc) as [t Ht]. by exists t. }
  split; [done|].
  unfold allMastered. apply andb_true_iff. split; [|apply Nat.ltb_lt; lia].
  apply Nat.leb_le. rewrite masteredCount_size.
  rewrite <- (length_map CodeCard.id cards).
  rewrite <- (size_list_to_set (C := gset string) (map CodeCard.id cards)) by done.
  apply subseteq_size. intros id Hid.
  apply elem_of_list_to_set, list_elem_of_In, in_map_iff in Hid
    as (c & <- & Hc).
  apply elem_of_masteredIds. destruct (Hall c Hc) as [t Ht]. by eexists.
Qed.

Lemma confirming_masters_deck_witness :
  allMastered [demoCard "a"; demoCard "b"]
    (runDeck [demoCard "a"; demoCard "b"]
       (map Confirm [10; 20; 30; 40; 50; 60])) = true.
Proof.
  apply (confirming_masters_deck [demoCard "a"; demoCard "b"]
           [10; 20; 30; 40; 50; 60]).
  - apply (bool_decide_unpack _). by vm_compute.
  - cbn. lia.
  - reflexivity.
  - repeat (constructor; [|repeat (constructor; [lia|]); constructor]).
    constructor.
Defined.

(** ** No shortcut to completion *)

Lemma foldl_sumSeen (entries : list CardProgress.t) (z : Z) :
  foldl (λ a p, a + CardProgress.seen p) z entries = z + sumSeen entries.
Proof.
  revert z. induction entries as [|p entries IH]; intros z; cbn; [lia|].
  rewrite IH. unfold sumSeen. lia.
Qed.

Lemma sumSeen_perm (l k : list CardProgress.t) :
  Permutation l k → sumSeen l = sumSeen k.
Proof. unfold sumSeen. induction 1; cbn in *; lia. Qed.

Lemma swipeIndex_sum (m : gmap string CardProgress.t) :
  swipeIndex m = sumSeen (map snd (map_to_list m)).
Proof. unfold swipeIndex. rewrite foldl_sumSeen. lia. Qed.

Lemma swipeIndex_insert_fresh (m : gmap string CardProgress.t) i x :
  m !! i = None → swipeIndex (<[i:=x]> m) = CardProgress.seen x + swipeIndex m.
Proof.
  intros Hi. rewrite !swipeIndex_sum.
  rewrite (sumSeen_perm _ (map snd ((i, x) :: map_to_list m))); [done|].
  apply Permutation_map. by apply map_to_list_insert.
Qed.

Lemma swipeIndex_delete (m : gmap string CardProgress.t) i p :
  m !! i = Some p → swipeIndex m = CardProgress.seen p + swipeIndex (delete i m).
Proof.
  intros Hi. rewrite <- (insert_delete_id m i p Hi) at 1.
  apply swipeIndex_insert_fresh, lookup_delete_eq.
Qed.

Lemma swipeIndex_insert (m : gmap string CardProgress.t) i x :
  swipeIndex (<[i:=x]> m) = swipeIndex m - seenOr0 m i + CardProgress.seen x.
Proof.
  unfold seenOr0. destruct (m !! i) as [p|] eqn:Hi.
  - rewrite <- insert_delete_eq.
    rewrite swipeIndex_insert_fresh by apply lookup_delete_eq.
    rewrite (swipeIndex_delete m i p Hi). lia.
  - rewrite swipeIndex_insert_fresh by done. lia.
Qed.

Lemma swipeIndex_empty : swipeIndex ∅ = 0.
Proof. unfold swipeIndex. by rewrite map_to_list_empty. Qed.

Lemma confirmCount_nonneg events : 0 ≤ confirmCount events.
Proof. unfold confirmCount. lia. Qed.

Lemma confirmCount_cons e events :
  confirmCount (e :: events)
  = (if isConfirm e then 1 else 0) + confirmCount events.
Proof.
  unfold confirmCount. cbn [List.filter].
  destruct (isConfirm e); cbn [length]; lia.
Qed.

(** One event raises the sum of the counts by at most one, and only if it
    is a confirm. *)
Lemma swipeIndex_deckEvent cards st e :
  DeckWf cards st →
  swipeIndex (progress (deckEvent cards st e))
  ≤ Z.max 0 (swipeIndex (progress st)) + (if isConfirm e then 1 else 0).
Proof.
  intros Hwf. destruct e as [a| |]; cbn [deckEvent isConfirm].
  - destruct (currentCard cards st) as [card|] eqn:Hcur.
    2:{ destruct a; cbn; unfold swipeRight, swipeLeft, swipeUp;
          rewrite Hcur; lia. }
    pose proof (seenOr0_nonneg _ _ (CodeCard.id card) Hwf) as Hseen.
    destruct a as [now|now|]; cbn [deckStep].
    + rewrite (swipeRight_current _ _ _ _ Hcur). cbn [progress].
      unfold swipeRightUpdater. cbn [fst].
      rewrite swipeIndex_insert. cbn [CardProgress.seen]. lia.
    + rewrite (swipeLeft_current _ _ _ _ Hcur). cbn [progress].
      unfold swipeLeftUpdater. rewrite swipeIndex_insert.
      cbn [CardProgress.seen]. lia.
    + rewrite (swipeUp_current _ _ _ Hcur). cbn [progress]. lia.
  - cbn. rewrite swipeIndex_empty. lia.
  - cbn. lia.
Qed.

Lemma swipeIndex_foldl cards events :
  ∀ st k, DeckWf cards st → 0 ≤ k → swipeIndex (progress st) ≤ k →
  swipeIndex (progress (foldl (deckEvent cards) st events))
  ≤ k + confirmCount events.
Proof.
  induction events as [|e events IH]; intros st k Hwf Hk Hle.
  { cbn. unfold confirmCount. cbn. lia. }
  cbn [foldl]. rewrite confirmCount_cons.
  pose proof (swipeIndex_deckEvent cards st e Hwf) as Hstep.
  pose proof (IH (deckEvent cards st e)
                (k + (if isConfirm e then 1 else 0))
                (DeckWf_deckEvent _ _ _ Hwf)) as Hrest.
  destruct (isConfirm e); (etrans; [apply Hrest; lia|lia]).
Qed.

(** Entries of distinct cards that count three or more sum up to at least
    three per card. *)
Lemma swipeIndex_mastered cards :
  NoDup (map CodeCard.id cards) →
  ∀ m : gmap string CardProgress.t,
    (∀ i p, m !! i = Some p → 0 ≤ CardProgress.seen p) →
    (∀ c, In c cards →
       ∃ p, m !! CodeCard.id c = Some p ∧ 3 ≤ CardProgress.seen p) →
    3 * Z.of_nat (length cards) ≤ swipeIndex m.
Proof.
  induction cards as [|c cards IH]; intros Hnd m Hpos Hall.
  { cbn. rewrite swipeIndex_sum.
    assert (Hsum : ∀ l, Forall (λ p, 0 ≤ CardProgress.seen p) l → 0 ≤ sumSeen l).
    { unfold sumSeen. induction 1; cbn in *; lia. }
    apply Hsum, List.Forall_forall. intros p Hp.
    apply in_map_iff in Hp as ([i p'] & <- & Hp).
    apply list_elem_of_In, elem_of_map_to_list in Hp. by eapply Hpos. }
  cbn [map] in Hnd. apply NoDup_cons in Hnd as [Hc Hnd].
  destruct (Hall c (or_introl eq_refl)) as (p & Hp & Hthree).
  rewrite (swipeIndex_delete m _ p Hp).
  assert (Hrest : 3 * Z.of_nat (length cards)
                  ≤ swipeIndex (delete (CodeCard.id c) m)).
  { apply IH; [done| |].
    - intros i q Hq. apply lookup_delete_Some in Hq as [_ Hq]. by eapply Hpos.
    - intros d Hd. destruct (Hall d (or_intror Hd)) as (q & Hq & Hq3).
      exists q. split; [|done]. rewrite lookup_delete_ne; [done|].
      intros Heq. apply Hc. rewrite Heq. by apply list_elem_of_In, in_map. }
  cbn [length]. lia.
Qed.

(** X25: there is no shortcut to completion. On every deck state reachable
    from empty progress, the sum of the counts of all entries (the [index]
    the feed screen computes) is at most the number of confirms so far;
    and when the cards have pairwise distinct ids and [allMastered] holds,
    that sum is at least three times the number of cards. So
    [allMastered] takes at least three confirms per card, whatever else
    the user does. *)
Theorem completion_needs_three_confirms_each (cards : list CodeCard.t)
    (events : list DeckEvent) :
  let st := runEvents cards events in
  swipeIndex (progress st) ≤ confirmCount events ∧
  (NoDup (map CodeCard.id cards) → allMastered cards st = true →
   3 * Z.of_nat (length cards) ≤ swipeIndex (progress st) ∧
   3 * Z.of_nat (length cards) ≤ confirmCount events).
Proof.
  cbv zeta.
  pose proof (DeckWf_foldl cards events initialDeck (DeckWf_initial cards)) as Hwf.
  pose proof (swipeIndex_foldl cards events initialDeck 0 (DeckWf_initial cards))
    as Hle.
  fold (runEvents cards events) in Hwf, Hle.
  assert (Hindex : swipeIndex (progress (runEvents cards events))
                   ≤ confirmCount events).
  { etrans; [apply Hle; [done|]|lia]. cbn. by rewrite swipeIndex_empty. }
  split; [done|]. intros Hnd Hall.
  assert (Hthree : 3 * Z.of_nat (length cards)
                   ≤ swipeIndex (progress (runEvents cards events))); [|lia].
  generalize dependent (runEvents cards events). intros st Hwf _ _ Hall.
  apply swipeIndex_mastered; [done| |].
  - intros i p Hp. by destruct (wf_entries _ _ Hwf _ _ Hp) as (_ & ? & _).
  - set (ids := list_to_set (map CodeCard.id cards) : gset string).
    assert (Hsize : size ids = length cards).
    { unfold ids. rewrite size_list_to_set by done. apply length_map. }
    assert (Hsub : masteredIds (progress st) ⊆ ids).
    { intros i (p & Hp & _)%elem_of_masteredIds.
      destruct (wf_entries _ _ Hwf _ _ Hp) as (_ & _ & _ & c & Hc & <-).
      unfold ids. rewrite elem_of_list_to_set, list_elem_of_In. by apply in_map. }
    unfold allMastered in Hall.
    apply andb_true_iff in Hall as [Hcount _]. apply Nat.leb_le in Hcount.
    rewrite masteredCount_size in Hcount.
    intros c Hc.
    assert (Hin : CodeCard.id c ∈ masteredIds (progress st)).
    { apply (set_subseteq_size_equiv _ _ Hsub); [lia|].
      unfold ids. rewrite elem_of_list_to_set, list_elem_of_In. by apply in_map. }
    apply elem_of_masteredIds in Hin as (p & Hp & Hm).
    exists p. split; [done|].
    destruct (wf_entries _ _ Hwf _ _ Hp) as (_ & _ & Hinv & _).
    by apply Hinv.
Qed.
